(** * Shop ETL: PostgreSQL to Neo4j migration

    app/etl.py, app/utils.py and the migration handler of app/main.py.

    A shallow embedding of the migration scripts.  The two data stores are
    external: they are modelled as a [world] value threaded through a small
    exception/state/trace monad.  Every call that leaves the process
    (connect, read, run) may raise, following a fault plan carried by the
    world. *)

From Stdlib Require Import List String Ascii ZArith NArith Lia Bool DecimalString.
From Stdlib Require Import Floats.SpecFloat.
Import ListNotations.

Local Open Scope string_scope.
Local Open Scope list_scope.

(** String concatenation, kept apart from list append. *)
Infix "^^" := String.append (at level 60, right associativity).

(** ** Python strings and built-ins *)

Module Py.

(** [str(n)] for an [int]. *)
Definition str_of_int (z : Z) : string := NilZero.string_of_int (Z.to_int z).

(** [str(len(xs))]. *)
Definition str_of_len {A} (xs : list A) : string :=
  str_of_int (Z.of_nat (List.length xs)).

(** [s * n]. *)
Fixpoint repeat_str (s : string) (n : nat) : string :=
  match n with
  | O => ""
  | S k => s ^^ repeat_str s k
  end.

(** A text read from a file is a sequence of Unicode code points. *)
Definition text := list N.

Definition text_of_string (s : string) : text :=
  map N_of_ascii (list_ascii_of_string s).

(** [c.isspace()]: the code points [str.strip()] removes. *)
Definition isspace (c : N) : bool :=
  ((9 <=? c) && (c <=? 13) || (28 <=? c) && (c <=? 32)
   || (c =? 133) || (c =? 160) || (c =? 5760)
   || (8192 <=? c) && (c <=? 8202)
   || (c =? 8232) || (c =? 8233) || (c =? 8239) || (c =? 8287)
   || (c =? 12288))%N.

(** [';'] *)
Definition semicolon : N := 59.

(** [s.split(sep)] for a one-character separator: never returns []. *)
Fixpoint split (sep : N) (s : text) : list text :=
  match s with
  | [] => [[]]
  | c :: r =>
      if (c =? sep)%N then [] :: split sep r
      else match split sep r with
           | seg :: segs => (c :: seg) :: segs
           | [] => [[c]]
           end
  end.

Fixpoint lstrip (s : text) : text :=
  match s with
  | [] => []
  | c :: r => if isspace c then lstrip r else s
  end.

Definition rstrip (s : text) : text := rev (lstrip (rev s)).

(** [s.strip()] *)
Definition strip (s : text) : text := rstrip (lstrip s).

(** Truth value of a string: non-empty. *)
Definition truthy (s : text) : bool :=
  match s with [] => false | _ :: _ => true end.

(** A [decimal.Decimal] that is a number: sign, coefficient and exponent,
    as [as_tuple()] gives them; its value is
    [(-1)^sign * coefficient * 10^exponent]. *)
Record decimal := mkDecimal { dec_sign : bool; dec_coeff : N; dec_exp : Z }.

(** [float(d)]: the binary64 number nearest to [d], ties to even; a value
    too large for binary64 gives an infinity, one too small a zero.  The
    quotient of the two integers [coefficient * 10^max(exponent, 0)] and
    [10^max(-exponent, 0)] is rounded once. *)
Definition float (d : decimal) : spec_float :=
  match dec_coeff d with
  | N0 => S754_zero (dec_sign d)
  | Npos m =>
      SFdiv 53 1024
        (S754_finite (dec_sign d)
           (m * Z.to_pos (10 ^ Z.max (dec_exp d) 0)) 0)
        (S754_finite false (Z.to_pos (10 ^ Z.max (- dec_exp d) 0)) 0)
  end.

End Py.

(** ** Exceptions *)

Inductive exn : Type :=
| OperationalError (msg : string)          (* psycopg2.OperationalError *)
| StoreError (msg : string)                (* any other error of a driver or of pandas *)
| PyException (msg : string) (cause : exn) (* raise Exception(msg) from cause *)
| HTTPException (status : Z) (detail : string).

(** [str(e)] *)
Definition str_of_exn (e : exn) : string :=
  match e with
  | OperationalError m => m
  | StoreError m => m
  | PyException m _ => m
  | HTTPException _ d => d
  end.

Inductive result (A : Type) : Type :=
| Ok (a : A)
| Raise (e : exn).
Arguments Ok {A} a.
Arguments Raise {A} e.

(** ** Calendar dates and timestamps of the relational source *)

Record date := mkDate { year : N; month : N; day : N }.

Record timestamp := mkTs {
  ts_date : date; hour : N; minute : N; second : N; microsecond : N }.

Definition is_leap (y : N) : bool :=
  ((y mod 4 =? 0) && (negb (y mod 100 =? 0) || (y mod 400 =? 0)))%N.

Definition days_in_month (y m : N) : N :=
  match m with
  | 2%N => if is_leap y then 29 else 28
  | 4%N | 6%N | 9%N | 11%N => 30
  | _ => 31
  end%N.

(** A date as [datetime.date] can hold it. *)
Definition valid_date (d : date) : bool :=
  ((1 <=? year d) && (year d <=? 9999) && (1 <=? month d) && (month d <=? 12)
   && (1 <=? day d) && (day d <=? days_in_month (year d) (month d)))%N.

Definition valid_timestamp (t : timestamp) : bool :=
  (valid_date (ts_date t) && (hour t <? 24) && (minute t <? 60)
   && (second t <? 60) && (microsecond t <? 1000000))%N.

(** *** How Python prints them *)

Definition digit_char (d : N) : ascii := ascii_of_N (48 + d).

Definition pad2 (n : N) : string :=
  String (digit_char (n / 10)) (String (digit_char (n mod 10)) "").

Definition pad4 (n : N) : string := pad2 (n / 100) ^^ pad2 (n mod 100).

Definition pad6 (n : N) : string := pad2 (n / 10000) ^^ pad4 (n mod 10000).

(** [str(d)] for a [datetime.date]: [YYYY-MM-DD]. *)
Definition py_str_date (d : date) : string :=
  pad4 (year d) ^^ "-" ^^ pad2 (month d) ^^ "-" ^^ pad2 (day d).

Definition py_time (t : timestamp) : string :=
  pad2 (hour t) ^^ ":" ^^ pad2 (minute t) ^^ ":" ^^ pad2 (second t)
  ^^ (if (microsecond t =? 0)%N then "" else "." ^^ pad6 (microsecond t)).

(** [t.isoformat()] for a [Timestamp] without zone. *)
Definition py_isoformat (t : timestamp) : string :=
  py_str_date (ts_date t) ^^ "T" ^^ py_time t.

(** [str(t)] for a [datetime.datetime] without zone: a space separates date
    and time. *)
Definition py_str_datetime (t : timestamp) : string :=
  py_str_date (ts_date t) ^^ " " ^^ py_time t.

(** ** The graph store: values, nodes, relationships *)

(** A date-time value of the graph: local fields and a zone offset in
    seconds. *)
Record gdatetime := mkGdt {
  dt_date : date; dt_hour : N; dt_minute : N; dt_second : N;
  dt_nanosecond : N; dt_offset : Z }.

Inductive value : Type :=
| VInt (z : Z)
| VFloat (f : spec_float)
| VStr (s : string)
| VDate (d : date)
| VDateTime (t : gdatetime).

Definition props := list (string * value).

Record node := mkNode { nlabel : string; nprops : props }.

(** Endpoints are positions in [nodes] (creation order). *)
Record rel := mkRel { rtype : string; rsrc : nat; rdst : nat; rprops : props }.

Record graph := mkGraph { nodes : list node; rels : list rel }.

Definition empty_graph : graph := mkGraph [] [].

(** *** Temporal constructors of the query language, on the extended
    ISO-8601 calendar form (the form this program hands them) *)

Definition digit_of (c : ascii) : option N :=
  let n := N_of_ascii c in
  if ((48 <=? n) && (n <=? 57))%N then Some (n - 48)%N else None.

Fixpoint number_of (cs : list ascii) (acc : N) : option N :=
  match cs with
  | [] => Some acc
  | c :: r =>
      match digit_of c with
      | Some d => number_of r (10 * acc + d)%N
      | None => None
      end
  end.

Definition parse_date (cs : list ascii) : option date :=
  match cs with
  | [y1; y2; y3; y4; s1; m1; m2; s2; d1; d2] =>
      if (Ascii.eqb s1 "-" && Ascii.eqb s2 "-")%bool then
        match number_of [y1; y2; y3; y4] 0, number_of [m1; m2] 0,
              number_of [d1; d2] 0 with
        | Some y, Some m, Some d =>
            let r := mkDate y m d in
            if valid_date r then Some r else None
        | _, _, _ => None
        end
      else None
  | _ => None
  end.

(** Fraction of a second: one to nine digits, as nanoseconds. *)
Definition parse_fraction (cs : list ascii) : option N :=
  let k := List.length cs in
  if ((1 <=? k) && (k <=? 9))%nat then
    match number_of cs 0 with
    | Some n => Some (n * 10 ^ N.of_nat (9 - k))%N
    | None => None
    end
  else None.

Definition parse_time (cs : list ascii) : option (N * N * N * N) :=
  match cs with
  | h1 :: h2 :: c1 :: m1 :: m2 :: c2 :: s1 :: s2 :: rest =>
      if (Ascii.eqb c1 ":" && Ascii.eqb c2 ":")%bool then
        match number_of [h1; h2] 0, number_of [m1; m2] 0,
              number_of [s1; s2] 0 with
        | Some h, Some m, Some s =>
            if ((h <? 24) && (m <? 60) && (s <? 60))%N then
              match rest with
              | [] => Some (h, m, s, 0%N)
              | dot :: frac =>
                  if Ascii.eqb dot "." then
                    match parse_fraction frac with
                    | Some ns => Some (h, m, s, ns)
                    | None => None
                    end
                  else None
              end
            else None
        | _, _, _ => None
        end
      else None
  | _ => None
  end.

(** [date(s)] *)
Definition cypher_date (s : string) : option date :=
  parse_date (list_ascii_of_string s).

(** [datetime(s)]: date, ['T'], time; without a zone suffix the value is
    in UTC. *)
Definition cypher_datetime (s : string) : option gdatetime :=
  let cs := list_ascii_of_string s in
  match parse_date (firstn 10 cs), skipn 10 cs with
  | Some d, sep :: tm =>
      if Ascii.eqb sep "T" then
        match parse_time tm with
        | Some (h, m, sec, ns) => Some (mkGdt d h m sec ns 0)
        | None => None
        end
      else None
  | _, _ => None
  end.

(** The instant a source timestamp denotes. *)
Definition instant_of (t : timestamp) : gdatetime :=
  mkGdt (ts_date t) (hour t) (minute t) (second t) (microsecond t * 1000)%N 0.

(** ** The relational source *)

Record category := mkCategory { cat_id : Z; cat_name : string }.

(** [price] is a NUMERIC column: its value is a [Decimal], which is not
    null and is a number.  psycopg2 hands it over as such; [pd.read_sql]
    turns it into the binary64 number [float] gives for it, on which
    [float] changes nothing: [float(row['price'])] is [Py.float] of the
    column value on both paths. *)
Record product := mkProduct {
  prod_id : Z; prod_name : string; prod_price : Py.decimal;
  prod_category_id : Z }.

Record customer := mkCustomer {
  cust_id : Z; cust_name : string; cust_join_date : date }.

(** [ts] (and [join_date] above) are not null: a timestamp without zone,
    to the microsecond, as the relational store keeps it. *)
Record order := mkOrder { ord_id : Z; ord_customer_id : Z; ord_ts : timestamp }.

Record order_item := mkOrderItem {
  oi_order_id : Z; oi_product_id : Z; oi_quantity : Z }.

Record shop_event := mkShopEvent {
  ev_customer_id : Z; ev_product_id : Z; ev_event_type : string;
  ev_ts : timestamp }.

Record database := mkDatabase {
  categories : list category;
  products : list product;
  customers : list customer;
  orders : list order;
  order_items : list order_item;
  events : list shop_event }.

(** ** Statements sent to the graph store

    One constructor per query text of the scripts, carrying its parameters
    as Python hands them over. *)

Inductive statement : Type :=
| DetachDeleteAll
    (* MATCH (n) DETACH DELETE n *)
| Return1
    (* RETURN 1 *)
| CreateCategory (id : Z) (name : string)
    (* CREATE (cat:Category {id: $id, name: $name}) *)
| CreateProduct (id : Z) (name : string) (price : spec_float) (category_id : Z)
    (* MATCH (cat:Category {id: $category_id})
       CREATE (p:Product {id: $id, name: $name, price: $price})
       CREATE (p)-[:IN_CATEGORY]->(cat) *)
| CreateCustomer (id : Z) (name : string) (join_date : string)
    (* CREATE (c:Customer {id: $id, name: $name, join_date: date($join_date)}) *)
| CreateOrder (id : Z) (customer_id : Z) (ts : string)
    (* MATCH (c:Customer {id: $customer_id})
       CREATE (o:Order {id: $id, timestamp: datetime($ts)})
       CREATE (c)-[:PLACED]->(o) *)
| CreateContains (order_id : Z) (product_id : Z) (quantity : Z)
    (* MATCH (o:Order {id: $order_id})
       MATCH (p:Product {id: $product_id})
       CREATE (o)-[:CONTAINS {quantity: $quantity}]->(p) *)
| CreateInteracted (customer_id : Z) (product_id : Z) (event_type : string)
                   (ts : string)
    (* MATCH (c:Customer {id: $customer_id})
       MATCH (p:Product {id: $product_id})
       CREATE (c)-[:INTERACTED {event_type: $event_type,
                                timestamp: datetime($ts)}]->(p) *)
| SchemaStatement (stmt : Py.text)
    (* one statement of queries.cypher *).

(** A result record: column name and value. *)
Definition record := list (string * value).

(** *** What the store does with a statement *)

Fixpoint assoc (k : string) (ps : props) : option value :=
  match ps with
  | [] => None
  | (k', v) :: r => if String.eqb k k' then Some v else assoc k r
  end.

(** [(x:Label {id: $k})] *)
Definition node_matches (label : string) (k : Z) (n : node) : bool :=
  String.eqb (nlabel n) label &&
  match assoc "id" (nprops n) with
  | Some (VInt z) => (z =? k)%Z
  | _ => false
  end.

Fixpoint positions_from (i : nat) (p : node -> bool) (ns : list node) : list nat :=
  match ns with
  | [] => []
  | n :: r => if p n then i :: positions_from (S i) p r
              else positions_from (S i) p r
  end.

(** [MATCH (x:Label {id: $k})]: every node that fits, in creation order. *)
Definition match_nodes (label : string) (k : Z) (g : graph) : list nat :=
  positions_from 0 (node_matches label k) (nodes g).

Definition add_node (n : node) (g : graph) : graph :=
  mkGraph (nodes g ++ [n]) (rels g).

Definition add_rel (r : rel) (g : graph) : graph :=
  mkGraph (nodes g) (rels g ++ [r]).

(** [CREATE (x:...) CREATE (x)-[:T]->(m)] or [CREATE (m)-[:T]->(x)], once
    per matched node [m]. *)
Definition create_linked (n : node) (rt : string) (outgoing : bool)
    (ms : list nat) (g : graph) : graph :=
  fold_left
    (fun g m =>
       let x := List.length (nodes g) in
       add_rel (if outgoing then mkRel rt x m [] else mkRel rt m x [])
               (add_node n g))
    ms g.

(** [CREATE (a)-[:T {..}]->(b)], once per pair of the two matches. *)
Definition create_rels (rt : string) (ps : props) (srcs dsts : list nat)
    (g : graph) : graph :=
  fold_left
    (fun g a => fold_left (fun g b => add_rel (mkRel rt a b ps) g) dsts g)
    srcs g.

(** Modelled from the spec: queries.cypher, the schema script, is not among
    the sources.  The spec describes its statements as schema statements
    (constraints and indexes): they leave nodes and relationships as they
    are. *)
Definition schema_effect (stmt : Py.text) (g : graph) : graph := g.

Definition parse_error (what s : string) : exn :=
  StoreError ("Text cannot be parsed to a " ^^ what ^^ ": " ^^ s).

(** The store's answer to one statement on a graph: the new graph and the
    result records, or an error that leaves the graph as it was.  A clause
    after a [MATCH] is evaluated once per match, so with no match nothing
    is created and nothing is evaluated. *)
Definition exec (q : statement) (g : graph) : exn + graph * list record :=
  match q with
  | DetachDeleteAll => inr (empty_graph, [])
  | Return1 => inr (g, [[("1", VInt 1)]])
  | CreateCategory id name =>
      inr (add_node (mkNode "Category" [("id", VInt id); ("name", VStr name)]) g, [])
  | CreateProduct id name price category_id =>
      inr (create_linked
             (mkNode "Product"
                [("id", VInt id); ("name", VStr name); ("price", VFloat price)])
             "IN_CATEGORY" true (match_nodes "Category" category_id g) g, [])
  | CreateCustomer id name join_date =>
      match cypher_date join_date with
      | Some d =>
          inr (add_node
                 (mkNode "Customer"
                    [("id", VInt id); ("name", VStr name); ("join_date", VDate d)])
                 g, [])
      | None => inl (parse_error "Date" join_date)
      end
  | CreateOrder id customer_id ts =>
      match match_nodes "Customer" customer_id g with
      | [] => inr (g, [])
      | cs =>
          match cypher_datetime ts with
          | Some t =>
              inr (create_linked
                     (mkNode "Order" [("id", VInt id); ("timestamp", VDateTime t)])
                     "PLACED" false cs g, [])
          | None => inl (parse_error "DateTime" ts)
          end
      end
  | CreateContains order_id product_id quantity =>
      inr (create_rels "CONTAINS" [("quantity", VInt quantity)]
             (match_nodes "Order" order_id g)
             (match_nodes "Product" product_id g) g, [])
  | CreateInteracted customer_id product_id event_type ts =>
      match match_nodes "Customer" customer_id g,
            match_nodes "Product" product_id g with
      | [], _ | _, [] => inr (g, [])
      | cs, ps =>
          match cypher_datetime ts with
          | Some t =>
              inr (create_rels "INTERACTED"
                     [("event_type", VStr event_type); ("timestamp", VDateTime t)]
                     cs ps g, [])
          | None => inl (parse_error "DateTime" ts)
          end
      end
  | SchemaStatement stmt => inr (schema_effect stmt g, [])
  end.

(** ** The world outside the process *)

Inductive table :=
| Categories | Products | Customers | Orders | OrderItems | Events.

Definition table_name (t : table) : string :=
  match t with
  | Categories => "categories"
  | Products => "products"
  | Customers => "customers"
  | Orders => "orders"
  | OrderItems => "order_items"
  | Events => "events"
  end.

(** What an observer of the process sees, in order. *)
Inductive event : Type :=
| EPgConnect (conn : nat)               (* psycopg2.connect returned *)
| EPgConnectFailed                      (* psycopg2.connect raised *)
| EPgClose (conn : nat)
| ESelect (conn : nat) (t : table) (ok : bool)  (* SELECT * FROM t *)
| EDriver (drv : nat)                   (* GraphDatabase.driver(...) *)
| EDriverClose (drv : nat)
| ESession (drv : nat) (ses : nat)      (* driver.session() entered *)
| ESessionClose (ses : nat)             (* session left *)
| ERun (ses : nat) (q : statement) (ok : bool)  (* session.run(q) *)
| EPrint (line : string)
| ESleep (secs : N).

(** [faults] is the fault plan: the n-th call that goes to a store
    (connect, select, run) raises the n-th entry if it holds an exception;
    past the end of the plan nothing fails. *)
Record world := mkWorld {
  pg : database;
  neo : graph;
  queries_path : string;             (* where queries.cypher is looked for *)
  queries_cypher : option Py.text;   (* its content, if the file exists *)
  faults : list (option exn);
  next_handle : nat }.

Definition set_neo (g : graph) (w : world) : world :=
  mkWorld (pg w) g (queries_path w) (queries_cypher w) (faults w) (next_handle w).

Definition next_fault (w : world) : option exn * world :=
  match faults w with
  | [] => (None, w)
  | f :: r =>
      (f, mkWorld (pg w) (neo w) (queries_path w) (queries_cypher w) r
            (next_handle w))
  end.

Definition fresh_handle (w : world) : nat * world :=
  (next_handle w,
   mkWorld (pg w) (neo w) (queries_path w) (queries_cypher w) (faults w)
     (S (next_handle w))).

(** ** Computations: exceptions, state, trace *)

Definition M (A : Type) : Type := world -> result A * world * list event.

Definition ret {A} (a : A) : M A := fun w => (Ok a, w, []).

Definition raise {A} (e : exn) : M A := fun w => (Raise e, w, []).

Definition bind {A B} (m : M A) (f : A -> M B) : M B :=
  fun w =>
    match m w with
    | (Ok a, w1, t1) => let '(r, w2, t2) := f a w1 in (r, w2, t1 ++ t2)
    | (Raise e, w1, t1) => (Raise e, w1, t1)
    end.

Declare Scope py_scope.
Delimit Scope py_scope with py.
Notation "x <- m ;; k" := (bind m (fun x => k))
  (at level 100, m at next level, right associativity) : py_scope.
Notation "m ;; k" := (bind m (fun _ => k))
  (at level 100, right associativity) : py_scope.
Local Open Scope py_scope.

(** [try: m  except Exception as e: h e] *)
Definition try_except {A} (m : M A) (h : exn -> M A) : M A :=
  fun w =>
    match m w with
    | (Ok a, w1, t1) => (Ok a, w1, t1)
    | (Raise e, w1, t1) => let '(r, w2, t2) := h e w1 in (r, w2, t1 ++ t2)
    end.

(** [try: m  finally: fin] *)
Definition try_finally {A} (m : M A) (fin : M unit) : M A :=
  fun w =>
    let '(r, w1, t1) := m w in
    let '(rf, w2, t2) := fin w1 in
    (match rf with Ok _ => r | Raise e => Raise e end, w2, t1 ++ t2).

(** [for x in xs: body x] *)
Fixpoint for_each {A} (xs : list A) (body : A -> M unit) : M unit :=
  match xs with
  | [] => ret tt
  | x :: r => body x ;; for_each r body
  end.

Definition emit (e : event) : M unit := fun w => (Ok tt, w, [e]).

Definition print (line : string) : M unit := emit (EPrint line).

(** [time.sleep(secs)]; [secs] is a duration, [time.sleep] accepts no
    negative one. *)
Definition sleep (secs : N) : M unit := emit (ESleep secs).

(** ** The two client libraries *)

(** [psycopg2.connect(database_url)] *)
Definition psycopg2_connect : M nat :=
  fun w =>
    let '(f, w1) := next_fault w in
    match f with
    | Some e => (Raise e, w1, [EPgConnectFailed])
    | None => let '(h, w2) := fresh_handle w1 in (Ok h, w2, [EPgConnect h])
    end.

(** [conn.close()]; closing does not raise. *)
Definition pg_close (conn : nat) : M unit := emit (EPgClose conn).

(** [pd.read_sql("SELECT * FROM t", conn)] and
    [cur.execute("SELECT * FROM t"); cur.fetchall()]. *)
Definition select_all {A} (t : table) (rows : database -> list A) (conn : nat)
  : M (list A) :=
  fun w =>
    let '(f, w1) := next_fault w in
    match f with
    | Some e => (Raise e, w1, [ESelect conn t false])
    | None => (Ok (rows (pg w1)), w1, [ESelect conn t true])
    end.

(** [GraphDatabase.driver(uri, auth=...)]: builds the driver object from
    the configuration, without network traffic; it does not raise. *)
Definition GraphDatabase_driver : M nat :=
  fun w => let '(h, w1) := fresh_handle w in (Ok h, w1, [EDriver h]).

(** [driver.close()]; closing does not raise. *)
Definition driver_close (drv : nat) : M unit := emit (EDriverClose drv).

(** [session.run(q, params)] *)
Definition session_run (ses : nat) (q : statement) : M (list record) :=
  fun w =>
    let '(f, w1) := next_fault w in
    match f with
    | Some e => (Raise e, w1, [ERun ses q false])
    | None =>
        match exec q (neo w1) with
        | inr (g, rows) => (Ok rows, set_neo g w1, [ERun ses q true])
        | inl e => (Raise e, w1, [ERun ses q false])
        end
    end.

(** [with driver.session() as session: body session] *)
Definition with_session {A} (drv : nat) (body : nat -> M A) : M A :=
  fun w =>
    let '(ses, w1) := fresh_handle w in
    let '(r, w2, t) :=
      try_finally (body ses) (emit (ESessionClose ses)) w1 in
    (r, w2, ESession drv ses :: t).

(** ** app/utils.py *)

(** ["\n"] *)
Definition nl : string := String (ascii_of_nat 10) "".

(** [range(n)] *)
Definition range (n : Z) : list Z := map Z.of_nat (seq 0 (Z.to_nat n)).

(** A [for] loop whose body may [return]: the body answers [true] when it
    has returned from the function. *)
Fixpoint for_until {A} (xs : list A) (body : A -> M bool) : M unit :=
  match xs with
  | [] => ret tt
  | x :: r => done <- body x ;; if done then ret tt else for_until r body
  end.

Definition pg_attempt (max_retries : Z) (delay : N) (attempt : Z) : M bool :=
  try_except
    (conn <- psycopg2_connect ;;
     pg_close conn ;;
     print "✓ PostgreSQL is ready!" ;;
     ret true)
    (fun e =>
       match e with
       | OperationalError _ =>
           if (attempt <? max_retries - 1)%Z then
             print ("  Attempt " ^^ Py.str_of_int (attempt + 1) ^^ "/"
                    ^^ Py.str_of_int max_retries
                    ^^ ": PostgreSQL not ready yet, retrying in "
                    ^^ Py.str_of_int (Z.of_N delay) ^^ "s...") ;;
             sleep delay ;;
             ret false
           else
             raise (PyException
                      ("PostgreSQL not ready after "
                       ^^ Py.str_of_int max_retries ^^ " attempts") e)
       | _ => raise e
       end).

Definition wait_for_postgres (max_retries : Z) (delay : N) : M unit :=
  print "Waiting for PostgreSQL to be ready..." ;;
  for_until (range max_retries) (pg_attempt max_retries delay).

Definition neo4j_attempt (max_retries : Z) (delay : N) (attempt : Z) : M bool :=
  try_except
    (driver <- GraphDatabase_driver ;;
     with_session driver (fun session => session_run session Return1) ;;
     driver_close driver ;;
     print "✓ Neo4j is ready!" ;;
     ret true)
    (fun e =>
       if (attempt <? max_retries - 1)%Z then
         print ("  Attempt " ^^ Py.str_of_int (attempt + 1) ^^ "/"
                ^^ Py.str_of_int max_retries
                ^^ ": Neo4j not ready yet, retrying in "
                ^^ Py.str_of_int (Z.of_N delay) ^^ "s...") ;;
         sleep delay ;;
         ret false
       else
         raise (PyException
                  ("Neo4j not ready after "
                   ^^ Py.str_of_int max_retries ^^ " attempts") e)).

Definition wait_for_neo4j (max_retries : Z) (delay : N) : M unit :=
  print "Waiting for Neo4j to be ready..." ;;
  for_until (range max_retries) (neo4j_attempt max_retries delay).

Definition run_cypher (driver : nat) (query : statement) : M (list record) :=
  with_session driver (fun session => session_run session query).

(** [[stmt.strip() for stmt in content.split(';') if stmt.strip()]] *)
Definition statements_of (content : Py.text) : list Py.text :=
  map Py.strip
    (filter (fun stmt => Py.truthy (Py.strip stmt))
       (Py.split Py.semicolon content)).

(** [enumerate(xs, start)] *)
Fixpoint enumerate {A} (xs : list A) (start : Z) : list (Z * A) :=
  match xs with
  | [] => []
  | x :: r => (start, x) :: enumerate r (start + 1)
  end.

Definition run_statement (session : nat) (total : nat) (ix : Z * Py.text)
  : M unit :=
  let '(i, statement) := ix in
  try_except
    (session_run session (SchemaStatement statement) ;;
     print ("  ✓ Executed statement " ^^ Py.str_of_int i ^^ "/"
            ^^ Py.str_of_int (Z.of_nat total)))
    (fun e =>
       print ("  ✗ Error in statement " ^^ Py.str_of_int i ^^ ": "
              ^^ str_of_exn e) ;;
       raise e).

Definition run_cypher_file (driver : nat) : M unit :=
  fun w =>
    match queries_cypher w with
    | None =>
        print ("Warning: Cypher file not found at " ^^ queries_path w) w
    | Some content =>
        (print ("Executing Cypher file: " ^^ queries_path w) ;;
         let statements := statements_of content in
         with_session driver (fun session =>
           for_each (enumerate statements 1)
             (run_statement session (List.length statements)))) w
    end.

(** [ValueError], raised by a built-in. *)
Inductive py_error : Type := ValueError (msg : string).

(** [len(range(start, stop, step))] for a step other than 0. *)
Definition range_len (start stop step : Z) : nat :=
  if (0 <? step)%Z then
    if (start <? stop)%Z then Z.to_nat ((stop - start - 1) / step + 1) else 0
  else
    if (stop <? start)%Z then Z.to_nat ((start - stop - 1) / (- step) + 1)
    else 0.

(** [range(start, stop, step)] *)
Definition range3 (start stop step : Z) : py_error + list Z :=
  if (step =? 0)%Z then inl (ValueError "range() arg 3 must not be zero")
  else inr (map (fun i => (start + Z.of_nat i * step)%Z)
              (seq 0 (range_len start stop step))).

(** [rows.iloc[a:b]] for [0 <= a] and [0 <= b]: the rows at positions [a]
    to [b - 1], as far as there are any. *)
Definition iloc {A} (rows : list A) (a b : Z) : list A :=
  firstn (Z.to_nat (b - a)) (skipn (Z.to_nat a) rows).

(** [chunk(dataframe, chunk_size)]: the frames the generator yields when
    it is run to its end, or the error its first step raises. *)
Definition chunk {A} (dataframe : list A) (chunk_size : Z)
  : py_error + list (list A) :=
  match range3 0 (Z.of_nat (List.length dataframe)) chunk_size with
  | inl e => inl e
  | inr starts =>
      inr (map (fun start => iloc dataframe start (start + chunk_size)) starts)
  end.

(** ** app/etl.py *)

Definition banner : string := Py.repeat_str "=" 60.

(** [[1/6]] and [[2/6]]: wipe, then the schema script if it is there. *)
Definition reset_graph (neo4j_driver : nat) : M unit :=
  print (nl ^^ "[1/6] Clearing existing Neo4j data...") ;;
  run_cypher neo4j_driver DetachDeleteAll ;;
  print "  ✓ Neo4j database cleared" ;;
  fun w =>
    match queries_cypher w with
    | Some _ =>
        (print (nl ^^ "[2/6] Setting up Neo4j schema...") ;;
         run_cypher_file neo4j_driver) w
    | None =>
        print (nl ^^ "[2/6] No queries.cypher file found, skipping schema setup") w
    end.

Definition migrate_categories (pg_conn neo4j_driver : nat) : M (list category) :=
  print (nl ^^ "[3/6] Migrating Categories...") ;;
  df_categories <- select_all Categories categories pg_conn ;;
  print ("  Found " ^^ Py.str_of_len df_categories ^^ " categories") ;;
  for_each df_categories (fun row =>
    run_cypher neo4j_driver (CreateCategory (cat_id row) (cat_name row)) ;;
    ret tt) ;;
  print ("  ✓ Migrated " ^^ Py.str_of_len df_categories ^^ " categories") ;;
  ret df_categories.

Definition migrate_products (pg_conn neo4j_driver : nat) : M (list product) :=
  print (nl ^^ "[4/6] Migrating Products...") ;;
  df_products <- select_all Products products pg_conn ;;
  print ("  Found " ^^ Py.str_of_len df_products ^^ " products") ;;
  for_each df_products (fun row =>
    run_cypher neo4j_driver
      (CreateProduct (prod_id row) (prod_name row)
         (Py.float (prod_price row)) (prod_category_id row)) ;;
    ret tt) ;;
  print ("  ✓ Migrated " ^^ Py.str_of_len df_products ^^ " products") ;;
  ret df_products.

Definition migrate_customers (pg_conn neo4j_driver : nat) : M (list customer) :=
  print (nl ^^ "[5/6] Migrating Customers...") ;;
  df_customers <- select_all Customers customers pg_conn ;;
  print ("  Found " ^^ Py.str_of_len df_customers ^^ " customers") ;;
  for_each df_customers (fun row =>
    run_cypher neo4j_driver
      (CreateCustomer (cust_id row) (cust_name row)
         (py_str_date (cust_join_date row))) ;;
    ret tt) ;;
  print ("  ✓ Migrated " ^^ Py.str_of_len df_customers ^^ " customers") ;;
  ret df_customers.

(** [row['ts']] is a [Timestamp]: it has [isoformat], so the [str(...)]
    branch of the conversion is never taken. *)
Definition migrate_orders (pg_conn neo4j_driver : nat) : M (list order) :=
  print (nl ^^ "[6/6] Migrating Orders and Order Items...") ;;
  df_orders <- select_all Orders orders pg_conn ;;
  print ("  Found " ^^ Py.str_of_len df_orders ^^ " orders") ;;
  for_each df_orders (fun row =>
    let ts_iso := py_isoformat (ord_ts row) in
    run_cypher neo4j_driver
      (CreateOrder (ord_id row) (ord_customer_id row) ts_iso) ;;
    ret tt) ;;
  print ("  ✓ Created " ^^ Py.str_of_len df_orders ^^ " orders") ;;
  ret df_orders.

Definition migrate_order_items (pg_conn neo4j_driver : nat)
  : M (list order_item) :=
  df_order_items <- select_all OrderItems order_items pg_conn ;;
  print ("  Found " ^^ Py.str_of_len df_order_items ^^ " order items") ;;
  for_each df_order_items (fun row =>
    run_cypher neo4j_driver
      (CreateContains (oi_order_id row) (oi_product_id row) (oi_quantity row)) ;;
    ret tt) ;;
  print ("  ✓ Created " ^^ Py.str_of_len df_order_items
         ^^ " order-product relationships") ;;
  ret df_order_items.

Definition migrate_events (pg_conn neo4j_driver : nat) : M (list shop_event) :=
  print (nl ^^ "[Bonus] Migrating Customer Events...") ;;
  df_events <- select_all Events events pg_conn ;;
  print ("  Found " ^^ Py.str_of_len df_events ^^ " events") ;;
  for_each df_events (fun row =>
    let ts_iso := py_isoformat (ev_ts row) in
    run_cypher neo4j_driver
      (CreateInteracted (ev_customer_id row) (ev_product_id row)
         (ev_event_type row) ts_iso) ;;
    ret tt) ;;
  print ("  ✓ Created " ^^ Py.str_of_len df_events
         ^^ " interaction relationships") ;;
  ret df_events.

(** The closing report: the only place the per-table counts go. *)
Definition print_summary (nc np ncu no noi ne : string) : M unit :=
  print (nl ^^ banner) ;;
  print "ETL Process Completed Successfully!" ;;
  print banner ;;
  print (nl ^^ "Migrated:") ;;
  print ("  • " ^^ nc ^^ " categories") ;;
  print ("  • " ^^ np ^^ " products") ;;
  print ("  • " ^^ ncu ^^ " customers") ;;
  print ("  • " ^^ no ^^ " orders") ;;
  print ("  • " ^^ noi ^^ " order items") ;;
  print ("  • " ^^ ne ^^ " customer events") ;;
  print (nl ^^ "Graph structure created:") ;;
  print "  • Category ← IN_CATEGORY ← Product" ;;
  print "  • Customer → PLACED → Order → CONTAINS → Product" ;;
  print "  • Customer → INTERACTED → Product" ;;
  print "".

(** The body of the [try] block. *)
Definition etl_body (pg_conn neo4j_driver : nat) : M unit :=
  reset_graph neo4j_driver ;;
  df_categories <- migrate_categories pg_conn neo4j_driver ;;
  df_products <- migrate_products pg_conn neo4j_driver ;;
  df_customers <- migrate_customers pg_conn neo4j_driver ;;
  df_orders <- migrate_orders pg_conn neo4j_driver ;;
  df_order_items <- migrate_order_items pg_conn neo4j_driver ;;
  df_events <- migrate_events pg_conn neo4j_driver ;;
  print_summary (Py.str_of_len df_categories) (Py.str_of_len df_products)
    (Py.str_of_len df_customers) (Py.str_of_len df_orders)
    (Py.str_of_len df_order_items) (Py.str_of_len df_events).

(** From "Connecting to databases..." to the end of [etl()]: the run
    proper, once both stores have answered the readiness probes. *)
Definition etl_run : M unit :=
  print (nl ^^ banner) ;;
  print "Starting ETL Process: PostgreSQL → Neo4j" ;;
  print (banner ^^ nl) ;;
  print "Connecting to databases..." ;;
  pg_conn <- psycopg2_connect ;;
  neo4j_driver <- GraphDatabase_driver ;;
  try_finally
    (try_except (etl_body pg_conn neo4j_driver)
       (fun e =>
          print (nl ^^ "✗ ETL process failed: " ^^ str_of_exn e) ;;
          raise e))
    (pg_close pg_conn ;;
     driver_close neo4j_driver ;;
     print ("Database connections closed." ^^ nl)).

(** [etl()]; it returns [None]. *)
Definition etl : M unit :=
  wait_for_postgres 30 2 ;;
  wait_for_neo4j 30 2 ;;
  etl_run.

(** ** app/main.py: POST /neo4j/migrate

    The handler works on the process-wide connection and driver, which
    the application opened at start-up, and keeps one session for the
    whole migration. *)

Definition response := list (string * string).

Definition migrate_to_neo4j (pg_conn neo4j_driver : nat) : M response :=
  try_except
    (with_session neo4j_driver (fun session =>
       (* Clear existing data *)
       session_run session DetachDeleteAll ;;
       (* Migrate customers *)
       customers <- select_all Customers customers pg_conn ;;
       for_each customers (fun customer =>
         session_run session
           (CreateCustomer (cust_id customer) (cust_name customer)
              (py_str_date (cust_join_date customer))) ;;
         ret tt) ;;
       (* Migrate categories *)
       categories <- select_all Categories categories pg_conn ;;
       for_each categories (fun category =>
         session_run session
           (CreateCategory (cat_id category) (cat_name category)) ;;
         ret tt) ;;
       (* Migrate products *)
       products <- select_all Products products pg_conn ;;
       for_each products (fun product =>
         session_run session
           (CreateProduct (prod_id product) (prod_name product)
              (Py.float (prod_price product)) (prod_category_id product)) ;;
         ret tt) ;;
       (* Migrate orders and relationships *)
       orders <- select_all Orders orders pg_conn ;;
       for_each orders (fun order =>
         session_run session
           (CreateOrder (ord_id order) (ord_customer_id order)
              (py_str_datetime (ord_ts order))) ;;
         ret tt) ;;
       (* Migrate order items *)
       items <- select_all OrderItems order_items pg_conn ;;
       for_each items (fun item =>
         session_run session
           (CreateContains (oi_order_id item) (oi_product_id item)
              (oi_quantity item)) ;;
         ret tt) ;;
       (* Migrate events *)
       events <- select_all Events events pg_conn ;;
       for_each events (fun event =>
         session_run session
           (CreateInteracted (ev_customer_id event) (ev_product_id event)
              (ev_event_type event) (py_str_datetime (ev_ts event))) ;;
         ret tt)) ;;
     ret [("status", "success"); ("message", "Data migrated to Neo4j")])
    (fun e => raise (HTTPException 500 (str_of_exn e))).

(** * Vocabulary of the properties *)

(** ** Reading a trace *)

(** The statements handed to [session.run], in order. *)
Definition executed (t : list event) : list statement :=
  flat_map (fun e => match e with ERun _ q _ => [q] | _ => [] end) t.

(** The sessions entered, in order. *)
Definition sessions (t : list event) : list nat :=
  flat_map (fun e => match e with ESession _ s => [s] | _ => [] end) t.

(** The session each statement ran on. *)
Definition run_sessions (t : list event) : list nat :=
  flat_map (fun e => match e with ERun s _ _ => [s] | _ => [] end) t.

(** What went to standard output. *)
Definition printed (t : list event) : list string :=
  flat_map (fun e => match e with EPrint s => [s] | _ => [] end) t.

(** No call among the next [n] is planned to fail. *)
Definition no_fault (n : nat) (fs : list (option exn)) : Prop :=
  Forall (fun f => f = None) (firstn n fs).

(** ** The schema script *)

(** The statement list read the way the text describes it: split, trim
    every segment, drop the empty ones. *)
Definition trimmed_segments (content : Py.text) : list Py.text :=
  filter Py.truthy (map Py.strip (Py.split Py.semicolon content)).

(** Events of the statements that went through. *)
Definition executed_line (i : Z) (total : nat) : string :=
  "  ✓ Executed statement " ^^ Py.str_of_int i ^^ "/"
  ^^ Py.str_of_int (Z.of_nat total).

Definition error_line (i : Z) (e : exn) : string :=
  "  ✗ Error in statement " ^^ Py.str_of_int i ^^ ": " ^^ str_of_exn e.

Fixpoint ok_events (ses total : nat) (i : Z) (stmts : list Py.text) : list event :=
  match stmts with
  | [] => []
  | s :: r =>
      ERun ses (SchemaStatement s) true :: EPrint (executed_line i total)
      :: ok_events ses total (i + 1) r
  end.

Definition executing_line (path : string) : string :=
  "Executing Cypher file: " ^^ path.

Definition script_world : world :=
  mkWorld (mkDatabase [] [] [] [] [] []) empty_graph "queries.cypher"
    (Some (Py.text_of_string "CREATE INDEX a;  ; CREATE INDEX b ;"))
    [] 0.

Definition failing_script_A : world :=
  mkWorld (mkDatabase [] [] [] [] [] []) empty_graph "queries.cypher"
    (Some (Py.text_of_string "X"))
    [Some (StoreError "connection lost")] 0.

Definition failing_script_B : world :=
  mkWorld (mkDatabase [] [] [] [] [] []) empty_graph "queries.cypher"
    (Some (Py.text_of_string "A;Y"))
    [None; Some (StoreError "connection lost")] 0.

(** ** The readiness gate *)

Definition pg_retry_line (max_retries : Z) (delay : N) (attempt : Z) : string :=
  "  Attempt " ^^ Py.str_of_int (attempt + 1) ^^ "/"
  ^^ Py.str_of_int max_retries
  ^^ ": PostgreSQL not ready yet, retrying in "
  ^^ Py.str_of_int (Z.of_N delay) ^^ "s...".

Definition neo4j_retry_line (max_retries : Z) (delay : N) (attempt : Z) : string :=
  "  Attempt " ^^ Py.str_of_int (attempt + 1) ^^ "/"
  ^^ Py.str_of_int max_retries
  ^^ ": Neo4j not ready yet, retrying in "
  ^^ Py.str_of_int (Z.of_N delay) ^^ "s...".

(** Attempts [i], [i+1], ..., [i+k-1] of the relational probe, all failed
    and followed by a pause. *)
Fixpoint pg_retries (max_retries : Z) (delay : N) (i : nat) (k : nat)
  : list event :=
  match k with
  | O => []
  | S k' =>
      [EPgConnectFailed;
       EPrint (pg_retry_line max_retries delay (Z.of_nat i));
       ESleep delay]
      ++ pg_retries max_retries delay (S i) k'
  end.

(** The same for the graph probe; every attempt takes two fresh handles,
    from [h] on. *)
Fixpoint neo4j_retries (max_retries : Z) (delay : N) (h : nat) (i : nat)
    (k : nat) : list event :=
  match k with
  | O => []
  | S k' =>
      [EDriver h; ESession h (S h); ERun (S h) Return1 false;
       ESessionClose (S h);
       EPrint (neo4j_retry_line max_retries delay (Z.of_nat i));
       ESleep delay]
      ++ neo4j_retries max_retries delay (S (S h)) (S i) k'
  end.

Definition operational (msgs : list string) : list (option exn) :=
  map (fun m => Some (OperationalError m)) msgs.

Definition pg_timeout_message (max_retries : Z) : string :=
  "PostgreSQL not ready after " ^^ Py.str_of_int max_retries ^^ " attempts".

Definition neo4j_timeout_message (max_retries : Z) : string :=
  "Neo4j not ready after " ^^ Py.str_of_int max_retries ^^ " attempts".

(** Outcome of every connectivity probe made, in order. *)
Definition probe_results (t : list event) : list bool :=
  flat_map (fun e => match e with
                     | EPgConnect _ => [true]
                     | EPgConnectFailed => [false]
                     | ERun _ Return1 ok => [ok]
                     | _ => []
                     end) t.

Definition raised {A} (r : result A) : Prop := exists e, r = Raise e.

(** Shape of the probe outcomes of a gate loop: it returns on the first
    success and raises only after a failure. *)
Definition gate_outcome (n : nat) (r : result unit) (t : list event) : Prop :=
  match r with
  | Ok _ => n = 0 \/ exists k, probe_results t = repeat false k ++ [true]
  | Raise _ => 0 < n /\ Forall (fun b => b = false) (probe_results t)
  end.

Definition unreachable_world : world :=
  mkWorld (mkDatabase [] [] [] [] [] []) empty_graph "queries.cypher" None
    [Some (OperationalError "connection refused");
     Some (OperationalError "connection refused");
     Some (OperationalError "connection refused")] 0.

(** ** Steps, plans and tidy traces *)

(** A call that reaches a store: a table read or a graph statement. *)
Inductive step : Type :=
| SRead (t : table)
| SWrite (q : statement).

Definition step_of (e : event) : list (step * bool) :=
  match e with
  | ESelect _ t ok => [(SRead t, ok)]
  | ERun _ q ok => [(SWrite q, ok)]
  | _ => []
  end.

(** The steps of a trace, each with its outcome. *)
Definition steps (t : list event) : list (step * bool) := flat_map step_of t.

Definition apply_step (g : graph) (s : step) : graph :=
  match s with
  | SRead _ => g
  | SWrite q => match exec q g with inr (g', _) => g' | inl _ => g end
  end.

(** The graph after a list of steps that all went through. *)
Definition apply_steps (plan : list step) (g : graph) : graph :=
  fold_left apply_step plan g.

Definition done (plan : list step) : list (step * bool) :=
  map (fun s => (s, true)) plan.

(** Events that open or close a connection or a driver. *)
Definition conn_event (e : event) : bool :=
  match e with
  | EPgConnect _ | EPgConnectFailed | EPgClose _ | EDriver _ | EDriverClose _ =>
      true
  | _ => false
  end.

(** Sessions still open after a trace, innermost first, starting from the
    open sessions [st]; [None] when a session is closed that is not the
    innermost open one. *)
Fixpoint sessions_after (t : list event) (st : list nat) : option (list nat) :=
  match t with
  | [] => Some st
  | ESession _ s :: r => sessions_after r (s :: st)
  | ESessionClose s :: r =>
      match st with
      | top :: st' => if Nat.eqb top s then sessions_after r st' else None
      | [] => None
      end
  | _ :: r => sessions_after r st
  end.

(** A trace that leaves connections and drivers alone and closes every
    session it opens. *)
Definition tidy (t : list event) : Prop :=
  forallb (fun e => negb (conn_event e)) t = true
  /\ forall st, sessions_after t st = Some st.

(** ** The plan of a run over a given source *)

Section Plans.

(** The relational source, the schema script and its path: nothing in
    the program changes them. *)
Variable db : database.
Variable script : option Py.text.
Variable path : string.

Definition at_source (w : world) : Prop :=
  pg w = db /\ queries_cypher w = script /\ queries_path w = path.

(** How a computation ends with respect to a plan: it returns a value in
    [V], having made exactly the steps of [plan], printed [out] and taken
    the graph from [g] through [plan]; or it raises at a failing step of
    [plan], the graph being what the steps before it made of [g]. *)
Definition outcome {A} (plan : list step) (out : list string) (V : A -> Prop)
    (g : graph) (r : result A) (g' : graph) (t : list event) : Prop :=
  match r with
  | Ok a =>
      V a /\ steps t = done plan /\ printed t = out
      /\ g' = apply_steps plan g
  | Raise _ =>
      exists k s,
        nth_error plan k = Some s
        /\ steps t = done (firstn k plan) ++ [(s, false)]
        /\ g' = apply_steps (firstn k plan) g
  end.

(** [follows plan out V m]: run from any world over this source, [m]
    keeps the source, leaves a tidy trace and ends as [outcome] says. *)
Definition follows {A} (plan : list step) (out : list string) (V : A -> Prop)
    (m : M A) : Prop :=
  forall w, at_source w ->
    let '(r, w', t) := m w in
    at_source w' /\ tidy t /\ outcome plan out V (neo w) r (neo w') t.

(** An [except] clause that may print and then raises again. *)
Definition reraising {A} (h : exn -> M A) : Prop :=
  forall e w, exists e' t',
    h e w = (Raise e', w, t') /\ steps t' = [] /\ tidy t'.

Definition schema_statements : list Py.text :=
  match script with
  | Some content => statements_of content
  | None => []
  end.

Definition schema_plan : list step :=
  map (fun s => SWrite (SchemaStatement s)) schema_statements.

Fixpoint executed_lines (total : nat) (i : Z) (stmts : list Py.text)
  : list string :=
  match stmts with
  | [] => []
  | _ :: r => executed_line i total :: executed_lines total (i + 1) r
  end.

Definition warning_line : string :=
  "Warning: Cypher file not found at " ^^ path.

Definition schema_output : list string :=
  match script with
  | Some content =>
      executing_line path
      :: executed_lines (List.length (statements_of content)) 1
           (statements_of content)
  | None => [warning_line]
  end.

Definition category_statement (row : category) : statement :=
  CreateCategory (cat_id row) (cat_name row).

Definition product_statement (row : product) : statement :=
  CreateProduct (prod_id row) (prod_name row) (Py.float (prod_price row))
    (prod_category_id row).

Definition customer_statement (row : customer) : statement :=
  CreateCustomer (cust_id row) (cust_name row) (py_str_date (cust_join_date row)).

Definition order_statement (row : order) : statement :=
  CreateOrder (ord_id row) (ord_customer_id row) (py_isoformat (ord_ts row)).

Definition order_item_statement (row : order_item) : statement :=
  CreateContains (oi_order_id row) (oi_product_id row) (oi_quantity row).

Definition event_statement (row : shop_event) : statement :=
  CreateInteracted (ev_customer_id row) (ev_product_id row) (ev_event_type row)
    (py_isoformat (ev_ts row)).

(** A stage: read the table, then one statement per row. *)
Definition stage_plan {A} (t : table) (stmt : A -> statement) (rows : list A)
  : list step :=
  SRead t :: map (fun row => SWrite (stmt row)) rows.

Definition reset_plan : list step := SWrite DetachDeleteAll :: schema_plan.

Definition schema_stage_output : list string :=
  match script with
  | Some _ => (nl ^^ "[2/6] Setting up Neo4j schema...") :: schema_output
  | None => [nl ^^ "[2/6] No queries.cypher file found, skipping schema setup"]
  end.

Definition reset_output : list string :=
  [nl ^^ "[1/6] Clearing existing Neo4j data...";
   "  ✓ Neo4j database cleared"]
  ++ schema_stage_output.

Definition categories_output : list string :=
  [nl ^^ "[3/6] Migrating Categories...";
   "  Found " ^^ Py.str_of_len (categories db) ^^ " categories";
   "  ✓ Migrated " ^^ Py.str_of_len (categories db) ^^ " categories"].

Definition products_output : list string :=
  [nl ^^ "[4/6] Migrating Products...";
   "  Found " ^^ Py.str_of_len (products db) ^^ " products";
   "  ✓ Migrated " ^^ Py.str_of_len (products db) ^^ " products"].

Definition customers_output : list string :=
  [nl ^^ "[5/6] Migrating Customers...";
   "  Found " ^^ Py.str_of_len (customers db) ^^ " customers";
   "  ✓ Migrated " ^^ Py.str_of_len (customers db) ^^ " customers"].

Definition orders_output : list string :=
  [nl ^^ "[6/6] Migrating Orders and Order Items...";
   "  Found " ^^ Py.str_of_len (orders db) ^^ " orders";
   "  ✓ Created " ^^ Py.str_of_len (orders db) ^^ " orders"].

Definition order_items_output : list string :=
  ["  Found " ^^ Py.str_of_len (order_items db) ^^ " order items";
   "  ✓ Created " ^^ Py.str_of_len (order_items db)
   ^^ " order-product relationships"].

Definition events_output : list string :=
  [nl ^^ "[Bonus] Migrating Customer Events...";
   "  Found " ^^ Py.str_of_len (events db) ^^ " events";
   "  ✓ Created " ^^ Py.str_of_len (events db) ^^ " interaction relationships"].

(** The six stages, in the order etl() runs them. *)
Definition load_plan : list step :=
  stage_plan Categories category_statement (categories db)
  ++ stage_plan Products product_statement (products db)
  ++ stage_plan Customers customer_statement (customers db)
  ++ stage_plan Orders order_statement (orders db)
  ++ stage_plan OrderItems order_item_statement (order_items db)
  ++ stage_plan Events event_statement (events db).

Definition etl_plan : list step := reset_plan ++ load_plan.

(** The lines of the closing report that carry the counts. *)
Definition count_lines : list string :=
  ["  • " ^^ Py.str_of_len (categories db) ^^ " categories";
   "  • " ^^ Py.str_of_len (products db) ^^ " products";
   "  • " ^^ Py.str_of_len (customers db) ^^ " customers";
   "  • " ^^ Py.str_of_len (orders db) ^^ " orders";
   "  • " ^^ Py.str_of_len (order_items db) ^^ " order items";
   "  • " ^^ Py.str_of_len (events db) ^^ " customer events"].

Definition summary_output : list string :=
  [nl ^^ banner; "ETL Process Completed Successfully!"; banner;
   nl ^^ "Migrated:"]
  ++ count_lines
  ++ [nl ^^ "Graph structure created:";
      "  • Category ← IN_CATEGORY ← Product";
      "  • Customer → PLACED → Order → CONTAINS → Product";
      "  • Customer → INTERACTED → Product";
      ""].

Definition etl_output : list string :=
  reset_output ++ categories_output ++ products_output ++ customers_output
  ++ orders_output ++ order_items_output ++ events_output ++ summary_output.

Definition start_output : list string :=
  [nl ^^ banner; "Starting ETL Process: PostgreSQL → Neo4j"; banner ^^ nl;
   "Connecting to databases..."].

Definition failed_line (e : exn) : string :=
  nl ^^ "✗ ETL process failed: " ^^ str_of_exn e.

Definition closing_line : string := "Database connections closed." ^^ nl.

(** The run got its connection [c] and its driver: its trace is the
    start-up lines, the two openings, a tidy body that ends as the plan
    says, and the two closings. *)
Definition run_ended (g : graph) (c : nat) (r : result unit) (g' : graph)
    (t : list event) : Prop :=
  exists tb,
    t = map EPrint start_output
        ++ [EPgConnect c; EDriver (S c)]
        ++ tb
        ++ [EPgClose c; EDriverClose (S c); EPrint closing_line]
    /\ tidy tb
    /\ outcome etl_plan etl_output (fun _ => True) g r g' tb.

(** The run could not connect to the relational store: nothing was
    opened, nothing was sent to the graph. *)
Definition run_refused (g : graph) (r : result unit) (g' : graph)
    (t : list event) : Prop :=
  raised r /\ g' = g /\ t = map EPrint start_output ++ [EPgConnectFailed].

End Plans.

(** ** The plan of POST /neo4j/migrate *)

Definition order_statement_str (row : order) : statement :=
  CreateOrder (ord_id row) (ord_customer_id row) (py_str_datetime (ord_ts row)).

Definition event_statement_str (row : shop_event) : statement :=
  CreateInteracted (ev_customer_id row) (ev_product_id row) (ev_event_type row)
    (py_str_datetime (ev_ts row)).

(** Customers come first here, categories second. *)
Definition migrate_plan (db : database) : list step :=
  SWrite DetachDeleteAll
  :: stage_plan Customers customer_statement (customers db)
  ++ stage_plan Categories category_statement (categories db)
  ++ stage_plan Products product_statement (products db)
  ++ stage_plan Orders order_statement_str (orders db)
  ++ stage_plan OrderItems order_item_statement (order_items db)
  ++ stage_plan Events event_statement_str (events db).

Definition success_response : response :=
  [("status", "success"); ("message", "Data migrated to Neo4j")].

(** ** etl() as a whole *)

(** Events a probe may leave: no table read, no statement but RETURN 1. *)
Definition gate_event (e : event) : Prop :=
  match e with
  | ESelect _ _ _ => False
  | ERun _ q _ => q = Return1
  | _ => True
  end.

Definition unchanged (w w' : world) : Prop :=
  pg w' = pg w /\ neo w' = neo w
  /\ queries_cypher w' = queries_cypher w /\ queries_path w' = queries_path w.

(** The relational source and the script are as they were. *)
Definition unchanged_source (w w' : world) : Prop :=
  pg w' = pg w /\ queries_cypher w' = queries_cypher w
  /\ queries_path w' = queries_path w.

Definition probing {A} (m : M A) : Prop :=
  forall w, let '(_, w', t) := m w in unchanged w w' /\ Forall gate_event t.

(** How a call of etl() ends: after the gate's events [tg], either a gate
    gave up, or the run was refused its connection, or it ran. *)
Definition etl_ended (w : world) (r : result unit) (w' : world)
    (t : list event) : Prop :=
  unchanged_source w w'
  /\ exists tg tr,
       t = tg ++ tr /\ Forall gate_event tg
       /\ ((raised r /\ tr = [] /\ neo w' = neo w)
           \/ run_refused (neo w) r (neo w') tr
           \/ exists c,
                run_ended (pg w) (queries_cypher w) (queries_path w)
                  (neo w) c r (neo w') tr).

(** ** Stages *)

(** The entity set a statement belongs to. *)
Definition stage_of_statement (q : statement) : list table :=
  match q with
  | CreateCategory _ _ => [Categories]
  | CreateProduct _ _ _ _ => [Products]
  | CreateCustomer _ _ _ => [Customers]
  | CreateOrder _ _ _ => [Orders]
  | CreateContains _ _ _ => [OrderItems]
  | CreateInteracted _ _ _ _ => [Events]
  | _ => []
  end.

Definition stage_of_step (s : step) : list table :=
  match s with
  | SRead t => [t]
  | SWrite q => stage_of_statement q
  end.

(** The entity set each store call of a trace works on, in order: reads
    and row statements, whether they went through or not. *)
Definition stages (t : list event) : list table :=
  flat_map (fun sb => stage_of_step (fst sb)) (steps t).

(** A stage read and carried out in full: the read, then its rows. *)
Definition stage_block {A} (t : table) (rows : list A) : list table :=
  repeat t (S (List.length rows)).

Definition etl_stages (db : database) : list table :=
  stage_block Categories (categories db)
  ++ stage_block Products (products db)
  ++ stage_block Customers (customers db)
  ++ stage_block Orders (orders db)
  ++ stage_block OrderItems (order_items db)
  ++ stage_block Events (events db).

Definition migrate_stages (db : database) : list table :=
  stage_block Customers (customers db)
  ++ stage_block Categories (categories db)
  ++ stage_block Products (products db)
  ++ stage_block Orders (orders db)
  ++ stage_block OrderItems (order_items db)
  ++ stage_block Events (events db).

Definition plan_stages (plan : list step) : list table :=
  flat_map stage_of_step plan.

Definition small_shop : database :=
  mkDatabase [mkCategory 1 "Books"] [] [mkCustomer 7 "Ada" (mkDate 2024 1 15)]
    [] [] [].

Definition small_world : world :=
  mkWorld small_shop empty_graph "queries.cypher" None [] 0.

Definition empty_shop_world : world :=
  mkWorld (mkDatabase [] [] [] [] [] []) empty_graph "queries.cypher" None [] 0.

(** ** Wipe and projection *)

(** The graph a source projects to: its rows replayed, stage by stage, on
    an empty graph. *)
Definition projection (db : database) : graph :=
  apply_steps (load_plan db) empty_graph.

(** What POST /neo4j/migrate loads after its wipe. *)
Definition migrate_load_plan (db : database) : list step :=
  stage_plan Customers customer_statement (customers db)
  ++ stage_plan Categories category_statement (categories db)
  ++ stage_plan Products product_statement (products db)
  ++ stage_plan Orders order_statement_str (orders db)
  ++ stage_plan OrderItems order_item_statement (order_items db)
  ++ stage_plan Events event_statement_str (events db).

Definition migrate_projection (db : database) : graph :=
  apply_steps (migrate_load_plan db) empty_graph.

(** The statements of a trace other than the probe. *)
Definition sent (t : list event) : list statement :=
  filter (fun q => match q with Return1 => false | _ => true end) (executed t).

Definition writes (ss : list (step * bool)) : list statement :=
  flat_map (fun sb => match fst sb with SWrite q => [q] | SRead _ => [] end) ss.

(** A graph holding one node that no run creates. *)
Definition sentinel_graph : graph := mkGraph [mkNode "Sentinel" []] [].

(** The wipe is the fourth call to a store (two probes and the run's own
    connection come first); here it fails. *)
Definition failing_wipe_world : world :=
  mkWorld small_shop sentinel_graph "queries.cypher" None
    [None; None; None; Some (StoreError "out of memory")] 0.

Definition sentinel_world : world :=
  mkWorld small_shop sentinel_graph "queries.cypher" None [] 0.

(** ** Dangling references *)

(** An order_items row one of whose keys matches no node. *)
Definition dangling (row : order_item) (g : graph) : Prop :=
  match_nodes "Order" (oi_order_id row) g = []
  \/ match_nodes "Product" (oi_product_id row) g = [].

(** An order whose second item refers to product 99, which does not
    exist. *)
Definition dangling_shop : database :=
  mkDatabase [mkCategory 1 "Books"]
    [mkProduct 10 "Atlas" (Py.mkDecimal false 1999 (-2)) 1]
    [mkCustomer 7 "Ada" (mkDate 2024 1 15)]
    [mkOrder 100 7 (mkTs (mkDate 2024 1 15) 10 30 0 0)]
    [mkOrderItem 100 10 3; mkOrderItem 100 99 1]
    [].

(** The same shop with product 99 in stock. *)
Definition complete_shop : database :=
  mkDatabase [mkCategory 1 "Books"]
    [mkProduct 10 "Atlas" (Py.mkDecimal false 1999 (-2)) 1;
     mkProduct 99 "Globe" (Py.mkDecimal false 1999 (-2)) 1]
    [mkCustomer 7 "Ada" (mkDate 2024 1 15)]
    [mkOrder 100 7 (mkTs (mkDate 2024 1 15) 10 30 0 0)]
    [mkOrderItem 100 10 3; mkOrderItem 100 99 1]
    [].

Definition dangling_world : world :=
  mkWorld dangling_shop empty_graph "queries.cypher" None [] 0.

Definition complete_world : world :=
  mkWorld complete_shop empty_graph "queries.cypher" None [] 0.

(** The relationships of one type. *)
Definition rels_of_type (rt : string) (g : graph) : list rel :=
  filter (fun r => String.eqb (rtype r) rt) (rels g).

(** ** Field conversion *)

Definition date_chars (d : date) : list ascii :=
  [digit_char (year d / 100 / 10); digit_char ((year d / 100) mod 10);
   digit_char (year d mod 100 / 10); digit_char ((year d mod 100) mod 10);
   "-"%char;
   digit_char (month d / 10); digit_char (month d mod 10);
   "-"%char;
   digit_char (day d / 10); digit_char (day d mod 10)].

Definition time_chars (t : timestamp) : list ascii :=
  [digit_char (hour t / 10); digit_char (hour t mod 10); ":"%char;
   digit_char (minute t / 10); digit_char (minute t mod 10); ":"%char;
   digit_char (second t / 10); digit_char (second t mod 10)].

Definition micro_chars (n : N) : list ascii :=
  [digit_char (n / 10000 / 10); digit_char ((n / 10000) mod 10);
   digit_char ((n mod 10000) / 100 / 10);
   digit_char (((n mod 10000) / 100) mod 10);
   digit_char ((n mod 10000) mod 100 / 10);
   digit_char (((n mod 10000) mod 100) mod 10)].

(** The nodes a stage creates for a row. *)
Definition product_node (row : product) : node :=
  mkNode "Product"
    [("id", VInt (prod_id row)); ("name", VStr (prod_name row));
     ("price", VFloat (Py.float (prod_price row)))].

Definition customer_node (row : customer) : node :=
  mkNode "Customer"
    [("id", VInt (cust_id row)); ("name", VStr (cust_name row));
     ("join_date", VDate (cust_join_date row))].

Definition order_node (row : order) : node :=
  mkNode "Order"
    [("id", VInt (ord_id row));
     ("timestamp", VDateTime (instant_of (ord_ts row)))].

Definition interaction_props (row : shop_event) : props :=
  [("event_type", VStr (ev_event_type row));
   ("timestamp", VDateTime (instant_of (ev_ts row)))].

(** What a stage stores for a row, on the graph as it stands: the row's
    node, tied to every node its reference matches; for an event, one
    relationship per pair of matches. *)
Definition store_product (g : graph) (row : product) : graph :=
  create_linked (product_node row) "IN_CATEGORY" true
    (match_nodes "Category" (prod_category_id row) g) g.

Definition store_customer (g : graph) (row : customer) : graph :=
  add_node (customer_node row) g.

Definition store_order (g : graph) (row : order) : graph :=
  create_linked (order_node row) "PLACED" false
    (match_nodes "Customer" (ord_customer_id row) g) g.

Definition store_event (g : graph) (row : shop_event) : graph :=
  create_rels "INTERACTED" (interaction_props row)
    (match_nodes "Customer" (ev_customer_id row) g)
    (match_nodes "Product" (ev_product_id row) g) g.

(** A shop with one row per table that carries a converted field, and a
    graph that already holds the nodes these rows refer to. *)
Definition conversion_shop : database :=
  mkDatabase [mkCategory 1 "Books"]
    [mkProduct 10 "Atlas" (Py.mkDecimal false 1999 (-2)) 1]
    [mkCustomer 7 "Ada" (mkDate 2024 1 15)]
    [mkOrder 100 7 (mkTs (mkDate 2024 1 15) 10 30 0 0)]
    []
    [mkShopEvent 7 10 "view" (mkTs (mkDate 2024 1 15) 10 31 5 250000)].

Definition conversion_graph : graph :=
  mkGraph
    [mkNode "Category" [("id", VInt 1); ("name", VStr "Books")];
     mkNode "Customer" [("id", VInt 7); ("name", VStr "Ada")];
     mkNode "Product" [("id", VInt 10); ("name", VStr "Atlas")]]
    [].

Definition conversion_world : world :=
  mkWorld conversion_shop conversion_graph "queries.cypher" None [] 0.

(** ** Further vocabulary: schema statements *)

(** [sep.join(segs)] *)
Fixpoint join (sep : N) (segs : list Py.text) : Py.text :=
  match segs with
  | [] => []
  | [s] => s
  | s :: r => s ++ sep :: join sep r
  end.

(** A statement as the script parser hands it on: not empty, free of
    semicolons, with no white space around it. *)
Definition clean (stmt : Py.text) : Prop :=
  stmt <> [] /\ ~ In Py.semicolon stmt /\ Py.strip stmt = stmt.

(** ** Further vocabulary: the readiness gate *)

(** The trace of a gate loop with [n] attempts left: attempts that fail and
    are followed by a pause, then one that succeeds or a last one that
    fails. *)
Inductive gate_trace (retry ok fail : list event -> Prop)
  : nat -> result unit -> list event -> Prop :=
| gate_no_attempt : gate_trace retry ok fail 0 (Ok tt) []
| gate_ready n t : ok t -> gate_trace retry ok fail (S n) (Ok tt) t
| gate_gave_up n t e : fail t -> gate_trace retry ok fail (S n) (Raise e) t
| gate_again n t0 r t :
    retry t0 ->
    gate_trace retry ok fail (S n) r t ->
    gate_trace retry ok fail (S (S n)) r (t0 ++ t).

Definition pg_retry_events (max_retries : Z) (delay : N) (t : list event)
  : Prop :=
  exists a,
    t = [EPgConnectFailed; EPrint (pg_retry_line max_retries delay a);
         ESleep delay].

Definition pg_ready_events (t : list event) : Prop :=
  exists h, t = [EPgConnect h; EPgClose h; EPrint "✓ PostgreSQL is ready!"].

Definition pg_failed_events (t : list event) : Prop := t = [EPgConnectFailed].

Definition neo4j_retry_events (max_retries : Z) (delay : N) (t : list event)
  : Prop :=
  exists h a,
    t = [EDriver h; ESession h (S h); ERun (S h) Return1 false;
         ESessionClose (S h);
         EPrint (neo4j_retry_line max_retries delay a); ESleep delay].

Definition neo4j_ready_events (t : list event) : Prop :=
  exists h,
    t = [EDriver h; ESession h (S h); ERun (S h) Return1 true;
         ESessionClose (S h); EDriverClose h; EPrint "✓ Neo4j is ready!"].

Definition neo4j_failed_events (t : list event) : Prop :=
  exists h,
    t = [EDriver h; ESession h (S h); ERun (S h) Return1 false;
         ESessionClose (S h)].

(** The probes and the pauses of a trace, in the order they were made. *)
Inductive beat : Type :=
| Probe (ok : bool)
| Pause (secs : N).

Definition beats (t : list event) : list beat :=
  flat_map (fun e => match e with
                     | EPgConnect _ => [Probe true]
                     | EPgConnectFailed => [Probe false]
                     | ERun _ Return1 ok => [Probe ok]
                     | ESleep secs => [Pause secs]
                     | _ => []
                     end) t.

(** [k] failed probes, each followed at once by a pause of [delay]
    seconds. *)
Fixpoint retried (delay : N) (k : nat) : list beat :=
  match k with
  | O => []
  | S k' => Probe false :: Pause delay :: retried delay k'
  end.

Definition drivers_opened (t : list event) : list nat :=
  flat_map (fun e => match e with EDriver h => [h] | _ => [] end) t.

Definition drivers_closed (t : list event) : list nat :=
  flat_map (fun e => match e with EDriverClose h => [h] | _ => [] end) t.

(** The number of probes that failed. *)
Definition failed_probes (t : list event) : nat :=
  List.length (filter negb (probe_results t)).

(** ** Further vocabulary: the shape of the graph *)

Definition label_at (g : graph) (i : nat) : option string :=
  option_map nlabel (nth_error (nodes g) i).

(** The labels a relationship type joins, start node first. *)
Definition endpoint_labels (rt : string) : option (string * string) :=
  if String.eqb rt "IN_CATEGORY" then Some ("Product", "Category")
  else if String.eqb rt "PLACED" then Some ("Customer", "Order")
  else if String.eqb rt "CONTAINS" then Some ("Order", "Product")
  else if String.eqb rt "INTERACTED" then Some ("Customer", "Product")
  else None.

(** A relationship of one of the four types whose two ends are nodes of
    the graph, with the labels its type joins. *)
Definition linked (g : graph) (r : rel) : Prop :=
  exists a b,
    endpoint_labels (rtype r) = Some (a, b)
    /\ label_at g (rsrc r) = Some a
    /\ label_at g (rdst r) = Some b.

Definition well_linked (g : graph) : Prop := forall r, In r (rels g) -> linked g r.

(** ** Further vocabulary: what a trace did to the graph *)

(** The graph after the statements of a trace: a statement that went
    through changed the graph as [exec] says, one that failed left it as
    it was.  [None] when the trace marks as gone through a statement the
    store refuses. *)
Fixpoint replay (t : list event) (g : graph) : option graph :=
  match t with
  | [] => Some g
  | ERun _ q true :: r =>
      match exec q g with
      | inr (g', _) => replay r g'
      | inl _ => None
      end
  | _ :: r => replay r g
  end.

(** A computation whose trace accounts for what it did to the graph. *)
Definition honest {A} (m : M A) : Prop :=
  forall w, let '(_, w', t) := m w in replay t (neo w) = Some (neo w').

(** Every statement of the plan is accepted by the store, each on the
    graph the statements before it left. *)
Fixpoint passes (plan : list step) (g : graph) : Prop :=
  match plan with
  | [] => True
  | SRead _ :: r => passes r g
  | SWrite q :: r =>
      exists g' rows, exec q g = inr (g', rows) /\ passes r g'
  end.

(** A graph of customers, categories and products: no other node, no
    relationship but IN_CATEGORY. *)
Definition master_data (g : graph) : Prop :=
  (forall n, In n (nodes g) -> In (nlabel n) ["Customer"; "Category"; "Product"])
  /\ (forall r, In r (rels g) -> rtype r = "IN_CATEGORY").

(** A source with an order of a customer the source does not know: the
    only kind of order POST /neo4j/migrate gets past. *)
Definition orphan_order_world : world :=
  mkWorld
    (mkDatabase [mkCategory 1 "Books"]
       [mkProduct 10 "Novel" (Py.mkDecimal false 1999 (-2)) 1]
       [mkCustomer 7 "Ada" (mkDate 2024 1 15)]
       [mkOrder 100 9 (mkTs (mkDate 2024 2 1) 10 30 0 0)]
       [mkOrderItem 100 10 2] [])
    empty_graph "queries.cypher" None [] 0.

(** Steps that load customers, categories and products. *)
Definition master_step (s : step) : Prop :=
  match s with
  | SRead _ => True
  | SWrite (CreateCustomer _ _ _) => True
  | SWrite (CreateCategory _ _) => True
  | SWrite (CreateProduct _ _ _ _) => True
  | SWrite _ => False
  end.

(** A customer id of the customers table. *)
Definition known_customer (db : database) (k : Z) : Prop :=
  exists c, In c (customers db) /\ cust_id c = k.

(** A product id of the products table whose row names a category of the
    categories table: the products that become nodes. *)
Definition known_product (db : database) (k : Z) : Prop :=
  exists p cat,
    In p (products db) /\ In cat (categories db)
    /\ prod_id p = k /\ cat_id cat = prod_category_id p.

(** ** Further vocabulary: runs over stores that answer *)

(** A source whose dates and timestamps are ones Python can hold. *)
Definition valid_source (db : database) : Prop :=
  Forall (fun c => valid_date (cust_join_date c) = true) (customers db)
  /\ Forall (fun o => valid_timestamp (ord_ts o) = true) (orders db)
  /\ Forall (fun e => valid_timestamp (ev_ts e) = true) (events db).

(** A statement the store accepts on every graph. *)
Definition total_statement (q : statement) : Prop :=
  forall g, exists g' rows, exec q g = inr (g', rows).

(** A computation that goes through over the source [db] when no call to
    a store fails for a reason of the store's own. *)
Definition calm {A} (db : database) (m : M A) : Prop :=
  forall w, faults w = [] -> pg w = db ->
    let '(r, w', _) := m w in
    (exists a, r = Ok a) /\ faults w' = [] /\ pg w' = db.

(** ** Further vocabulary: the two verdicts of the log *)

Definition success_line : string := "ETL Process Completed Successfully!".

(** A line that opens as the one the [except] clause of etl() prints. *)
Definition is_failure_line (l : string) : bool :=
  String.prefix (nl ^^ "✗ ETL process failed: ") l.

Definition headline (l : string) : bool :=
  (String.eqb l success_line || is_failure_line l)%bool.

(** A computation that prints neither verdict. *)
Definition silent {A} (m : M A) : Prop :=
  forall w, let '(_, _, t) := m w in
            Forall (fun l => headline l = false) (printed t).

(** A computation whose verdicts, if it prints any, tell how it ended. *)
Definition truthful {A} (m : M A) : Prop :=
  forall w, let '(r, _, t) := m w in
    (In success_line (printed t) -> exists a, r = Ok a)
    /\ (forall l, In l (printed t) -> is_failure_line l = true ->
                  exists e, r = Raise e /\ l = failed_line e).

(** * Properties *)

(** ** Reading a trace *)

Lemma executed_app t1 t2 : executed (t1 ++ t2) = executed t1 ++ executed t2.
Proof. apply flat_map_app. Qed.

Lemma sessions_app t1 t2 : sessions (t1 ++ t2) = sessions t1 ++ sessions t2.
Proof. apply flat_map_app. Qed.

Lemma run_sessions_app t1 t2 :
  run_sessions (t1 ++ t2) = run_sessions t1 ++ run_sessions t2.
Proof. apply flat_map_app. Qed.

Lemma printed_app t1 t2 : printed (t1 ++ t2) = printed t1 ++ printed t2.
Proof. apply flat_map_app. Qed.

Lemma no_fault_cons n fs : no_fault (S n) (None :: fs) <-> no_fault n fs.
Proof.
  unfold no_fault; simpl; split; intro H.
  - now inversion H.
  - now constructor.
Qed.

Lemma no_fault_some n e fs : ~ no_fault (S n) (Some e :: fs).
Proof. unfold no_fault; simpl; intro H; inversion H; discriminate. Qed.

(** ** The schema script (utils.run_cypher_file) *)

Lemma map_filter_comm {A B} (f : A -> B) (p : B -> bool) (l : list A) :
  map f (filter (fun x => p (f x)) l) = filter p (map f l).
Proof.
  induction l as [|x l IH]; simpl; [reflexivity|].
  destruct (p (f x)); simpl; now rewrite IH.
Qed.

Lemma statements_of_trimmed content :
  statements_of content = trimmed_segments content.
Proof. apply map_filter_comm. Qed.

Lemma executed_ok_events ses total i stmts :
  executed (ok_events ses total i stmts) = map SchemaStatement stmts.
Proof.
  revert i; induction stmts as [|s r IH]; intro i; simpl; [reflexivity|].
  now rewrite IH.
Qed.

Lemma run_sessions_ok_events ses total i stmts :
  run_sessions (ok_events ses total i stmts) = repeat ses (List.length stmts).
Proof.
  revert i; induction stmts as [|s r IH]; intro i; simpl; [reflexivity|].
  now rewrite IH.
Qed.

Lemma sessions_ok_events ses total i stmts :
  sessions (ok_events ses total i stmts) = [].
Proof.
  revert i; induction stmts as [|s r IH]; intro i; simpl; [reflexivity|].
  now rewrite IH.
Qed.

(** *** Stepping through a computation *)

Lemma bind_ok {A B} (m : M A) (f : A -> M B) w a w1 t1 :
  m w = (Ok a, w1, t1) ->
  bind m f w = (let '(r, w2, t2) := f a w1 in (r, w2, t1 ++ t2)).
Proof. intro H; unfold bind; now rewrite H. Qed.

Lemma bind_raise {A B} (m : M A) (f : A -> M B) w e w1 t1 :
  m w = (Raise e, w1, t1) -> bind m f w = (Raise e, w1, t1).
Proof. intro H; unfold bind; now rewrite H. Qed.

Lemma for_each_cons {A} (x : A) r body w :
  for_each (x :: r) body w = bind (body x) (fun _ => for_each r body) w.
Proof. reflexivity. Qed.

Lemma next_fault_none db g path qc fs h :
  next_fault (mkWorld db g path qc (None :: fs) h)
  = (None, mkWorld db g path qc fs h).
Proof. reflexivity. Qed.

Lemma next_fault_some db g path qc fs h e :
  next_fault (mkWorld db g path qc (Some e :: fs) h)
  = (Some e, mkWorld db g path qc fs h).
Proof. reflexivity. Qed.

Lemma next_fault_nil db g path qc h :
  next_fault (mkWorld db g path qc [] h)
  = (None, mkWorld db g path qc [] h).
Proof. reflexivity. Qed.

Lemma run_statement_ok ses total i s db g path qc fs h :
  run_statement ses total (i, s) (mkWorld db g path qc (None :: fs) h)
  = (Ok tt, mkWorld db g path qc fs h,
     [ERun ses (SchemaStatement s) true; EPrint (executed_line i total)]).
Proof. reflexivity. Qed.

Lemma run_statement_ok_nil ses total i s db g path qc h :
  run_statement ses total (i, s) (mkWorld db g path qc [] h)
  = (Ok tt, mkWorld db g path qc [] h,
     [ERun ses (SchemaStatement s) true; EPrint (executed_line i total)]).
Proof. reflexivity. Qed.

Lemma run_statement_fail ses total i s db g path qc fs h e :
  run_statement ses total (i, s) (mkWorld db g path qc (Some e :: fs) h)
  = (Raise e, mkWorld db g path qc fs h,
     [ERun ses (SchemaStatement s) false; EPrint (error_line i e)]).
Proof. reflexivity. Qed.

(** The loop over the statements when nothing fails. *)
Lemma schema_loop_ok ses total stmts : forall i db g path qc fs h,
  no_fault (List.length stmts) fs ->
  for_each (enumerate stmts i) (run_statement ses total)
    (mkWorld db g path qc fs h)
  = (Ok tt, mkWorld db g path qc (skipn (List.length stmts) fs) h,
     ok_events ses total i stmts).
Proof.
  induction stmts as [|s r IH]; intros i db g path qc fs h Hnf.
  - reflexivity.
  - cbn [enumerate List.length ok_events]. rewrite for_each_cons.
    destruct fs as [|[e|] fs'].
    + erewrite bind_ok by apply run_statement_ok_nil.
      rewrite IH by (unfold no_fault; now rewrite firstn_nil).
      rewrite !skipn_nil. reflexivity.
    + now apply no_fault_some in Hnf.
    + apply (proj1 (no_fault_cons _ _)) in Hnf.
      erewrite bind_ok by apply run_statement_ok.
      rewrite IH by assumption. reflexivity.
Qed.

(** The loop when the [k]-th call (counting from 0) is the first to fail. *)
Lemma schema_loop_fail ses total : forall k stmts i db g path qc rest h s e,
  nth_error stmts k = Some s ->
  for_each (enumerate stmts i) (run_statement ses total)
    (mkWorld db g path qc (repeat None k ++ Some e :: rest) h)
  = (Raise e, mkWorld db g path qc rest h,
     ok_events ses total i (firstn k stmts)
     ++ [ERun ses (SchemaStatement s) false;
         EPrint (error_line (i + Z.of_nat k) e)]).
Proof.
  induction k as [|k IH]; intros stmts i db g path qc rest h s e Hnth;
    destruct stmts as [|s0 r]; simpl in Hnth; try discriminate.
  - injection Hnth as ->.
    cbn [repeat app enumerate firstn ok_events]. rewrite for_each_cons.
    erewrite bind_raise by apply run_statement_fail.
    now rewrite Z.add_0_r.
  - cbn [repeat app enumerate firstn ok_events]. rewrite for_each_cons.
    erewrite bind_ok by apply run_statement_ok.
    rewrite (IH r (i + 1)%Z db g path qc rest h s e Hnth).
    replace (i + 1 + Z.of_nat k)%Z with (i + Z.of_nat (S k))%Z by lia.
    reflexivity.
Qed.

Lemma with_session_eq {A} drv (body : nat -> M A) db g path qc fs h r w2 t :
  body h (mkWorld db g path qc fs (S h)) = (r, w2, t) ->
  with_session drv body (mkWorld db g path qc fs h)
  = (r, w2, ESession drv h :: t ++ [ESessionClose h]).
Proof.
  intro H. unfold with_session, try_finally, fresh_handle, emit; simpl.
  rewrite H. now destruct r.
Qed.

Lemma run_cypher_file_ok drv db g path content fs h :
  no_fault (List.length (statements_of content)) fs ->
  run_cypher_file drv (mkWorld db g path (Some content) fs h)
  = (Ok tt,
     mkWorld db g path (Some content)
       (skipn (List.length (statements_of content)) fs) (S h),
     EPrint (executing_line path)
     :: ESession drv h
     :: ok_events h (List.length (statements_of content)) 1 (statements_of content)
     ++ [ESessionClose h]).
Proof.
  intro Hnf. unfold run_cypher_file; cbn [queries_cypher queries_path].
  erewrite bind_ok by reflexivity.
  erewrite with_session_eq by (apply schema_loop_ok; exact Hnf).
  reflexivity.
Qed.

Lemma run_cypher_file_fail drv db g path content k rest h s e :
  nth_error (statements_of content) k = Some s ->
  run_cypher_file drv
    (mkWorld db g path (Some content) (repeat None k ++ Some e :: rest) h)
  = (Raise e, mkWorld db g path (Some content) rest (S h),
     EPrint (executing_line path)
     :: ESession drv h
     :: (ok_events h (List.length (statements_of content)) 1
           (firstn k (statements_of content))
         ++ [ERun h (SchemaStatement s) false;
             EPrint (error_line (1 + Z.of_nat k) e)])
     ++ [ESessionClose h]).
Proof.
  intro Hnth. unfold run_cypher_file; cbn [queries_cypher queries_path].
  erewrite bind_ok by reflexivity.
  erewrite with_session_eq by (apply schema_loop_fail; exact Hnth).
  reflexivity.
Qed.

(** Every fault plan either spares the next [n] calls or has a first
    failing call among them. *)
Lemma fault_plan_cases n : forall fs,
  no_fault n fs \/
  exists k e rest, k < n /\ fs = repeat None k ++ Some e :: rest.
Proof.
  induction n as [|n IH]; intro fs.
  - left; constructor.
  - destruct fs as [|[e|] fs'].
    + left. unfold no_fault. rewrite firstn_nil. constructor.
    + right. exists 0, e, fs'. split; [lia|reflexivity].
    + destruct (IH fs') as [H|(k & e & rest & Hk & ->)].
      * left. now apply no_fault_cons.
      * right. exists (S k), e, rest. split; [lia|reflexivity].
Qed.

Lemma nth_error_firstn_S {A} (l : list A) k x :
  nth_error l k = Some x -> firstn (S k) l = firstn k l ++ [x].
Proof.
  revert l; induction k as [|k IH]; intros [|y l] H; simpl in H; try discriminate.
  - now injection H as ->.
  - cbn [firstn app]. f_equal. now apply IH.
Qed.

(** C6. Whatever queries.cypher holds, the statement list is the list of
    segments between semicolons, trimmed, without the empty ones, in file
    order; the statements run are a prefix of that list, all on the one
    session the function opens; and when no call fails they are exactly
    that list. *)
Theorem schema_script_statements :
  forall (driver : nat) (w : world) (content : Py.text),
    queries_cypher w = Some content ->
    let '(r, _, t) := run_cypher_file driver w in
    statements_of content = trimmed_segments content
    /\ (exists k, executed t
                  = map SchemaStatement (firstn k (trimmed_segments content)))
    /\ sessions t = [next_handle w]
    /\ Forall (fun s => s = next_handle w) (run_sessions t)
    /\ (no_fault (List.length (trimmed_segments content)) (faults w) ->
        r = Ok tt
        /\ executed t = map SchemaStatement (trimmed_segments content)).
Proof.
  intros driver [db g path qc fs h] content Hqc; simpl in Hqc; subst qc.
  rewrite <- statements_of_trimmed.
  destruct (fault_plan_cases (List.length (statements_of content)) fs)
    as [Hnf|(k & e & rest & Hk & ->)].
  - rewrite (run_cypher_file_ok driver db g path content fs h Hnf).
    cbn [next_handle faults].
    split; [reflexivity|].
    assert (Hexec : executed
              (EPrint (executing_line path) :: ESession driver h
               :: ok_events h (List.length (statements_of content)) 1
                    (statements_of content) ++ [ESessionClose h])
            = map SchemaStatement (statements_of content)).
    { cbn [executed flat_map app]. fold (executed
        (ok_events h (List.length (statements_of content)) 1
           (statements_of content) ++ [ESessionClose h])).
      rewrite executed_app, executed_ok_events. cbn. now rewrite app_nil_r. }
    split; [exists (List.length (statements_of content));
            now rewrite firstn_all|].
    split.
    { cbn [sessions flat_map app]. fold (sessions
        (ok_events h (List.length (statements_of content)) 1
           (statements_of content) ++ [ESessionClose h])).
      rewrite sessions_app, sessions_ok_events. reflexivity. }
    split.
    { cbn [run_sessions flat_map app]. fold (run_sessions
        (ok_events h (List.length (statements_of content)) 1
           (statements_of content) ++ [ESessionClose h])).
      rewrite run_sessions_app, run_sessions_ok_events. cbn.
      rewrite app_nil_r. apply Forall_forall. intros x Hx.
      now apply repeat_spec in Hx. }
    intros _. now split.
  - destruct (nth_error (statements_of content) k) as [s|] eqn:Hnth;
      [|apply nth_error_None in Hnth; lia].
    rewrite (run_cypher_file_fail driver db g path content k rest h s e Hnth).
    cbn [next_handle faults].
    split; [reflexivity|].
    split.
    { exists (S k). rewrite (nth_error_firstn_S _ _ _ Hnth), map_app.
      cbn [executed flat_map app].
      fold (executed
        ((ok_events h (List.length (statements_of content)) 1
            (firstn k (statements_of content))
          ++ [ERun h (SchemaStatement s) false;
              EPrint (error_line (1 + Z.of_nat k) e)])
         ++ [ESessionClose h])).
      rewrite !executed_app, executed_ok_events. cbn.
      now rewrite app_nil_r. }
    split.
    { cbn [sessions flat_map app].
      fold (sessions
        ((ok_events h (List.length (statements_of content)) 1
            (firstn k (statements_of content))
          ++ [ERun h (SchemaStatement s) false;
              EPrint (error_line (1 + Z.of_nat k) e)])
         ++ [ESessionClose h])).
      rewrite !sessions_app, sessions_ok_events. reflexivity. }
    split.
    { cbn [run_sessions flat_map app].
      fold (run_sessions
        ((ok_events h (List.length (statements_of content)) 1
            (firstn k (statements_of content))
          ++ [ERun h (SchemaStatement s) false;
              EPrint (error_line (1 + Z.of_nat k) e)])
         ++ [ESessionClose h])).
      rewrite !run_sessions_app, run_sessions_ok_events. cbn.
      apply Forall_forall. intros x Hx.
      rewrite ?in_app_iff in Hx; simpl in Hx.
      repeat match goal with H : _ \/ _ |- _ => destruct H end;
        try contradiction; try congruence;
        match goal with
        | H : In _ (repeat _ _) |- _ => now apply repeat_spec in H
        end. }
    intro Hnf. exfalso.
    unfold no_fault in Hnf. rewrite Forall_forall in Hnf.
    assert (Hin : In (Some e)
              (firstn (List.length (statements_of content))
                 (repeat None k ++ Some e :: rest))).
    { rewrite firstn_app, repeat_length.
      apply in_or_app; right.
      destruct (List.length (statements_of content) - k) eqn:E; [lia|].
      now left. }
    specialize (Hnf _ Hin). discriminate.
Qed.

Lemma schema_script_statements_witness :
  queries_cypher script_world
  = Some (Py.text_of_string "CREATE INDEX a;  ; CREATE INDEX b ;")
  /\ executed (snd (run_cypher_file 7 script_world))
     = [SchemaStatement (Py.text_of_string "CREATE INDEX a");
        SchemaStatement (Py.text_of_string "CREATE INDEX b")].
Proof.
  split; [reflexivity|].
  pose proof (schema_script_statements 7 script_world
                (Py.text_of_string "CREATE INDEX a;  ; CREATE INDEX b ;")
                eq_refl) as H.
  destruct (run_cypher_file 7 script_world) as [[r w'] t].
  destruct H as (_ & _ & _ & _ & H).
  destruct H as [_ H]; [repeat constructor|].
  exact H.
Defined.

(** C4, as the code has it.  When the [k]-th statement (counting from 0)
    is the first whose execution fails, with store error [e]: no later
    statement is sent, a line giving the 1-based index and the store's
    message is printed last, and the error raised is [e] itself, as the
    store raised it. *)
Theorem schema_failure_reraised :
  forall (driver : nat) (w : world) (content : Py.text)
         (k : nat) (s : Py.text) (e : exn) (rest : list (option exn)),
    queries_cypher w = Some content ->
    nth_error (statements_of content) k = Some s ->
    faults w = repeat None k ++ Some e :: rest ->
    let '(r, w', t) := run_cypher_file driver w in
    r = Raise e
    /\ executed t = map SchemaStatement (firstn k (statements_of content))
                    ++ [SchemaStatement s]
    /\ last (printed t) "" = error_line (Z.of_nat k + 1) e
    /\ faults w' = rest.
Proof.
  intros driver [db g path qc fs h] content k s e rest Hqc Hnth Hfs;
    simpl in Hqc, Hfs; subst qc fs.
  rewrite (run_cypher_file_fail driver db g path content k rest h s e Hnth).
  split; [reflexivity|].
  split.
  { unfold executed. cbn [flat_map app]. rewrite !flat_map_app.
    pose proof (executed_ok_events h (List.length (statements_of content)) 1
                  (firstn k (statements_of content))) as H.
    unfold executed in H. rewrite H. cbn. now rewrite app_nil_r. }
  split; [|reflexivity].
  unfold printed. cbn [flat_map app]. rewrite !flat_map_app. cbn [flat_map app].
  rewrite app_nil_r, app_comm_cons, last_last.
  now rewrite Z.add_comm.
Qed.

Lemma schema_failure_reraised_witness :
  fst (fst (run_cypher_file 0 failing_script_B))
  = Raise (StoreError "connection lost").
Proof.
  pose proof (schema_failure_reraised 0 failing_script_B
                (Py.text_of_string "A;Y") 1 (Py.text_of_string "Y")
                (StoreError "connection lost") [] eq_refl eq_refl eq_refl) as H.
  destruct (run_cypher_file 0 failing_script_B) as [[r w'] t].
  exact (proj1 H).
Defined.

(** C4 as stated does not hold: the first statement of one script and the
    second statement of another, with different texts, fail with one and
    the same raised error, which therefore tells neither index nor text. *)
Lemma schema_error_carries_no_index :
  fst (fst (run_cypher_file 0 failing_script_A))
  = Raise (StoreError "connection lost")
  /\ fst (fst (run_cypher_file 0 failing_script_B))
     = Raise (StoreError "connection lost")
  /\ executed (snd (run_cypher_file 0 failing_script_A))
     = [SchemaStatement (Py.text_of_string "X")]
  /\ executed (snd (run_cypher_file 0 failing_script_B))
     = [SchemaStatement (Py.text_of_string "A");
        SchemaStatement (Py.text_of_string "Y")].
Proof. repeat split. Qed.

(** ** The readiness gate (utils.wait_for_postgres, utils.wait_for_neo4j) *)

Lemma for_until_cons {A} (x : A) r body w :
  for_until (x :: r) body w
  = bind (body x) (fun done => if done then ret tt else for_until r body) w.
Proof. reflexivity. Qed.

Lemma pg_attempt_ready max_retries delay a db g path qc rest h :
  hd None rest = None ->
  pg_attempt max_retries delay a (mkWorld db g path qc rest h)
  = (Ok true, mkWorld db g path qc (tl rest) (S h),
     [EPgConnect h; EPgClose h; EPrint "✓ PostgreSQL is ready!"]).
Proof. destruct rest as [|[e|] rest]; simpl; intro H; try discriminate; reflexivity. Qed.

Lemma pg_attempt_retry max_retries delay a db g path qc m fs h :
  (a < max_retries - 1)%Z ->
  pg_attempt max_retries delay a
    (mkWorld db g path qc (Some (OperationalError m) :: fs) h)
  = (Ok false, mkWorld db g path qc fs h,
     [EPgConnectFailed; EPrint (pg_retry_line max_retries delay a);
      ESleep delay]).
Proof.
  intro Ha. apply Z.ltb_lt in Ha.
  unfold pg_attempt, try_except.
  erewrite bind_raise by reflexivity.
  rewrite Ha. reflexivity.
Qed.

Lemma pg_attempt_last max_retries delay a db g path qc m fs h :
  ~ (a < max_retries - 1)%Z ->
  pg_attempt max_retries delay a
    (mkWorld db g path qc (Some (OperationalError m) :: fs) h)
  = (Raise (PyException (pg_timeout_message max_retries) (OperationalError m)),
     mkWorld db g path qc fs h, [EPgConnectFailed]).
Proof.
  intro Ha. apply Z.ltb_nlt in Ha.
  unfold pg_attempt, try_except.
  erewrite bind_raise by reflexivity.
  rewrite Ha. reflexivity.
Qed.

Lemma pg_loop_ready max_retries delay : forall msgs i n db g path qc rest h,
  Z.of_nat (i + n) = max_retries ->
  List.length msgs < n ->
  hd None rest = None ->
  for_until (map Z.of_nat (seq i n)) (pg_attempt max_retries delay)
    (mkWorld db g path qc (operational msgs ++ rest) h)
  = (Ok tt, mkWorld db g path qc (tl rest) (S h),
     pg_retries max_retries delay i (List.length msgs)
     ++ [EPgConnect h; EPgClose h; EPrint "✓ PostgreSQL is ready!"]).
Proof.
  induction msgs as [|m msgs IH]; intros i n db g path qc rest h Hmax Hlen Hrest;
    (destruct n as [|n]; [simpl in Hlen; lia|]);
    cbn [List.length] in Hlen; cbn [seq map]; rewrite for_until_cons.
  - cbn [operational map app List.length pg_retries].
    erewrite bind_ok by (apply pg_attempt_ready; exact Hrest).
    reflexivity.
  - cbn [operational map app List.length pg_retries].
    erewrite bind_ok by (apply pg_attempt_retry; lia).
    cbv beta iota. fold (operational msgs).
    rewrite IH by (try lia; assumption).
    reflexivity.
Qed.

Lemma pg_loop_exhausted max_retries delay : forall msgs i n db g path qc rest h m,
  Z.of_nat (i + S n) = max_retries ->
  List.length msgs = n ->
  for_until (map Z.of_nat (seq i (S n))) (pg_attempt max_retries delay)
    (mkWorld db g path qc (operational (msgs ++ [m]) ++ rest) h)
  = (Raise (PyException (pg_timeout_message max_retries) (OperationalError m)),
     mkWorld db g path qc rest h,
     pg_retries max_retries delay i n ++ [EPgConnectFailed]).
Proof.
  induction msgs as [|m0 msgs IH]; intros i n db g path qc rest h m Hmax Hlen;
    simpl in Hlen; subst n; cbn [List.length] in *;
    cbn [seq map]; rewrite for_until_cons.
  - cbn [operational map app pg_retries].
    erewrite bind_raise by (apply pg_attempt_last; lia).
    reflexivity.
  - cbn [operational map app pg_retries].
    erewrite bind_ok by (apply pg_attempt_retry; lia).
    cbv beta iota. fold (operational (msgs ++ [m])).
    rewrite (IH (S i) (List.length msgs)) by (try lia; reflexivity).
    reflexivity.
Qed.

Lemma neo4j_attempt_ready max_retries delay a db g path qc rest h :
  hd None rest = None ->
  neo4j_attempt max_retries delay a (mkWorld db g path qc rest h)
  = (Ok true, mkWorld db g path qc (tl rest) (S (S h)),
     [EDriver h; ESession h (S h); ERun (S h) Return1 true;
      ESessionClose (S h); EDriverClose h; EPrint "✓ Neo4j is ready!"]).
Proof. destruct rest as [|[e|] rest]; simpl; intro H; try discriminate; reflexivity. Qed.

Lemma neo4j_attempt_retry max_retries delay a db g path qc e fs h :
  (a < max_retries - 1)%Z ->
  neo4j_attempt max_retries delay a (mkWorld db g path qc (Some e :: fs) h)
  = (Ok false, mkWorld db g path qc fs (S (S h)),
     [EDriver h; ESession h (S h); ERun (S h) Return1 false;
      ESessionClose (S h);
      EPrint (neo4j_retry_line max_retries delay a); ESleep delay]).
Proof.
  intro Ha. apply Z.ltb_lt in Ha.
  unfold neo4j_attempt, try_except.
  erewrite bind_ok by reflexivity.
  cbv beta iota.
  erewrite bind_raise by reflexivity.
  rewrite Ha. reflexivity.
Qed.

Lemma neo4j_attempt_last max_retries delay a db g path qc e fs h :
  ~ (a < max_retries - 1)%Z ->
  neo4j_attempt max_retries delay a (mkWorld db g path qc (Some e :: fs) h)
  = (Raise (PyException (neo4j_timeout_message max_retries) e),
     mkWorld db g path qc fs (S (S h)),
     [EDriver h; ESession h (S h); ERun (S h) Return1 false;
      ESessionClose (S h)]).
Proof.
  intro Ha. apply Z.ltb_nlt in Ha.
  unfold neo4j_attempt, try_except.
  erewrite bind_ok by reflexivity.
  cbv beta iota.
  erewrite bind_raise by reflexivity.
  rewrite Ha. reflexivity.
Qed.

Lemma neo4j_loop_ready max_retries delay : forall errs i n db g path qc rest h,
  Z.of_nat (i + n) = max_retries ->
  List.length errs < n ->
  hd None rest = None ->
  for_until (map Z.of_nat (seq i n)) (neo4j_attempt max_retries delay)
    (mkWorld db g path qc (map Some errs ++ rest) h)
  = (Ok tt,
     mkWorld db g path qc (tl rest) (S (S (2 * List.length errs + h))),
     neo4j_retries max_retries delay h i (List.length errs)
     ++ [EDriver (2 * List.length errs + h);
         ESession (2 * List.length errs + h) (S (2 * List.length errs + h));
         ERun (S (2 * List.length errs + h)) Return1 true;
         ESessionClose (S (2 * List.length errs + h));
         EDriverClose (2 * List.length errs + h);
         EPrint "✓ Neo4j is ready!"]).
Proof.
  induction errs as [|e errs IH]; intros i n db g path qc rest h Hmax Hlen Hrest;
    (destruct n as [|n]; [simpl in Hlen; lia|]);
    cbn [List.length] in Hlen; cbn [seq map]; rewrite for_until_cons.
  - cbn [map app List.length neo4j_retries Nat.mul Nat.add].
    erewrite bind_ok by (apply neo4j_attempt_ready; exact Hrest).
    reflexivity.
  - cbn [map app List.length neo4j_retries].
    erewrite bind_ok by (apply neo4j_attempt_retry; lia).
    cbv beta iota.
    rewrite IH by (try lia; assumption).
    replace (2 * List.length errs + S (S h)) with (2 * S (List.length errs) + h)
      by lia.
    reflexivity.
Qed.

Lemma neo4j_loop_exhausted max_retries delay :
  forall errs i n db g path qc rest h e,
  Z.of_nat (i + S n) = max_retries ->
  List.length errs = n ->
  for_until (map Z.of_nat (seq i (S n))) (neo4j_attempt max_retries delay)
    (mkWorld db g path qc (map Some (errs ++ [e]) ++ rest) h)
  = (Raise (PyException (neo4j_timeout_message max_retries) e),
     mkWorld db g path qc rest (S (S (2 * n + h))),
     neo4j_retries max_retries delay h i n
     ++ [EDriver (2 * n + h); ESession (2 * n + h) (S (2 * n + h));
         ERun (S (2 * n + h)) Return1 false; ESessionClose (S (2 * n + h))]).
Proof.
  induction errs as [|e0 errs IH]; intros i n db g path qc rest h e Hmax Hlen;
    simpl in Hlen; subst n; cbn [List.length] in *;
    cbn [seq map]; rewrite for_until_cons.
  - cbn [map app neo4j_retries Nat.mul Nat.add].
    erewrite bind_raise by (apply neo4j_attempt_last; lia).
    reflexivity.
  - cbn [map app neo4j_retries].
    erewrite bind_ok by (apply neo4j_attempt_retry; lia).
    cbv beta iota.
    rewrite (IH (S i) (List.length errs)) by (try lia; reflexivity).
    replace (2 * List.length errs + S (S h)) with (2 * S (List.length errs) + h)
      by lia.
    reflexivity.
Qed.

Lemma range_seq max_retries :
  (1 <= max_retries)%Z ->
  range max_retries = map Z.of_nat (seq 0 (Z.to_nat max_retries))
  /\ Z.of_nat (0 + Z.to_nat max_retries) = max_retries.
Proof. intro H; split; [reflexivity|lia]. Qed.

Lemma wait_for_postgres_ready max_retries delay w msgs rest :
  (1 <= max_retries)%Z ->
  faults w = operational msgs ++ rest ->
  List.length msgs < Z.to_nat max_retries ->
  hd None rest = None ->
  wait_for_postgres max_retries delay w
  = (Ok tt,
     mkWorld (pg w) (neo w) (queries_path w) (queries_cypher w) (tl rest)
       (S (next_handle w)),
     EPrint "Waiting for PostgreSQL to be ready..."
     :: pg_retries max_retries delay 0 (List.length msgs)
     ++ [EPgConnect (next_handle w); EPgClose (next_handle w);
         EPrint "✓ PostgreSQL is ready!"]).
Proof.
  intros Hmax Hfs Hlen Hrest. destruct w as [db g path qc fs h].
  simpl in Hfs; subst fs. cbn [pg neo queries_path queries_cypher next_handle].
  unfold wait_for_postgres. erewrite bind_ok by reflexivity.
  destruct (range_seq _ Hmax) as [-> Hn].
  rewrite (pg_loop_ready max_retries delay msgs 0 _ db g path qc rest h Hn Hlen Hrest).
  reflexivity.
Qed.

Lemma wait_for_postgres_exhausted max_retries delay w msgs m rest :
  (1 <= max_retries)%Z ->
  faults w = operational (msgs ++ [m]) ++ rest ->
  S (List.length msgs) = Z.to_nat max_retries ->
  wait_for_postgres max_retries delay w
  = (Raise (PyException (pg_timeout_message max_retries) (OperationalError m)),
     mkWorld (pg w) (neo w) (queries_path w) (queries_cypher w) rest
       (next_handle w),
     EPrint "Waiting for PostgreSQL to be ready..."
     :: pg_retries max_retries delay 0 (List.length msgs)
     ++ [EPgConnectFailed]).
Proof.
  intros Hmax Hfs Hlen. destruct w as [db g path qc fs h].
  simpl in Hfs; subst fs. cbn [pg neo queries_path queries_cypher next_handle].
  unfold wait_for_postgres. erewrite bind_ok by reflexivity.
  destruct (range_seq _ Hmax) as [-> Hn]. rewrite <- Hlen in *.
  rewrite (pg_loop_exhausted max_retries delay msgs 0 _ db g path qc rest h m
             Hn eq_refl).
  reflexivity.
Qed.

Lemma wait_for_neo4j_ready max_retries delay w errs rest :
  (1 <= max_retries)%Z ->
  faults w = map Some errs ++ rest ->
  List.length errs < Z.to_nat max_retries ->
  hd None rest = None ->
  let d := 2 * List.length errs + next_handle w in
  wait_for_neo4j max_retries delay w
  = (Ok tt,
     mkWorld (pg w) (neo w) (queries_path w) (queries_cypher w) (tl rest)
       (S (S d)),
     EPrint "Waiting for Neo4j to be ready..."
     :: neo4j_retries max_retries delay (next_handle w) 0 (List.length errs)
     ++ [EDriver d; ESession d (S d); ERun (S d) Return1 true;
         ESessionClose (S d); EDriverClose d; EPrint "✓ Neo4j is ready!"]).
Proof.
  intros Hmax Hfs Hlen Hrest. destruct w as [db g path qc fs h].
  simpl in Hfs; subst fs. cbn [pg neo queries_path queries_cypher next_handle].
  unfold wait_for_neo4j. erewrite bind_ok by reflexivity.
  destruct (range_seq _ Hmax) as [-> Hn].
  rewrite (neo4j_loop_ready max_retries delay errs 0 _ db g path qc rest h
             Hn Hlen Hrest).
  reflexivity.
Qed.

Lemma wait_for_neo4j_exhausted max_retries delay w errs e rest :
  (1 <= max_retries)%Z ->
  faults w = map Some (errs ++ [e]) ++ rest ->
  S (List.length errs) = Z.to_nat max_retries ->
  let d := 2 * List.length errs + next_handle w in
  wait_for_neo4j max_retries delay w
  = (Raise (PyException (neo4j_timeout_message max_retries) e),
     mkWorld (pg w) (neo w) (queries_path w) (queries_cypher w) rest (S (S d)),
     EPrint "Waiting for Neo4j to be ready..."
     :: neo4j_retries max_retries delay (next_handle w) 0 (List.length errs)
     ++ [EDriver d; ESession d (S d); ERun (S d) Return1 false;
         ESessionClose (S d)]).
Proof.
  intros Hmax Hfs Hlen. destruct w as [db g path qc fs h].
  simpl in Hfs; subst fs. cbn [pg neo queries_path queries_cypher next_handle].
  unfold wait_for_neo4j. erewrite bind_ok by reflexivity.
  destruct (range_seq _ Hmax) as [-> Hn]. rewrite <- Hlen in *.
  rewrite (neo4j_loop_exhausted max_retries delay errs 0 _ db g path qc rest h e
             Hn eq_refl).
  reflexivity.
Qed.

(** C7. With [max_retries >= 1]: when the first [k < max_retries] probes
    fail and the next one succeeds, the gate returns after exactly those
    [k + 1] probes, having slept [delay] after each failed one; when
    [max_retries] probes fail in a row, it has slept [delay] between
    consecutive probes and raises, after the last one, an exception whose
    message names the store and [max_retries].  A failed probe is one
    raising [OperationalError] for the relational store, any exception
    for the graph store. *)
Theorem readiness_gate_retries :
  forall (max_retries : Z) (delay : N),
    (1 <= max_retries)%Z ->
    (forall w msgs rest,
        faults w = operational msgs ++ rest ->
        List.length msgs < Z.to_nat max_retries ->
        hd None rest = None ->
        let '(r, _, t) := wait_for_postgres max_retries delay w in
        r = Ok tt
        /\ t = EPrint "Waiting for PostgreSQL to be ready..."
               :: pg_retries max_retries delay 0 (List.length msgs)
               ++ [EPgConnect (next_handle w); EPgClose (next_handle w);
                   EPrint "✓ PostgreSQL is ready!"])
    /\ (forall w msgs m rest,
        faults w = operational (msgs ++ [m]) ++ rest ->
        S (List.length msgs) = Z.to_nat max_retries ->
        let '(r, _, t) := wait_for_postgres max_retries delay w in
        r = Raise (PyException
                     ("PostgreSQL not ready after "
                      ^^ Py.str_of_int max_retries ^^ " attempts")
                     (OperationalError m))
        /\ t = EPrint "Waiting for PostgreSQL to be ready..."
               :: pg_retries max_retries delay 0 (List.length msgs)
               ++ [EPgConnectFailed])
    /\ (forall w errs rest,
        faults w = map Some errs ++ rest ->
        List.length errs < Z.to_nat max_retries ->
        hd None rest = None ->
        let d := 2 * List.length errs + next_handle w in
        let '(r, _, t) := wait_for_neo4j max_retries delay w in
        r = Ok tt
        /\ t = EPrint "Waiting for Neo4j to be ready..."
               :: neo4j_retries max_retries delay (next_handle w) 0
                    (List.length errs)
               ++ [EDriver d; ESession d (S d); ERun (S d) Return1 true;
                   ESessionClose (S d); EDriverClose d;
                   EPrint "✓ Neo4j is ready!"])
    /\ (forall w errs e rest,
        faults w = map Some (errs ++ [e]) ++ rest ->
        S (List.length errs) = Z.to_nat max_retries ->
        let d := 2 * List.length errs + next_handle w in
        let '(r, _, t) := wait_for_neo4j max_retries delay w in
        r = Raise (PyException
                     ("Neo4j not ready after "
                      ^^ Py.str_of_int max_retries ^^ " attempts") e)
        /\ t = EPrint "Waiting for Neo4j to be ready..."
               :: neo4j_retries max_retries delay (next_handle w) 0
                    (List.length errs)
               ++ [EDriver d; ESession d (S d); ERun (S d) Return1 false;
                   ESessionClose (S d)]).
Proof.
  intros max_retries delay Hmax. repeat split.
  - intros w msgs rest H1 H2 H3.
    rewrite (wait_for_postgres_ready _ delay _ _ _ Hmax H1 H2 H3). now split.
  - intros w msgs m rest H1 H2.
    rewrite (wait_for_postgres_exhausted _ delay _ _ _ _ Hmax H1 H2). now split.
  - intros w errs rest H1 H2 H3.
    rewrite (wait_for_neo4j_ready _ delay _ _ _ Hmax H1 H2 H3). now split.
  - intros w errs e rest H1 H2.
    rewrite (wait_for_neo4j_exhausted _ delay _ _ _ _ Hmax H1 H2). now split.
Qed.

Lemma probe_results_app t1 t2 :
  probe_results (t1 ++ t2) = probe_results t1 ++ probe_results t2.
Proof. apply flat_map_app. Qed.

Lemma pg_attempt_other max_retries delay a db g path qc e fs h :
  (forall m, e <> OperationalError m) ->
  pg_attempt max_retries delay a (mkWorld db g path qc (Some e :: fs) h)
  = (Raise e, mkWorld db g path qc fs h, [EPgConnectFailed]).
Proof.
  intro He. destruct e; try reflexivity. now destruct (He msg).
Qed.

Lemma gate_outcome_retry n r t t0 :
  probe_results t0 = [false] ->
  0 < n ->
  gate_outcome n r t -> gate_outcome (S n) r (t0 ++ t).
Proof.
  intros H0 Hn H. destruct r; simpl in *.
  - right. destruct H as [H|[k H]]; [lia|].
    exists (S k). rewrite probe_results_app, H0, H. reflexivity.
  - destruct H as [_ H]. split; [lia|].
    rewrite probe_results_app, H0. now constructor.
Qed.

Lemma pg_loop_probes max_retries delay : forall n i w,
  Z.of_nat (i + n) = max_retries ->
  let '(r, _, t) :=
    for_until (map Z.of_nat (seq i n)) (pg_attempt max_retries delay) w in
  gate_outcome n r t.
Proof.
  induction n as [|n IH]; intros i [db g path qc fs h] Hmax.
  - simpl. now left.
  - cbn [seq map]. rewrite for_until_cons.
    destruct fs as [|[e|] fs].
    + erewrite bind_ok by (now apply pg_attempt_ready).
      simpl. right. now exists 0.
    + destruct e as [m|m|m c|st d].
      * destruct (Z_lt_dec (Z.of_nat i) (max_retries - 1)) as [Hlt|Hge].
        -- erewrite bind_ok by (now apply pg_attempt_retry).
           cbv beta iota.
           specialize (IH (S i) (mkWorld db g path qc fs h) ltac:(lia)).
           destruct (for_until (map Z.of_nat (seq (S i) n))
                       (pg_attempt max_retries delay)
                       (mkWorld db g path qc fs h)) as [[r w'] t].
           apply gate_outcome_retry; [reflexivity|lia|exact IH].
        -- erewrite bind_raise by (now apply pg_attempt_last).
           simpl. split; [lia|repeat constructor].
      * erewrite bind_raise by (apply pg_attempt_other; discriminate).
        simpl. split; [lia|repeat constructor].
      * erewrite bind_raise by (apply pg_attempt_other; discriminate).
        simpl. split; [lia|repeat constructor].
      * erewrite bind_raise by (apply pg_attempt_other; discriminate).
        simpl. split; [lia|repeat constructor].
    + erewrite bind_ok by (now apply pg_attempt_ready).
      simpl. right. now exists 0.
Qed.

Lemma neo4j_loop_probes max_retries delay : forall n i w,
  Z.of_nat (i + n) = max_retries ->
  let '(r, _, t) :=
    for_until (map Z.of_nat (seq i n)) (neo4j_attempt max_retries delay) w in
  gate_outcome n r t.
Proof.
  induction n as [|n IH]; intros i [db g path qc fs h] Hmax.
  - simpl. now left.
  - cbn [seq map]. rewrite for_until_cons.
    destruct fs as [|[e|] fs].
    + erewrite bind_ok by (now apply neo4j_attempt_ready).
      simpl. right. now exists 0.
    + destruct (Z_lt_dec (Z.of_nat i) (max_retries - 1)) as [Hlt|Hge].
      * erewrite bind_ok by (now apply neo4j_attempt_retry).
        cbv beta iota.
        specialize (IH (S i) (mkWorld db g path qc fs (S (S h))) ltac:(lia)).
        destruct (for_until (map Z.of_nat (seq (S i) n))
                    (neo4j_attempt max_retries delay)
                    (mkWorld db g path qc fs (S (S h)))) as [[r w'] t].
        apply gate_outcome_retry; [reflexivity|lia|exact IH].
      * erewrite bind_raise by (now apply neo4j_attempt_last).
        simpl. split; [lia|repeat constructor].
    + erewrite bind_ok by (now apply neo4j_attempt_ready).
      simpl. right. now exists 0.
Qed.

Lemma gate_outcome_iff n r t :
  0 < n -> gate_outcome n r t ->
  (raised r <-> Forall (fun b => b = false) (probe_results t)).
Proof.
  intros Hn H. destruct r as [[]|e]; simpl in H.
  - split.
    + intros [e He]; discriminate.
    + intro HF. destruct H as [H|[k H]]; [lia|]. rewrite H in HF.
      rewrite Forall_forall in HF.
      assert (Hin : In true (repeat false k ++ [true]))
        by (apply in_or_app; right; now left).
      specialize (HF true Hin). discriminate.
  - split; [intros _; apply H|intros _; now exists e].
Qed.

Lemma range_nonpositive max_retries : (max_retries <= 0)%Z -> range max_retries = [].
Proof.
  intro H. unfold range. replace (Z.to_nat max_retries) with 0 by lia. reflexivity.
Qed.

Lemma gate_raises_iff (attempt : Z -> M bool) (line : string) max_retries w :
  (forall n i w, Z.of_nat (i + n) = max_retries ->
                 let '(r, _, t) := for_until (map Z.of_nat (seq i n)) attempt w in
                 gate_outcome n r t) ->
  let '(r, _, t) :=
    (print line ;; for_until (range max_retries) attempt) w in
  raised r <->
  (1 <= max_retries)%Z /\ Forall (fun b => b = false) (probe_results t).
Proof.
  intro Hloop. erewrite bind_ok by reflexivity.
  destruct (Z_le_dec 1 max_retries) as [Hmax|Hmax].
  - destruct (range_seq _ Hmax) as [-> Hn].
    specialize (Hloop (Z.to_nat max_retries) 0 w Hn).
    destruct (for_until (map Z.of_nat (seq 0 (Z.to_nat max_retries))) attempt w)
      as [[r w'] t].
    assert (Hpos : 0 < Z.to_nat max_retries) by lia.
    pose proof (gate_outcome_iff _ r t Hpos Hloop) as Hiff.
    change (probe_results ([EPrint line] ++ t)) with (probe_results t).
    tauto.
  - rewrite range_nonpositive by lia. simpl.
    split; [intros [e He]; discriminate|intros [H _]; lia].
Qed.

(** C10. Called with [max_retries <= 0], either gate returns normally,
    having made no probe and changed nothing; and in general a gate raises
    exactly when [max_retries >= 1] and every probe it made failed. *)
Theorem readiness_gate_without_attempts :
  forall (max_retries : Z) (delay : N) (w : world),
    ((max_retries <= 0)%Z ->
     wait_for_postgres max_retries delay w
     = (Ok tt, w, [EPrint "Waiting for PostgreSQL to be ready..."])
     /\ wait_for_neo4j max_retries delay w
        = (Ok tt, w, [EPrint "Waiting for Neo4j to be ready..."]))
    /\ (let '(r, _, t) := wait_for_postgres max_retries delay w in
        raised r <->
        (1 <= max_retries)%Z /\ Forall (fun b => b = false) (probe_results t))
    /\ (let '(r, _, t) := wait_for_neo4j max_retries delay w in
        raised r <->
        (1 <= max_retries)%Z /\ Forall (fun b => b = false) (probe_results t)).
Proof.
  intros max_retries delay w. split; [|split].
  - intro Hmax. unfold wait_for_postgres, wait_for_neo4j.
    rewrite (range_nonpositive _ Hmax). now split.
  - apply (gate_raises_iff (pg_attempt max_retries delay)).
    apply pg_loop_probes.
  - apply (gate_raises_iff (neo4j_attempt max_retries delay)).
    apply neo4j_loop_probes.
Qed.

Lemma readiness_gate_retries_witness :
  (1 <= 3)%Z
  /\ fst (fst (wait_for_postgres 3 2 unreachable_world))
     = Raise (PyException "PostgreSQL not ready after 3 attempts"
                (OperationalError "connection refused")).
Proof.
  split; [lia|].
  pose proof (readiness_gate_retries 3 2 ltac:(lia)) as (_ & H & _).
  specialize (H unreachable_world
                ["connection refused"; "connection refused"]
                "connection refused" [] eq_refl eq_refl).
  destruct (wait_for_postgres 3 2 unreachable_world) as [[r w'] t].
  exact (proj1 H).
Defined.

Lemma readiness_gate_without_attempts_witness :
  (0 <= 0)%Z
  /\ wait_for_postgres 0 2 unreachable_world
     = (Ok tt, unreachable_world,
        [EPrint "Waiting for PostgreSQL to be ready..."]).
Proof.
  split; [lia|].
  exact (proj1 (proj1 (readiness_gate_without_attempts 0 2 unreachable_world)
                  ltac:(lia))).
Defined.

(** ** What a run does to the stores, step by step *)

Lemma steps_app t1 t2 : steps (t1 ++ t2) = steps t1 ++ steps t2.
Proof. apply flat_map_app. Qed.

Lemma apply_steps_app p1 p2 g :
  apply_steps (p1 ++ p2) g = apply_steps p2 (apply_steps p1 g).
Proof. apply fold_left_app. Qed.

Lemma done_app p1 p2 : done (p1 ++ p2) = done p1 ++ done p2.
Proof. apply map_app. Qed.

Lemma sessions_after_app t1 : forall t2 st,
  sessions_after (t1 ++ t2) st
  = match sessions_after t1 st with
    | Some st' => sessions_after t2 st'
    | None => None
    end.
Proof.
  induction t1 as [|e t1 IH]; intros t2 st; [reflexivity|].
  destruct e; cbn [app sessions_after]; try apply IH.
  destruct st as [|top st']; [reflexivity|].
  destruct (Nat.eqb top ses); [apply IH|reflexivity].
Qed.

Lemma tidy_nil : tidy [].
Proof. split; [reflexivity|intro; reflexivity]. Qed.

Lemma tidy_app t1 t2 : tidy t1 -> tidy t2 -> tidy (t1 ++ t2).
Proof.
  intros [H1 S1] [H2 S2]. split.
  - rewrite forallb_app, H1, H2. reflexivity.
  - intro st. rewrite sessions_after_app, S1. apply S2.
Qed.

Lemma tidy_session drv ses t :
  tidy t -> tidy (ESession drv ses :: t ++ [ESessionClose ses]).
Proof.
  intros [H1 S1]. split.
  - cbn [forallb conn_event negb andb]. rewrite forallb_app, H1. reflexivity.
  - intro st. cbn [sessions_after]. rewrite sessions_after_app, S1.
    cbn [sessions_after]. now rewrite Nat.eqb_refl.
Qed.

Lemma tidy_print s : tidy [EPrint s].
Proof. split; [reflexivity|intro; reflexivity]. Qed.

Lemma tidy_select c t ok : tidy [ESelect c t ok].
Proof. split; [reflexivity|intro; reflexivity]. Qed.

Lemma tidy_run s q ok : tidy [ERun s q ok].
Proof. split; [reflexivity|intro; reflexivity]. Qed.

Section Follows.

(** The relational source, the schema script and its path: nothing in
    the program changes them. *)
Variable db : database.
Variable script : option Py.text.
Variable path : string.

(** [follows] over this source. *)
Local Abbreviation obeys := (follows db script path).

Lemma follows_ret {A} (V : A -> Prop) (a : A) : V a -> obeys [] [] V (ret a).
Proof.
  intros Ha w Hw. simpl. split; [exact Hw|]. split; [apply tidy_nil|].
  repeat split; assumption.
Qed.

Lemma follows_print s : obeys [] [s] (fun _ => True) (print s).
Proof.
  intros w Hw. simpl. split; [exact Hw|]. split; [apply tidy_print|].
  repeat split.
Qed.

Lemma follows_weaken {A} plan out (V V' : A -> Prop) m :
  (forall a, V a -> V' a) -> obeys plan out V m -> obeys plan out V' m.
Proof.
  intros HV Hm w Hw. specialize (Hm w Hw).
  destruct (m w) as [[[a|e] w'] t]; [|exact Hm].
  destruct Hm as (H1 & H2 & H3 & H4).
  split; [exact H1|]. split; [exact H2|]. split; [now apply HV|exact H4].
Qed.

Lemma follows_bind {A B} p1 o1 (V1 : A -> Prop) m p2 o2 (V2 : B -> Prop) f :
  obeys p1 o1 V1 m ->
  (forall a, V1 a -> obeys p2 o2 V2 (f a)) ->
  obeys (p1 ++ p2) (o1 ++ o2) V2 (bind m f).
Proof.
  intros Hm Hf w Hw. unfold bind. specialize (Hm w Hw).
  destruct (m w) as [[[a|e] w1] t1].
  - destruct Hm as (Hw1 & Ht1 & Va & Hs1 & Hp1 & Hg1).
    specialize (Hf a Va w1 Hw1).
    destruct (f a w1) as [[[b|e] w2] t2].
    + destruct Hf as (Hw2 & Ht2 & Vb & Hs2 & Hp2 & Hg2).
      split; [exact Hw2|]. split; [now apply tidy_app|].
      split; [exact Vb|].
      rewrite steps_app, printed_app, done_app, apply_steps_app.
      rewrite Hs1, Hs2, Hp1, Hp2, Hg2, Hg1. repeat split.
    + destruct Hf as (Hw2 & Ht2 & k & s & Hn & Hs2 & Hg2).
      split; [exact Hw2|]. split; [now apply tidy_app|].
      exists (List.length p1 + k), s. split; [|split].
      * rewrite nth_error_app2 by lia.
        now replace (List.length p1 + k - List.length p1) with k by lia.
      * rewrite steps_app, Hs1, Hs2, firstn_app_2, done_app.
        now rewrite app_assoc.
      * rewrite firstn_app_2, apply_steps_app, Hg2, Hg1. reflexivity.
  - destruct Hm as (Hw1 & Ht1 & k & s & Hn & Hs1 & Hg1).
    split; [exact Hw1|]. split; [exact Ht1|].
    assert (Hk : k < List.length p1)
      by (apply nth_error_Some; rewrite Hn; discriminate).
    exists k, s. split; [|split].
    + rewrite nth_error_app1 by exact Hk. exact Hn.
    + rewrite firstn_app.
      replace (k - List.length p1) with 0 by lia.
      now rewrite app_nil_r.
    + rewrite firstn_app.
      replace (k - List.length p1) with 0 by lia.
      now rewrite app_nil_r.
Qed.

(** A step on its own: it goes through or it is the failing step. *)
Lemma follows_step {A} (s : step) (V : A -> Prop) (m : M A) :
  (forall w, (at_source db script path) w ->
     let '(r, w', t) := m w in
     (at_source db script path) w' /\ tidy t /\
     match r with
     | Ok a => V a /\ steps t = [(s, true)] /\ printed t = []
               /\ neo w' = apply_step (neo w) s
     | Raise _ => steps t = [(s, false)] /\ neo w' = neo w
     end) ->
  obeys [s] [] V m.
Proof.
  intros H w Hw. specialize (H w Hw).
  destruct (m w) as [[[a|e] w'] t].
  - exact H.
  - destruct H as (H1 & H2 & H3 & H4). split; [exact H1|]. split; [exact H2|].
    exists 0, s. repeat split; assumption.
Qed.

Lemma follows_select {A} (t : table) (rows : database -> list A) conn :
  obeys [SRead t] [] (fun df => df = rows db) (select_all t rows conn).
Proof.
  apply follows_step. intros [d g p qc fs h] (Hd & Hq & Hp); simpl in *.
  unfold select_all.
  destruct fs as [|[e|] fs]; simpl;
    (split; [repeat split; assumption|]); (split; [apply tidy_select|]);
    repeat split; now subst.
Qed.

Lemma follows_session_run ses q :
  obeys [SWrite q] [] (fun _ => True) (session_run ses q).
Proof.
  apply follows_step. intros [d g p qc fs h] (Hd & Hq & Hp); simpl in *.
  unfold session_run.
  destruct fs as [|[e|] fs]; simpl.
  - destruct (exec q g) as [e|[g' rows]] eqn:E; simpl;
      (split; [repeat split; assumption|]); (split; [apply tidy_run|]);
      repeat split; now rewrite ?E.
  - (split; [repeat split; assumption|]); (split; [apply tidy_run|]);
      repeat split.
  - destruct (exec q g) as [e|[g' rows]] eqn:E; simpl;
      (split; [repeat split; assumption|]); (split; [apply tidy_run|]);
      repeat split; now rewrite ?E.
Qed.

Lemma follows_with_session {A} plan out (V : A -> Prop) drv (body : nat -> M A) :
  (forall ses, obeys plan out V (body ses)) ->
  obeys plan out V (with_session drv body).
Proof.
  intros Hb [d g p qc fs h] Hw.
  unfold with_session, try_finally, fresh_handle, emit.
  cbn [pg neo queries_path queries_cypher faults next_handle].
  specialize (Hb h (mkWorld d g p qc fs (S h)) Hw).
  destruct (body h (mkWorld d g p qc fs (S h))) as [[r w'] t].
  destruct Hb as (Hw' & Ht & Hr).
  split; [exact Hw'|]. split; [now apply tidy_session|].
  assert (Hs : steps (ESession drv h :: t ++ [ESessionClose h]) = steps t).
  { change (steps ([ESession drv h] ++ t ++ [ESessionClose h]) = steps t).
    rewrite !steps_app. cbn. now rewrite app_nil_r. }
  assert (Hp : printed (ESession drv h :: t ++ [ESessionClose h]) = printed t).
  { change (printed ([ESession drv h] ++ t ++ [ESessionClose h]) = printed t).
    rewrite !printed_app. cbn. now rewrite app_nil_r. }
  unfold outcome in *. rewrite Hs, Hp. exact Hr.
Qed.

Lemma follows_run_cypher drv q :
  obeys [SWrite q] [] (fun _ => True) (run_cypher drv q).
Proof.
  apply follows_with_session. intro ses. apply follows_session_run.
Qed.

Lemma follows_for_each {A} (p : A -> list step) (o : A -> list string)
    (body : A -> M unit) (xs : list A) :
  (forall x, obeys (p x) (o x) (fun _ => True) (body x)) ->
  obeys (flat_map p xs) (flat_map o xs) (fun _ => True) (for_each xs body).
Proof.
  intro Hb. induction xs as [|x xs IH]; cbn [flat_map for_each].
  - now apply follows_ret.
  - eapply follows_bind; [apply Hb|]. intros _ _. exact IH.
Qed.

Lemma follows_try_except {A} plan out (V : A -> Prop) m (h : exn -> M A) :
  reraising h ->
  obeys plan out V m -> obeys plan out V (try_except m h).
Proof.
  intros Hh Hm w Hw. unfold try_except. specialize (Hm w Hw).
  destruct (m w) as [[[a|e] w1] t1]; [exact Hm|].
  destruct (Hh e w1) as (e' & t' & -> & Hs & Ht).
  destruct Hm as (Hw1 & Ht1 & k & s & Hn & Hs1 & Hg1).
  split; [exact Hw1|]. split; [now apply tidy_app|].
  exists k, s. rewrite steps_app, Hs, app_nil_r. repeat split; assumption.
Qed.

Lemma reraising_print_raise {A} (line : exn -> string) :
  reraising (fun e => print (line e) ;; @raise A e).
Proof.
  intros e w. exists e, [EPrint (line e)].
  repeat split; try reflexivity.
Qed.

Lemma reraising_raise {A} (f : exn -> exn) :
  reraising (fun e => @raise A (f e)).
Proof.
  intros e w. exists (f e), []. repeat split; try reflexivity.
Qed.

Lemma follows_eq {A} plan plan' out out' (V : A -> Prop) m :
  obeys plan out V m -> plan = plan' -> out = out' -> obeys plan' out' V m.
Proof. now intros H <- <-. Qed.

Lemma follows_then_ret {A} plan out (m : M A) :
  obeys plan out (fun _ => True) m ->
  obeys plan out (fun _ => True) (m ;; ret tt).
Proof.
  intro H. eapply follows_eq.
  - eapply follows_bind; [exact H|]. intros _ _. now apply follows_ret.
  - apply app_nil_r.
  - apply app_nil_r.
Qed.

(** The loop of a stage: one statement per row, in row order. *)
Lemma follows_rows {A} drv (stmt : A -> statement) (rows : list A) :
  obeys (map (fun row => SWrite (stmt row)) rows) [] (fun _ => True)
    (for_each rows (fun row => run_cypher drv (stmt row) ;; ret tt)).
Proof.
  eapply follows_eq.
  - apply (follows_for_each (fun row => [SWrite (stmt row)]) (fun _ => [])).
    intro row. apply follows_then_ret. apply follows_run_cypher.
  - induction rows as [|x rows IH]; [reflexivity|]. cbn. now rewrite IH.
  - induction rows as [|x rows IH]; [reflexivity|]. cbn. exact IH.
Qed.

(** *** The schema script *)

Lemma follows_run_statement ses total i s :
  obeys [SWrite (SchemaStatement s)] [executed_line i total] (fun _ => True)
    (run_statement ses total (i, s)).
Proof.
  unfold run_statement. apply follows_try_except.
  - apply (reraising_print_raise (error_line i)).
  - eapply follows_eq.
    + eapply follows_bind; [apply follows_session_run|].
      intros _ _. apply follows_print.
    + reflexivity.
    + reflexivity.
Qed.

Lemma follows_schema_loop ses total : forall stmts i,
  obeys (map (fun s => SWrite (SchemaStatement s)) stmts)
    (executed_lines total i stmts) (fun _ => True)
    (for_each (enumerate stmts i) (run_statement ses total)).
Proof.
  induction stmts as [|s r IH]; intro i; cbn [map executed_lines enumerate for_each].
  - now apply follows_ret.
  - eapply follows_eq.
    + eapply follows_bind; [apply follows_run_statement|].
      intros _ _. apply IH.
    + reflexivity.
    + reflexivity.
Qed.

Lemma follows_script_body drv content :
  obeys (map (fun s => SWrite (SchemaStatement s)) (statements_of content))
    (executing_line path
     :: executed_lines (List.length (statements_of content)) 1
          (statements_of content))
    (fun _ => True)
    (print (executing_line path) ;;
     with_session drv (fun session =>
       for_each (enumerate (statements_of content) 1)
         (run_statement session (List.length (statements_of content))))).
Proof.
  eapply follows_eq.
  - eapply follows_bind; [apply follows_print|]. intros _ _.
    apply follows_with_session. intro ses. apply follows_schema_loop.
  - reflexivity.
  - reflexivity.
Qed.

Lemma follows_run_cypher_file drv :
  obeys (schema_plan script) (schema_output script path) (fun _ => True)
    (run_cypher_file drv).
Proof.
  intros w Hw. pose proof Hw as (Hd & Hq & Hp).
  unfold run_cypher_file, schema_plan, schema_statements, schema_output,
    warning_line.
  rewrite Hq, Hp. destruct script as [content|] eqn:Hs;
    cbv iota; rewrite <- Hs in Hw |- *.
  - exact (follows_script_body drv content w Hw).
  - exact (follows_print _ w Hw).
Qed.

(** *** The stages of etl() *)

Ltac follows_seq :=
  repeat (eapply follows_bind;
          [ first [ apply follows_print | apply follows_select
                  | apply follows_rows | apply follows_run_cypher ]
          | intros ? ?; cbv beta in *; subst ]).

Lemma follows_schema_stage drv :
  obeys (schema_plan script) (schema_stage_output script path) (fun _ => True)
    (fun w =>
       match queries_cypher w with
       | Some _ =>
           (print (nl ^^ "[2/6] Setting up Neo4j schema...") ;;
            run_cypher_file drv) w
       | None =>
           print (nl ^^ "[2/6] No queries.cypher file found, skipping schema setup") w
       end).
Proof.
  assert (H1 : obeys (schema_plan script)
                 ((nl ^^ "[2/6] Setting up Neo4j schema...") :: (schema_output script path))
                 (fun _ => True)
                 (print (nl ^^ "[2/6] Setting up Neo4j schema...") ;;
                  run_cypher_file drv)).
  { eapply follows_eq.
    - eapply follows_bind; [apply follows_print|]. intros _ _.
      apply follows_run_cypher_file.
    - reflexivity.
    - reflexivity. }
  intros w Hw. pose proof Hw as (Hd & Hq & Hp). rewrite Hq.
  unfold schema_stage_output.
  destruct script as [content|] eqn:Hs; cbv iota;
    rewrite <- Hs in H1, Hw |- *.
  - exact (H1 w Hw).
  - assert (H2 : obeys (schema_plan script)
                   [nl ^^ "[2/6] No queries.cypher file found, skipping schema setup"]
                   (fun _ => True)
                   (print (nl ^^ "[2/6] No queries.cypher file found, skipping schema setup"))).
    { eapply follows_eq.
      - apply follows_print.
      - unfold schema_plan, schema_statements. now rewrite Hs.
      - reflexivity. }
    exact (H2 w Hw).
Qed.

Lemma follows_reset_graph drv :
  obeys (reset_plan script) (reset_output script path) (fun _ => True)
    (reset_graph drv).
Proof.
  unfold reset_graph, reset_plan, reset_output.
  eapply follows_eq.
  - follows_seq. apply follows_schema_stage.
  - reflexivity.
  - reflexivity.
Qed.

Ltac follows_stage :=
  eapply follows_eq;
  [ follows_seq; now apply follows_ret
  | cbn [app]; rewrite ?app_nil_r; reflexivity
  | reflexivity ].

Lemma follows_migrate_categories conn drv :
  obeys (stage_plan Categories category_statement (categories db))
    (categories_output db) (fun df => df = categories db)
    (migrate_categories conn drv).
Proof. unfold migrate_categories. follows_stage. Qed.

Lemma follows_migrate_products conn drv :
  obeys (stage_plan Products product_statement (products db))
    (products_output db) (fun df => df = products db)
    (migrate_products conn drv).
Proof. unfold migrate_products. follows_stage. Qed.

Lemma follows_migrate_customers conn drv :
  obeys (stage_plan Customers customer_statement (customers db))
    (customers_output db) (fun df => df = customers db)
    (migrate_customers conn drv).
Proof. unfold migrate_customers. follows_stage. Qed.

Lemma follows_migrate_orders conn drv :
  obeys (stage_plan Orders order_statement (orders db))
    (orders_output db) (fun df => df = orders db)
    (migrate_orders conn drv).
Proof. unfold migrate_orders. follows_stage. Qed.

Lemma follows_migrate_order_items conn drv :
  obeys (stage_plan OrderItems order_item_statement (order_items db))
    (order_items_output db) (fun df => df = order_items db)
    (migrate_order_items conn drv).
Proof. unfold migrate_order_items. follows_stage. Qed.

Lemma follows_migrate_events conn drv :
  obeys (stage_plan Events event_statement (events db))
    (events_output db) (fun df => df = events db)
    (migrate_events conn drv).
Proof. unfold migrate_events. follows_stage. Qed.

Lemma follows_print_summary :
  obeys [] (summary_output db) (fun _ => True)
    (print_summary (Py.str_of_len (categories db)) (Py.str_of_len (products db))
       (Py.str_of_len (customers db)) (Py.str_of_len (orders db))
       (Py.str_of_len (order_items db)) (Py.str_of_len (events db))).
Proof.
  unfold print_summary. eapply follows_eq.
  - follows_seq. apply follows_print.
  - reflexivity.
  - reflexivity.
Qed.

Lemma follows_etl_body conn drv :
  obeys (etl_plan db script) (etl_output db script path) (fun _ => True)
    (etl_body conn drv).
Proof.
  unfold etl_body, etl_plan, load_plan, etl_output.
  eapply follows_bind; [apply follows_reset_graph|]. intros _ _.
  eapply follows_bind; [apply follows_migrate_categories|]. intros ? ->.
  eapply follows_bind; [apply follows_migrate_products|]. intros ? ->.
  eapply follows_bind; [apply follows_migrate_customers|]. intros ? ->.
  eapply follows_bind; [apply follows_migrate_orders|]. intros ? ->.
  eapply follows_bind; [apply follows_migrate_order_items|]. intros ? ->.
  eapply follows_eq.
  - eapply follows_bind; [apply follows_migrate_events|]. intros ? ->.
    apply follows_print_summary.
  - apply app_nil_r.
  - reflexivity.
Qed.

(** *** The run proper *)

Lemma follows_etl_try conn drv :
  obeys (etl_plan db script) (etl_output db script path) (fun _ => True)
    (try_except (etl_body conn drv)
       (fun e => print (failed_line e) ;; raise e)).
Proof.
  apply follows_try_except.
  - apply (reraising_print_raise failed_line).
  - apply follows_etl_body.
Qed.

Lemma closing_eq c d line w :
  (pg_close c ;; driver_close d ;; print line) w
  = (Ok tt, w, [EPgClose c; EDriverClose d; EPrint line]).
Proof. reflexivity. Qed.

Lemma driver_eq d g p qc fs h :
  GraphDatabase_driver (mkWorld d g p qc fs h)
  = (Ok h, mkWorld d g p qc fs (S h), [EDriver h]).
Proof. reflexivity. Qed.

Lemma connect_eq d g p qc fs h :
  hd None fs = None ->
  psycopg2_connect (mkWorld d g p qc fs h)
  = (Ok h, mkWorld d g p qc (tl fs) (S h), [EPgConnect h]).
Proof. destruct fs as [|[e|] fs]; intro H; try discriminate; reflexivity. Qed.

Lemma connect_failed_eq d g p qc e fs h :
  psycopg2_connect (mkWorld d g p qc (Some e :: fs) h)
  = (Raise e, mkWorld d g p qc fs h, [EPgConnectFailed]).
Proof. reflexivity. Qed.

Lemma etl_run_spec w :
  (at_source db script path) w ->
  let '(r, w', t) := etl_run w in
  (at_source db script path) w'
  /\ (run_refused (neo w) r (neo w') t
      \/ (run_ended db script path) (neo w) (next_handle w) r (neo w') t).
Proof.
  destruct w as [d g p qc fs h]. intro Hw.
  unfold etl_run.
  do 4 (erewrite bind_ok by reflexivity; cbv beta iota).
  assert (Hgo : forall fs',
    let '(r, w', t) :=
      (neo4j_driver <- GraphDatabase_driver ;;
       try_finally
         (try_except (etl_body h neo4j_driver)
            (fun e => print (nl ^^ "✗ ETL process failed: " ^^ str_of_exn e) ;;
                      raise e))
         (pg_close h ;; driver_close neo4j_driver ;;
          print ("Database connections closed." ^^ nl)))
        (mkWorld d g p qc fs' (S h)) in
    (at_source db script path) w'
    /\ exists tb,
         t = EDriver (S h) :: tb
             ++ [EPgClose h; EDriverClose (S h); EPrint closing_line]
         /\ tidy tb
         /\ outcome (etl_plan db script) (etl_output db script path)
              (fun _ => True) g r (neo w') tb).
  { intro fs'. erewrite bind_ok by apply driver_eq. cbv beta iota.
    unfold try_finally.
    pose proof (follows_etl_try h (S h) (mkWorld d g p qc fs' (S (S h))) Hw)
      as Hb.
    unfold failed_line in Hb.
    destruct (try_except (etl_body h (S h))
                (fun e => print (nl ^^ "✗ ETL process failed: " ^^ str_of_exn e) ;;
                          raise e)
                (mkWorld d g p qc fs' (S (S h)))) as [[r wb] tb].
    rewrite closing_eq.
    destruct Hb as (Hwb & Htb & Hout).
    split; [exact Hwb|]. exists tb. repeat split; try assumption; apply Htb. }
  destruct fs as [|[e|] fs].
  - erewrite bind_ok by (now apply connect_eq). cbv beta iota.
    specialize (Hgo []).
    destruct ((neo4j_driver <- GraphDatabase_driver;; _) _) as [[r w'] t].
    destruct Hgo as (Hw' & tb & -> & Htb & Hout).
    split; [exact Hw'|]. right. exists tb. repeat split; try assumption; apply Htb.
  - erewrite bind_raise by apply connect_failed_eq.
    split; [exact Hw|]. left. repeat split. now exists e.
  - erewrite bind_ok by (now apply connect_eq). cbv beta iota.
    specialize (Hgo fs).
    destruct ((neo4j_driver <- GraphDatabase_driver;; _) _) as [[r w'] t].
    destruct Hgo as (Hw' & tb & -> & Htb & Hout).
    split; [exact Hw'|]. right. exists tb. repeat split; try assumption; apply Htb.
Qed.

End Follows.

(** ** POST /neo4j/migrate follows its own plan *)

Lemma follows_session_rows db script path {A} ses (stmt : A -> statement)
    (rows : list A) :
  follows db script path (map (fun row => SWrite (stmt row)) rows) []
    (fun _ => True)
    (for_each rows (fun row => session_run ses (stmt row) ;; ret tt)).
Proof.
  eapply follows_eq.
  - apply (follows_for_each db script path
             (fun row => [SWrite (stmt row)]) (fun _ => [])).
    intro row. apply follows_then_ret. apply follows_session_run.
  - induction rows as [|x rows IH]; [reflexivity|]. cbn. now rewrite IH.
  - induction rows as [|x rows IH]; [reflexivity|]. cbn. exact IH.
Qed.

Lemma follows_migrate_to_neo4j db script path conn drv :
  follows db script path (migrate_plan db) []
    (fun resp => resp = success_response) (migrate_to_neo4j conn drv).
Proof.
  unfold migrate_to_neo4j. apply follows_try_except.
  - apply (reraising_raise (fun e => HTTPException 500 (str_of_exn e))).
  - eapply follows_eq.
    + eapply follows_bind.
      * apply follows_with_session. intro ses.
        eapply follows_bind; [apply follows_session_run|]. intros _ _.
        eapply follows_bind; [apply follows_select|]. intros ? ->.
        eapply follows_bind; [apply follows_session_rows|]. intros _ _.
        eapply follows_bind; [apply follows_select|]. intros ? ->.
        eapply follows_bind; [apply follows_session_rows|]. intros _ _.
        eapply follows_bind; [apply follows_select|]. intros ? ->.
        eapply follows_bind; [apply follows_session_rows|]. intros _ _.
        eapply follows_bind; [apply follows_select|]. intros ? ->.
        eapply follows_bind; [apply follows_session_rows|]. intros _ _.
        eapply follows_bind; [apply follows_select|]. intros ? ->.
        eapply follows_bind; [apply follows_session_rows|]. intros _ _.
        eapply follows_bind; [apply follows_select|]. intros ? ->.
        apply follows_session_rows.
      * intros _ _. now apply follows_ret.
    + unfold migrate_plan, stage_plan. cbn [app].
      rewrite !app_nil_r. reflexivity.
    + reflexivity.
Qed.

(** ** The readiness gate leaves both stores as they are *)

Lemma unchanged_refl w : unchanged w w.
Proof. repeat split. Qed.

Lemma unchanged_trans w1 w2 w3 :
  unchanged w1 w2 -> unchanged w2 w3 -> unchanged w1 w3.
Proof.
  intros (A1 & A2 & A3 & A4) (B1 & B2 & B3 & B4).
  repeat split; congruence.
Qed.

Lemma probing_ret {A} (a : A) : probing (ret a).
Proof. intro w. split; [apply unchanged_refl|constructor]. Qed.

Lemma probing_raise {A} e : probing (@raise A e).
Proof. intro w. split; [apply unchanged_refl|constructor]. Qed.

Lemma probing_emit e : gate_event e -> probing (emit e).
Proof. intros He w. split; [apply unchanged_refl|now repeat constructor]. Qed.

Lemma probing_bind {A B} (m : M A) (f : A -> M B) :
  probing m -> (forall a, probing (f a)) -> probing (bind m f).
Proof.
  intros Hm Hf w. unfold bind. specialize (Hm w).
  destruct (m w) as [[[a|e] w1] t1]; [|exact Hm].
  specialize (Hf a w1). destruct (f a w1) as [[r w2] t2].
  destruct Hm as [U1 F1], Hf as [U2 F2]. split.
  - eapply unchanged_trans; eassumption.
  - apply Forall_app. now split.
Qed.

Lemma probing_try_except {A} (m : M A) h :
  probing m -> (forall e, probing (h e)) -> probing (try_except m h).
Proof.
  intros Hm Hh w. unfold try_except. specialize (Hm w).
  destruct (m w) as [[[a|e] w1] t1]; [exact Hm|].
  specialize (Hh e w1). destruct (h e w1) as [[r w2] t2].
  destruct Hm as [U1 F1], Hh as [U2 F2]. split.
  - eapply unchanged_trans; eassumption.
  - apply Forall_app. now split.
Qed.

Lemma probing_for_until {A} (xs : list A) body :
  (forall x, probing (body x)) -> probing (for_until xs body).
Proof.
  intro Hb. induction xs as [|x xs IH]; cbn [for_until].
  - apply probing_ret.
  - apply probing_bind; [apply Hb|]. intros [|]; [apply probing_ret|exact IH].
Qed.

Lemma probing_connect : probing psycopg2_connect.
Proof.
  intros [d g p qc fs h]. unfold psycopg2_connect.
  destruct fs as [|[e|] fs]; simpl; (split; [repeat split|now repeat constructor]).
Qed.

Lemma probing_driver : probing GraphDatabase_driver.
Proof.
  intros [d g p qc fs h]. simpl. split; [repeat split|now repeat constructor].
Qed.

Lemma probing_probe drv :
  probing (with_session drv (fun session => session_run session Return1)).
Proof.
  intros [d g p qc fs h].
  unfold with_session, try_finally, session_run, fresh_handle, emit.
  destruct fs as [|[e|] fs]; simpl; (split; [repeat split|now repeat constructor]).
Qed.

Lemma probing_wait_for_postgres max_retries delay :
  probing (wait_for_postgres max_retries delay).
Proof.
  unfold wait_for_postgres.
  apply probing_bind; [now apply probing_emit|]. intros _.
  apply probing_for_until. intro a. unfold pg_attempt.
  apply probing_try_except.
  - apply probing_bind; [apply probing_connect|]. intro c.
    apply probing_bind; [now apply probing_emit|]. intros _.
    apply probing_bind; [now apply probing_emit|]. intros _.
    apply probing_ret.
  - intros [m|m|m c|s d]; try apply probing_raise.
    destruct (a <? max_retries - 1)%Z; [|apply probing_raise].
    apply probing_bind; [now apply probing_emit|]. intros _.
    apply probing_bind; [now apply probing_emit|]. intros _.
    apply probing_ret.
Qed.

Lemma probing_wait_for_neo4j max_retries delay :
  probing (wait_for_neo4j max_retries delay).
Proof.
  unfold wait_for_neo4j.
  apply probing_bind; [now apply probing_emit|]. intros _.
  apply probing_for_until. intro a. unfold neo4j_attempt.
  apply probing_try_except.
  - apply probing_bind; [apply probing_driver|]. intro drv.
    apply probing_bind; [apply probing_probe|]. intros _.
    apply probing_bind; [now apply probing_emit|]. intros _.
    apply probing_bind; [now apply probing_emit|]. intros _.
    apply probing_ret.
  - intro e. destruct (a <? max_retries - 1)%Z; [|apply probing_raise].
    apply probing_bind; [now apply probing_emit|]. intros _.
    apply probing_bind; [now apply probing_emit|]. intros _.
    apply probing_ret.
Qed.

(** ** etl() as a whole *)

Lemma at_source_self w : at_source (pg w) (queries_cypher w) (queries_path w) w.
Proof. repeat split. Qed.

Lemma unchanged_at_source w w' :
  unchanged w w' -> at_source (pg w) (queries_cypher w) (queries_path w) w'.
Proof. intros (H1 & _ & H3 & H4). repeat split; assumption. Qed.

Lemma etl_spec w : let '(r, w', t) := etl w in etl_ended w r w' t.
Proof.
  unfold etl, bind.
  pose proof (probing_wait_for_postgres 30 2 w) as H1.
  destruct (wait_for_postgres 30 2 w) as [[[[]|e1] w1] t1];
    destruct H1 as [U1 F1].
  - pose proof (probing_wait_for_neo4j 30 2 w1) as H2.
    destruct (wait_for_neo4j 30 2 w1) as [[[[]|e2] w2] t2];
      destruct H2 as [U2 F2].
    + pose proof (unchanged_trans _ _ _ U1 U2) as U.
      pose proof (etl_run_spec (pg w) (queries_cypher w) (queries_path w) w2
                    (unchanged_at_source _ _ U)) as H3.
      destruct (etl_run w2) as [[r w3] t3].
      destruct H3 as ((S1 & S2 & S3) & Hrun).
      destruct U as (_ & Ug & _ & _).
      split; [repeat split; assumption|].
      exists (t1 ++ t2), t3.
      split; [now rewrite app_assoc|]. split; [now apply Forall_app|].
      rewrite <- Ug. right.
      destruct Hrun as [Hrun|Hrun]; [now left|right].
      now exists (next_handle w2).
    + pose proof (unchanged_trans _ _ _ U1 U2) as (Up & Ug & Uq & Upath).
      split; [repeat split; assumption|].
      exists (t1 ++ t2), [].
      split; [now rewrite app_nil_r|]. split; [now apply Forall_app|].
      left. repeat split; [now exists e2|exact Ug].
  - destruct U1 as (Up & Ug & Uq & Upath).
    split; [repeat split; assumption|].
    exists t1, [].
    split; [now rewrite app_nil_r|]. split; [exact F1|].
    left. repeat split; [now exists e1|exact Ug].
Qed.

(** ** Stage order (C2) *)

Lemma stages_app t1 t2 : stages (t1 ++ t2) = stages t1 ++ stages t2.
Proof. unfold stages. now rewrite steps_app, flat_map_app. Qed.

Lemma plan_stages_app p1 p2 :
  plan_stages (p1 ++ p2) = plan_stages p1 ++ plan_stages p2.
Proof. apply flat_map_app. Qed.

Lemma stages_of_done plan :
  flat_map (fun sb : step * bool => stage_of_step (fst sb)) (done plan)
  = plan_stages plan.
Proof.
  induction plan as [|s plan IH]; [reflexivity|].
  cbn [done map flat_map fst plan_stages]. f_equal. exact IH.
Qed.

Lemma stages_gate tg : Forall gate_event tg -> stages tg = [].
Proof.
  induction 1 as [|e tg He _ IH]; [reflexivity|].
  change (e :: tg) with ([e] ++ tg). rewrite stages_app, IH, app_nil_r.
  destruct e; try reflexivity; simpl in He; [contradiction|now subst].
Qed.

Lemma stages_prints ls : stages (map EPrint ls) = [].
Proof. induction ls as [|l ls IH]; [reflexivity|exact IH]. Qed.

Lemma plan_stages_stage {A} t (stmt : A -> statement) rows :
  (forall row, stage_of_statement (stmt row) = [t]) ->
  plan_stages (stage_plan t stmt rows) = stage_block t rows.
Proof.
  intro H. unfold stage_plan, stage_block, plan_stages.
  cbn [flat_map stage_of_step app repeat]. f_equal.
  induction rows as [|x rows IH]; [reflexivity|].
  cbn [map flat_map stage_of_step List.length repeat]. now rewrite H, IH.
Qed.

Lemma plan_stages_schema script : plan_stages (schema_plan script) = [].
Proof.
  unfold schema_plan. induction (schema_statements script) as [|s l IH];
    [reflexivity|exact IH].
Qed.

Lemma plan_stages_etl db script :
  plan_stages (etl_plan db script) = etl_stages db.
Proof.
  unfold etl_plan, reset_plan, load_plan, etl_stages.
  change (SWrite DetachDeleteAll :: schema_plan script)
    with ([SWrite DetachDeleteAll] ++ schema_plan script).
  rewrite !plan_stages_app, plan_stages_schema.
  now rewrite !plan_stages_stage by reflexivity.
Qed.

Lemma plan_stages_migrate db : plan_stages (migrate_plan db) = migrate_stages db.
Proof.
  unfold migrate_plan, migrate_stages.
  change (plan_stages
            ([SWrite DetachDeleteAll]
             ++ stage_plan Customers customer_statement (customers db)
             ++ stage_plan Categories category_statement (categories db)
             ++ stage_plan Products product_statement (products db)
             ++ stage_plan Orders order_statement_str (orders db)
             ++ stage_plan OrderItems order_item_statement (order_items db)
             ++ stage_plan Events event_statement_str (events db))
          = migrate_stages db).
  rewrite !plan_stages_app.
  now rewrite !plan_stages_stage by reflexivity.
Qed.

(** The stages of a prefix of a plan are a prefix of the plan's stages. *)
Lemma plan_stages_firstn plan : forall k,
  exists j, plan_stages (firstn k plan) = firstn j (plan_stages plan).
Proof.
  induction plan as [|s plan IH]; intro k.
  - exists 0. now rewrite firstn_nil.
  - destruct k as [|k]; [now exists 0|].
    destruct (IH k) as [j Hj].
    exists (List.length (stage_of_step s) + j).
    cbn [firstn plan_stages flat_map]. fold (plan_stages (firstn k plan)).
    fold (plan_stages plan). now rewrite firstn_app_2, Hj.
Qed.

(** Under [outcome], the stages of the trace are a prefix of the plan's
    stages, and all of them when the computation returns. *)
Lemma outcome_stages {A} plan out (V : A -> Prop) g r g' t :
  outcome plan out V g r g' t ->
  (exists j, stages t = firstn j (plan_stages plan))
  /\ (forall a, r = Ok a -> stages t = plan_stages plan).
Proof.
  unfold outcome, stages. destruct r as [a|e].
  - intros (_ & Hs & _). rewrite Hs, stages_of_done. split.
    + exists (List.length (plan_stages plan)). now rewrite firstn_all.
    + reflexivity.
  - intros (k & s & Hn & Hs & _). split; [|intros a Ha; discriminate].
    rewrite Hs, flat_map_app, stages_of_done. cbn [flat_map fst].
    rewrite app_nil_r.
    destruct (plan_stages_firstn plan (S k)) as [j Hj]. exists j.
    rewrite <- Hj, (nth_error_firstn_S _ _ _ Hn), plan_stages_app.
    cbn [plan_stages flat_map]. now rewrite app_nil_r.
Qed.

Lemma stages_run_ended db script path g c r g' t :
  run_ended db script path g c r g' t ->
  (exists j, stages t = firstn j (etl_stages db))
  /\ (forall a, r = Ok a -> stages t = etl_stages db).
Proof.
  intros (tb & -> & _ & Hout).
  rewrite !stages_app, stages_prints. cbn [app].
  change (stages [EPgConnect c; EDriver (S c)]) with (@nil table).
  change (stages [EPgClose c; EDriverClose (S c); EPrint closing_line])
    with (@nil table).
  rewrite app_nil_r. cbn [app].
  rewrite <- (plan_stages_etl db script).
  exact (outcome_stages _ _ _ _ _ _ _ Hout).
Qed.

Lemma etl_ended_stages w r w' t :
  etl_ended w r w' t ->
  (exists j, stages t = firstn j (etl_stages (pg w)))
  /\ (r = Ok tt -> stages t = etl_stages (pg w)).
Proof.
  intros (_ & tg & tr & -> & Hg & Hcase).
  rewrite stages_app, (stages_gate _ Hg). cbn [app].
  destruct Hcase as [([e ->] & -> & _)|[([e ->] & _ & ->)|[c Hrun]]].
  - split; [now exists 0|discriminate].
  - split; [exists 0|discriminate].
    now rewrite stages_app, stages_prints.
  - destruct (stages_run_ended _ _ _ _ _ _ _ _ Hrun) as [H1 H2].
    split; [exact H1|]. intro Hr. now apply (H2 tt).
Qed.

(** C2, as the code has it.  In every call of etl() the store calls work
    on Categories, then Products, then Customers, then Orders, then Order
    Items, then Events, each stage being its read followed by its rows and
    complete before the next one starts; a failing call cuts the sequence
    short.  POST /neo4j/migrate goes through the same stages with
    Customers first and Categories second. *)
Theorem stage_order :
  forall w : world,
    (let '(r, _, t) := etl w in
     (exists j, stages t = firstn j (etl_stages (pg w)))
     /\ (r = Ok tt -> stages t = etl_stages (pg w)))
    /\ (forall conn drv,
          let '(r, _, t) := migrate_to_neo4j conn drv w in
          (exists j, stages t = firstn j (migrate_stages (pg w)))
          /\ (forall resp, r = Ok resp -> stages t = migrate_stages (pg w))).
Proof.
  intro w. split.
  - pose proof (etl_spec w) as H.
    destruct (etl w) as [[r w'] t]. now apply etl_ended_stages in H.
  - intros conn drv.
    pose proof (follows_migrate_to_neo4j (pg w) (queries_cypher w)
                  (queries_path w) conn drv w (at_source_self w)) as H.
    destruct (migrate_to_neo4j conn drv w) as [[r w'] t].
    destruct H as (_ & _ & Hout).
    rewrite <- plan_stages_migrate.
    exact (outcome_stages _ _ _ _ _ _ _ Hout).
Qed.

Lemma stage_order_witness :
  fst (fst (etl small_world)) = Ok tt
  /\ stages (snd (etl small_world))
     = [Categories; Categories; Products; Customers; Customers; Orders;
        OrderItems; Events].
Proof.
  pose proof (stage_order small_world) as [H _].
  destruct (etl small_world) as [[r w'] t] eqn:E.
  assert (Hr : r = Ok tt).
  { apply (f_equal (fun x => fst (fst x))) in E. vm_compute in E. now subst r. }
  split; [exact Hr|]. cbn [snd]. rewrite (proj2 H Hr). reflexivity.
Defined.

(** C2 as stated does not hold: a successful POST /neo4j/migrate works on
    Customers before Categories. *)
Lemma migrate_customers_first :
  fst (fst (migrate_to_neo4j 0 1 small_world)) = Ok success_response
  /\ stages (snd (migrate_to_neo4j 0 1 small_world))
     = [Customers; Customers; Categories; Categories; Products; Orders;
        OrderItems; Events]
  /\ stages (snd (migrate_to_neo4j 0 1 small_world))
     <> etl_stages (pg small_world).
Proof. repeat split. discriminate. Qed.

(** ** The closing report (C3) *)

Lemma printed_prints ls : printed (map EPrint ls) = ls.
Proof.
  induction ls as [|l ls IH]; [reflexivity|].
  cbn [map printed flat_map app]. f_equal. exact IH.
Qed.

Lemma etl_output_counts db script path :
  exists before after,
    etl_output db script path = before ++ count_lines db ++ after.
Proof.
  unfold etl_output, summary_output.
  exists (reset_output script path ++ categories_output db
          ++ products_output db ++ customers_output db ++ orders_output db
          ++ order_items_output db ++ events_output db
          ++ [nl ^^ banner; "ETL Process Completed Successfully!"; banner;
              nl ^^ "Migrated:"]).
  exists [nl ^^ "Graph structure created:";
          "  • Category ← IN_CATEGORY ← Product";
          "  • Customer → PLACED → Order → CONTAINS → Product";
          "  • Customer → INTERACTED → Product";
          ""].
  rewrite <- !app_assoc. reflexivity.
Qed.

Lemma etl_ended_counts w r w' t :
  etl_ended w r w' t ->
  r = Ok tt ->
  exists before after, printed t = before ++ count_lines (pg w) ++ after.
Proof.
  intros (_ & tg & tr & -> & _ & Hcase) ->.
  destruct Hcase as [([e He] & _)|[([e He] & _)|[c Hrun]]]; try discriminate.
  destruct Hrun as (tb & -> & _ & (_ & _ & Hp & _)).
  destruct (etl_output_counts (pg w) (queries_cypher w) (queries_path w))
    as (b & a & Hc).
  rewrite !printed_app, printed_prints, Hp, Hc.
  exists (printed tg ++ start_output ++ printed [EPgConnect c; EDriver (S c)] ++ b).
  exists (a ++ printed [EPgClose c; EDriverClose (S c); EPrint closing_line]).
  now rewrite <- !app_assoc.
Qed.

(** C3, as the code has it.  etl() returns nothing; when it completes,
    the six per-entity counts, each the number of rows read from its
    table, are among the lines it has printed.  POST /neo4j/migrate, when
    it completes, answers with a fixed status message and prints nothing. *)
Theorem counts_are_printed :
  forall w : world,
    (let '(r, _, t) := etl w in
     r = Ok tt ->
     exists before after, printed t = before ++ count_lines (pg w) ++ after)
    /\ (forall conn drv,
          let '(r, _, t) := migrate_to_neo4j conn drv w in
          forall resp, r = Ok resp -> resp = success_response /\ printed t = []).
Proof.
  intro w. split.
  - pose proof (etl_spec w) as H.
    destruct (etl w) as [[r w'] t].
    intro Hr. exact (etl_ended_counts _ _ _ _ H Hr).
  - intros conn drv.
    pose proof (follows_migrate_to_neo4j (pg w) (queries_cypher w)
                  (queries_path w) conn drv w (at_source_self w)) as H.
    destruct (migrate_to_neo4j conn drv w) as [[r w'] t].
    destruct H as (_ & _ & Hout).
    intros resp ->. destruct Hout as (Hv & _ & Hp & _). now split.
Qed.

Lemma counts_are_printed_witness :
  fst (fst (etl small_world)) = Ok tt
  /\ exists before after,
       printed (snd (etl small_world))
       = before
         ++ ["  • 1 categories"; "  • 0 products"; "  • 1 customers";
             "  • 0 orders"; "  • 0 order items"; "  • 0 customer events"]
         ++ after.
Proof.
  pose proof (counts_are_printed small_world) as [H _].
  destruct (etl small_world) as [[r w'] t] eqn:E.
  assert (Hr : r = Ok tt).
  { apply (f_equal (fun x => fst (fst x))) in E. vm_compute in E. now subst r. }
  split; [exact Hr|]. exact (H Hr).
Defined.

(** C3 as stated does not hold: two completed runs over sources of
    different sizes hand the caller the same value, so the value carries
    no counts. *)
Lemma run_result_carries_no_counts :
  fst (fst (etl small_world)) = Ok tt
  /\ fst (fst (etl empty_shop_world)) = Ok tt
  /\ fst (fst (migrate_to_neo4j 0 1 small_world)) = Ok success_response
  /\ fst (fst (migrate_to_neo4j 0 1 empty_shop_world)) = Ok success_response
  /\ List.length (categories (pg small_world))
     <> List.length (categories (pg empty_shop_world)).
Proof. repeat split. discriminate. Qed.

(** ** The wipe and the projection (C5) *)

Lemma apply_steps_schema_prefix script k g :
  apply_steps (firstn k (schema_plan script)) g = g.
Proof.
  unfold schema_plan. revert k.
  induction (schema_statements script) as [|s l IH]; intro k.
  - now rewrite firstn_nil.
  - destruct k as [|k]; [reflexivity|]. cbn [map firstn]. apply IH.
Qed.

(** A prefix of etl()'s plan is empty, or wipes and then loads a prefix of
    the rows. *)
Lemma apply_steps_etl_prefix db script g k :
  k = 0
  \/ exists k', apply_steps (firstn k (etl_plan db script)) g
                = apply_steps (firstn k' (load_plan db)) empty_graph.
Proof.
  destruct k as [|k]; [now left|right].
  unfold etl_plan, reset_plan. cbn [app firstn].
  exists (k - List.length (schema_plan script)).
  rewrite firstn_app.
  change (apply_steps (SWrite DetachDeleteAll :: ?l) g)
    with (apply_steps l empty_graph).
  now rewrite apply_steps_app, apply_steps_schema_prefix.
Qed.

Lemma apply_steps_etl db script g :
  apply_steps (etl_plan db script) g = projection db.
Proof.
  unfold etl_plan, reset_plan, projection. cbn [app].
  change (apply_steps (SWrite DetachDeleteAll :: ?l) g)
    with (apply_steps l empty_graph).
  rewrite apply_steps_app.
  rewrite <- (firstn_all (schema_plan script)) at 1.
  now rewrite apply_steps_schema_prefix.
Qed.

(** Where the graph stands when an [outcome] over a plan that starts with
    the wipe is reached. *)
Lemma outcome_etl_graph db script out g r g' t :
  outcome (etl_plan db script) out (fun _ : unit => True) g r g' t ->
  (r = Ok tt -> g' = projection db)
  /\ ((raised r /\ g' = g)
      \/ exists k, g' = apply_steps (firstn k (load_plan db)) empty_graph).
Proof.
  unfold outcome. destruct r as [[]|e].
  - intros (_ & _ & _ & ->). rewrite apply_steps_etl. split; [reflexivity|].
    right. exists (List.length (load_plan db)). now rewrite firstn_all.
  - intros (k & s & _ & _ & ->). split; [discriminate|].
    destruct (apply_steps_etl_prefix db script g k) as [->|[k' Hk']].
    + left. split; [now exists e|reflexivity].
    + right. now exists k'.
Qed.

Lemma outcome_migrate_graph db out g (r : result response) g' t V :
  outcome (migrate_plan db) out V g r g' t ->
  (forall resp, r = Ok resp -> g' = migrate_projection db)
  /\ ((raised r /\ g' = g)
      \/ exists k, g' = apply_steps (firstn k (migrate_load_plan db)) empty_graph).
Proof.
  unfold outcome. destruct r as [resp|e].
  - intros (_ & _ & _ & ->). split; [reflexivity|].
    right. exists (List.length (migrate_load_plan db)). now rewrite firstn_all.
  - intros (k & s & _ & _ & ->). split; [discriminate|].
    destruct k as [|k].
    + left. split; [now exists e|reflexivity].
    + right. now exists k.
Qed.

Lemma executed_steps t : executed t = writes (steps t).
Proof.
  induction t as [|e t IH]; [reflexivity|].
  change (e :: t) with ([e] ++ t).
  rewrite executed_app, steps_app. unfold writes in *.
  rewrite flat_map_app, <- IH. now destruct e.
Qed.

Lemma sent_app t1 t2 : sent (t1 ++ t2) = sent t1 ++ sent t2.
Proof. unfold sent. now rewrite executed_app, filter_app. Qed.

Lemma sent_gate tg : Forall gate_event tg -> sent tg = [].
Proof.
  induction 1 as [|e tg He _ IH]; [reflexivity|].
  change (e :: tg) with ([e] ++ tg). rewrite sent_app, IH, app_nil_r.
  destruct e; try reflexivity. simpl in He. now subst.
Qed.

Lemma sent_prints ls : sent (map EPrint ls) = [].
Proof. induction ls as [|l ls IH]; [reflexivity|exact IH]. Qed.

Lemma outcome_first_write {A} q plan out (V : A -> Prop) g r g' t :
  outcome (SWrite q :: plan) out V g r g' t ->
  exists rest, executed t = q :: rest.
Proof.
  rewrite executed_steps. unfold outcome. destruct r as [a|e].
  - intros (_ & -> & _). now eexists.
  - intros (k & s & Hn & -> & _). destruct k as [|k].
    + injection Hn as <-. now eexists.
    + now eexists.
Qed.

Lemma run_ended_sent db script path g c r g' t :
  run_ended db script path g c r g' t ->
  exists rest, sent t = DetachDeleteAll :: rest.
Proof.
  intros (tb & -> & _ & Hout).
  destruct (outcome_first_write _ _ _ _ _ _ _ _ Hout) as [rest Hrest].
  rewrite !sent_app, sent_prints.
  change (sent [EPgConnect c; EDriver (S c)]) with (@nil statement).
  change (sent [EPgClose c; EDriverClose (S c); EPrint closing_line])
    with (@nil statement).
  unfold sent. rewrite Hrest, app_nil_r. cbn [app filter]. now eexists.
Qed.

Lemma etl_ended_graph w r w' t :
  etl_ended w r w' t ->
  (sent t = [] \/ exists rest, sent t = DetachDeleteAll :: rest)
  /\ (r = Ok tt -> neo w' = projection (pg w))
  /\ ((raised r /\ neo w' = neo w)
      \/ exists k,
           neo w' = apply_steps (firstn k (load_plan (pg w))) empty_graph).
Proof.
  intros (_ & tg & tr & -> & Hg & Hcase).
  rewrite sent_app, (sent_gate _ Hg). cbn [app].
  destruct Hcase as [(Hr & -> & Hn)|[(Hr & Hn & ->)|[c Hrun]]].
  - split; [now left|]. split; [|now left].
    destruct Hr as [e ->]. discriminate.
  - split; [left; now rewrite sent_app, sent_prints|].
    split; [|now left]. destruct Hr as [e ->]. discriminate.
  - split; [right; now apply (run_ended_sent _ _ _ _ _ _ _ _ Hrun)|].
    destruct Hrun as (tb & _ & _ & Hout).
    now apply outcome_etl_graph in Hout.
Qed.

(** C5, as the code has it.  The first statement a run sends, the
    readiness probes apart, is the wipe.  After etl() the graph is either
    untouched, the run having failed before or at the wipe, or built on
    an empty graph from the first rows of the source, and from all of
    them, that is the projection of the source, when the run completed.
    The same holds for POST /neo4j/migrate with its own stage order. *)
Theorem wipe_then_projection :
  forall w : world,
    (let '(r, w', t) := etl w in
     (sent t = [] \/ exists rest, sent t = DetachDeleteAll :: rest)
     /\ (r = Ok tt -> neo w' = projection (pg w))
     /\ ((raised r /\ neo w' = neo w)
         \/ exists k,
              neo w' = apply_steps (firstn k (load_plan (pg w))) empty_graph))
    /\ (forall conn drv,
          let '(r, w', t) := migrate_to_neo4j conn drv w in
          (exists rest, executed t = DetachDeleteAll :: rest)
          /\ (forall resp, r = Ok resp -> neo w' = migrate_projection (pg w))
          /\ ((raised r /\ neo w' = neo w)
              \/ exists k,
                   neo w' = apply_steps (firstn k (migrate_load_plan (pg w)))
                              empty_graph)).
Proof.
  intro w. split.
  - pose proof (etl_spec w) as H.
    destruct (etl w) as [[r w'] t]. now apply etl_ended_graph.
  - intros conn drv.
    pose proof (follows_migrate_to_neo4j (pg w) (queries_cypher w)
                  (queries_path w) conn drv w (at_source_self w)) as H.
    destruct (migrate_to_neo4j conn drv w) as [[r w'] t].
    destruct H as (_ & _ & Hout). split.
    + exact (outcome_first_write _ _ _ _ _ _ _ _ Hout).
    + now apply outcome_migrate_graph in Hout.
Qed.

Lemma wipe_then_projection_witness :
  fst (fst (etl sentinel_world)) = Ok tt
  /\ neo (snd (fst (etl sentinel_world))) = projection small_shop.
Proof.
  pose proof (wipe_then_projection sentinel_world) as [H _].
  destruct (etl sentinel_world) as [[r w'] t] eqn:E.
  assert (Hr : r = Ok tt).
  { apply (f_equal (fun x => fst (fst x))) in E. vm_compute in E. now subst r. }
  split; [exact Hr|]. exact (proj1 (proj2 H) Hr).
Defined.

(** C5 as stated does not hold: a run whose wipe fails ends with the
    content that predates it still in the graph. *)
Lemma failed_wipe_keeps_old_content :
  fst (fst (etl failing_wipe_world)) = Raise (StoreError "out of memory")
  /\ neo (snd (fst (etl failing_wipe_world))) = sentinel_graph
  /\ In (mkNode "Sentinel" []) (nodes (neo (snd (fst (etl failing_wipe_world))))).
Proof.
  split; [vm_compute; reflexivity|].
  split; [vm_compute; reflexivity|].
  vm_compute. now left.
Qed.

(** ** Release of connections and sessions (C9) *)

Lemma run_cypher_trace drv q w :
  let '(_, _, t) := run_cypher drv q w in
  exists ok,
    t = [ESession drv (next_handle w); ERun (next_handle w) q ok;
         ESessionClose (next_handle w)].
Proof.
  destruct w as [d g p qc fs h].
  unfold run_cypher, with_session, try_finally, session_run, fresh_handle, emit.
  cbn [next_fault faults next_handle pg neo queries_path queries_cypher].
  destruct fs as [|[e|] fs]; cbn [next_fault faults neo];
    try destruct (exec q g) as [e'|[g' rows]]; now eexists.
Qed.

(** C9. Every query run through run_cypher has its session entered just
    before and left just after, whether the query returns or raises.  A
    run either is refused its relational connection, and then has opened
    nothing, or opens the connection and the driver, does its work in a
    part of the trace that touches neither and closes every session it
    opens, and closes both at the end, whether it returns or raises.  The
    schema script's session is closed the same way. *)
Theorem connections_released_on_every_path :
  forall w : world,
    (forall drv q,
        let '(_, _, t) := run_cypher drv q w in
        exists ok,
          t = [ESession drv (next_handle w); ERun (next_handle w) q ok;
               ESessionClose (next_handle w)])
    /\ (forall drv, let '(_, _, t) := run_cypher_file drv w in tidy t)
    /\ (let '(r, _, t) := etl_run w in
        (raised r /\ t = map EPrint start_output ++ [EPgConnectFailed])
        \/ exists tb,
             t = map EPrint start_output
                 ++ [EPgConnect (next_handle w); EDriver (S (next_handle w))]
                 ++ tb
                 ++ [EPgClose (next_handle w); EDriverClose (S (next_handle w));
                     EPrint closing_line]
             /\ tidy tb).
Proof.
  intro w. split; [|split].
  - intros drv q. apply run_cypher_trace.
  - intro drv.
    pose proof (follows_run_cypher_file (pg w) (queries_cypher w)
                  (queries_path w) drv w (at_source_self w)) as H.
    destruct (run_cypher_file drv w) as [[r w'] t]. apply H.
  - pose proof (etl_run_spec (pg w) (queries_cypher w) (queries_path w) w
                  (at_source_self w)) as H.
    destruct (etl_run w) as [[r w'] t].
    destruct H as (_ & [(Hr & _ & Ht)|(tb & Ht & Htb & _)]).
    + left. now split.
    + right. now exists tb.
Qed.

(** ** Dangling references (C1) *)

Lemma create_rels_no_source rt ps dsts g : create_rels rt ps [] dsts g = g.
Proof. reflexivity. Qed.

Lemma create_rels_no_target rt ps srcs g : create_rels rt ps srcs [] g = g.
Proof.
  unfold create_rels. induction srcs as [|a srcs IH]; [reflexivity|exact IH].
Qed.

(** With an endpoint missing the statement matches nothing: the store
    answers without error and the graph is as before. *)
Lemma exec_dangling_contains row g :
  match_nodes "Order" (oi_order_id row) g = []
  \/ match_nodes "Product" (oi_product_id row) g = [] ->
  exec (order_item_statement row) g = inr (g, []).
Proof.
  unfold order_item_statement, exec. intros [->| ->].
  - now rewrite create_rels_no_source.
  - now rewrite create_rels_no_target.
Qed.

Lemma run_contains_eq drv row d g p qc fs h :
  hd None fs = None ->
  run_cypher drv (order_item_statement row) (mkWorld d g p qc fs h)
  = (Ok [],
     mkWorld d
       (create_rels "CONTAINS" [("quantity", VInt (oi_quantity row))]
          (match_nodes "Order" (oi_order_id row) g)
          (match_nodes "Product" (oi_product_id row) g) g)
       p qc (tl fs) (S h),
     [ESession drv h; ERun h (order_item_statement row) true; ESessionClose h]).
Proof.
  destruct fs as [|[e|] fs]; intro H; try discriminate; reflexivity.
Qed.

Lemma no_fault_hd n fs : no_fault (S n) fs -> hd None fs = None.
Proof.
  destruct fs as [|[e|] fs]; intro H; try reflexivity.
  now apply no_fault_some in H.
Qed.

Lemma no_fault_tl n fs : no_fault (S n) fs -> no_fault n (tl fs).
Proof.
  destruct fs as [|[e|] fs]; intro H.
  - unfold no_fault. rewrite firstn_nil. constructor.
  - now apply no_fault_some in H.
  - now apply (proj1 (no_fault_cons _ _)) in H.
Qed.

(** The order-items loop when the store answers every call: it goes
    through all rows, whatever they refer to. *)
Lemma contains_loop_completes drv : forall rows d g p qc fs h,
  no_fault (List.length rows) fs ->
  exists g' t,
    for_each rows
      (fun row => run_cypher drv (order_item_statement row) ;; ret tt)
      (mkWorld d g p qc fs h)
    = (Ok tt,
       mkWorld d g' p qc (skipn (List.length rows) fs) (List.length rows + h), t)
    /\ printed t = [].
Proof.
  induction rows as [|row rows IH]; intros d g p qc fs h Hnf.
  - exists g, []. now split.
  - cbn [List.length] in Hnf. rewrite for_each_cons.
    pose proof (run_contains_eq drv row d g p qc fs h (no_fault_hd _ _ Hnf)) as E.
    destruct (IH d
                (create_rels "CONTAINS" [("quantity", VInt (oi_quantity row))]
                   (match_nodes "Order" (oi_order_id row) g)
                   (match_nodes "Product" (oi_product_id row) g) g)
                p qc (tl fs) (S h) (no_fault_tl _ _ Hnf)) as (g' & t & Hloop & Hp).
    exists g', ([ESession drv h; ERun h (order_item_statement row) true;
                 ESessionClose h] ++ t).
    split.
    + erewrite bind_ok
        by (erewrite bind_ok by exact E; cbv beta iota; reflexivity).
      cbv beta iota. rewrite Hloop.
      replace (skipn (List.length rows) (tl fs))
        with (skipn (List.length (row :: rows)) fs)
        by (destruct fs; cbn [tl List.length skipn];
            [now rewrite skipn_nil|reflexivity]).
      replace (List.length rows + S h) with (List.length (row :: rows) + h)
        by (cbn [List.length]; lia).
      now rewrite app_nil_r.
    + rewrite printed_app, Hp. reflexivity.
Qed.

Lemma select_eq {A} t (rows : database -> list A) conn d g p qc fs h :
  hd None fs = None ->
  select_all t rows conn (mkWorld d g p qc fs h)
  = (Ok (rows d), mkWorld d g p qc (tl fs) h, [ESelect conn t true]).
Proof. destruct fs as [|[e|] fs]; intro H; try discriminate; reflexivity. Qed.

Lemma migrate_order_items_completes conn drv d g p qc fs h :
  no_fault (S (List.length (order_items d))) fs ->
  let '(r, _, t) := migrate_order_items conn drv (mkWorld d g p qc fs h) in
  r = Ok (order_items d) /\ printed t = order_items_output d.
Proof.
  intro Hnf. unfold migrate_order_items.
  erewrite bind_ok by (apply select_eq; exact (no_fault_hd _ _ Hnf)).
  cbv beta iota.
  erewrite bind_ok by reflexivity. cbv beta iota.
  destruct (contains_loop_completes drv (order_items d) d g p qc (tl fs) h
              (no_fault_tl _ _ Hnf)) as (g' & t & Hloop & Hp).
  erewrite bind_ok by exact Hloop. cbv beta iota.
  erewrite bind_ok by reflexivity. cbv beta iota.
  cbn [ret]. split; [reflexivity|].
  rewrite !printed_app, Hp. reflexivity.
Qed.

(** C1, as the code has it.  For an order_items row whose order_id or
    product_id matches no node, the row's statement goes through without
    error, creates nothing and leaves the graph as it was; and when the
    store answers every call the order-items stage runs to its end
    whatever its rows refer to, reporting the number of rows read. *)
Theorem dangling_row_is_passed_over :
  forall w : world,
    (forall drv row,
        dangling row (neo w) ->
        hd None (faults w) = None ->
        let '(r, w', t) := run_cypher drv (order_item_statement row) w in
        r = Ok [] /\ neo w' = neo w
        /\ t = [ESession drv (next_handle w);
                ERun (next_handle w) (order_item_statement row) true;
                ESessionClose (next_handle w)])
    /\ (forall conn drv,
          no_fault (S (List.length (order_items (pg w)))) (faults w) ->
          let '(r, _, t) := migrate_order_items conn drv w in
          r = Ok (order_items (pg w))
          /\ printed t = order_items_output (pg w)).
Proof.
  intros [d g p qc fs h]. cbn [pg neo faults next_handle]. split.
  - intros drv row Hd Hf.
    rewrite (run_contains_eq drv row d g p qc fs h Hf). cbn [neo].
    pose proof (exec_dangling_contains row g Hd) as E.
    unfold order_item_statement, exec in E.
    injection E as E. now rewrite E.
  - intros conn drv Hnf. now apply migrate_order_items_completes.
Qed.

Lemma dangling_row_is_passed_over_witness :
  hd None (faults dangling_world) = None
  /\ fst (fst (run_cypher 1 (order_item_statement (mkOrderItem 100 99 1))
                 dangling_world)) = Ok [].
Proof.
  split; [reflexivity|].
  pose proof (proj1 (dangling_row_is_passed_over dangling_world) 1
                (mkOrderItem 100 99 1) (or_introl eq_refl) eq_refl) as H.
  destruct (run_cypher 1 (order_item_statement (mkOrderItem 100 99 1))
              dangling_world) as [[r w'] t].
  exact (proj1 H).
Defined.

(** C1 as stated does not hold: the run over [dangling_shop] completes,
    the row for product 99 has produced no CONTAINS relationship, and what
    the run reports is what it reports, two relationships created, when
    product 99 exists. *)
Lemma dangling_row_is_silently_dropped :
  fst (fst (etl dangling_world)) = Ok tt
  /\ rels_of_type "CONTAINS" (neo (snd (fst (etl dangling_world))))
     = [mkRel "CONTAINS" 3 1 [("quantity", VInt 3)]]
  /\ In "  ✓ Created 2 order-product relationships"
        (printed (snd (etl dangling_world)))
  /\ List.length (rels_of_type "CONTAINS" (neo (snd (fst (etl complete_world)))))
     = 2
  /\ In "  ✓ Created 2 order-product relationships"
        (printed (snd (etl complete_world))).
Proof.
  split; [vm_compute; reflexivity|].
  split; [vm_compute; reflexivity|].
  split; [vm_compute; tauto|].
  split; [vm_compute; reflexivity|].
  vm_compute; tauto.
Qed.

(** ** Field conversion (C8) *)

Lemma digit_of_digit_char d : (d < 10)%N -> digit_of (digit_char d) = Some d.
Proof.
  intro Hd. unfold digit_of, digit_char.
  rewrite N_ascii_embedding by lia.
  replace ((48 <=? 48 + d)%N) with true by (symmetry; apply N.leb_le; lia).
  replace ((48 + d <=? 57)%N) with true by (symmetry; apply N.leb_le; lia).
  cbn [andb]. f_equal. lia.
Qed.

Lemma number_of_digit d cs acc :
  (d < 10)%N ->
  number_of (digit_char d :: cs) acc = number_of cs (10 * acc + d)%N.
Proof. intro Hd. cbn [number_of]. now rewrite digit_of_digit_char. Qed.

(** Two digits read back. *)
Lemma number_of_pad2 n :
  (n < 100)%N ->
  number_of [digit_char (n / 10); digit_char (n mod 10)] 0 = Some n.
Proof.
  intro Hn.
  assert (n / 10 < 10)%N by (apply N.Div0.div_lt_upper_bound; lia).
  assert (n mod 10 < 10)%N by (apply N.mod_lt; lia).
  rewrite !number_of_digit by assumption. cbn [number_of]. f_equal.
  pose proof (N.div_mod n 10 ltac:(lia)). lia.
Qed.

(** Four digits read back. *)
Lemma number_of_pad4 n :
  (n < 10000)%N ->
  number_of [digit_char (n / 100 / 10); digit_char ((n / 100) mod 10);
             digit_char (n mod 100 / 10); digit_char ((n mod 100) mod 10)] 0
  = Some n.
Proof.
  intro Hn.
  assert (n / 100 < 100)%N by (apply N.Div0.div_lt_upper_bound; lia).
  assert (n mod 100 < 100)%N by (apply N.mod_lt; lia).
  assert (n / 100 / 10 < 10)%N by (apply N.Div0.div_lt_upper_bound; lia).
  assert ((n / 100) mod 10 < 10)%N by (apply N.mod_lt; lia).
  assert (n mod 100 / 10 < 10)%N by (apply N.Div0.div_lt_upper_bound; lia).
  assert ((n mod 100) mod 10 < 10)%N by (apply N.mod_lt; lia).
  rewrite !number_of_digit by assumption. cbn [number_of]. f_equal.
  pose proof (N.div_mod n 100 ltac:(lia)).
  pose proof (N.div_mod (n / 100) 10 ltac:(lia)).
  pose proof (N.div_mod (n mod 100) 10 ltac:(lia)).
  lia.
Qed.

(** Six digits read back. *)
Lemma number_of_pad6 n :
  (n < 1000000)%N ->
  number_of [digit_char (n / 10000 / 10); digit_char ((n / 10000) mod 10);
             digit_char ((n mod 10000) / 100 / 10);
             digit_char (((n mod 10000) / 100) mod 10);
             digit_char ((n mod 10000) mod 100 / 10);
             digit_char (((n mod 10000) mod 100) mod 10)] 0
  = Some n.
Proof.
  intro Hn.
  assert (n / 10000 < 100)%N by (apply N.Div0.div_lt_upper_bound; lia).
  assert (n mod 10000 < 10000)%N by (apply N.mod_lt; lia).
  assert (n / 10000 / 10 < 10)%N by (apply N.Div0.div_lt_upper_bound; lia).
  assert ((n / 10000) mod 10 < 10)%N by (apply N.mod_lt; lia).
  assert ((n mod 10000) / 100 < 100)%N
    by (apply N.Div0.div_lt_upper_bound; lia).
  assert ((n mod 10000) mod 100 < 100)%N by (apply N.mod_lt; lia).
  assert ((n mod 10000) / 100 / 10 < 10)%N
    by (apply N.Div0.div_lt_upper_bound; lia).
  assert (((n mod 10000) / 100) mod 10 < 10)%N by (apply N.mod_lt; lia).
  assert ((n mod 10000) mod 100 / 10 < 10)%N
    by (apply N.Div0.div_lt_upper_bound; lia).
  assert (((n mod 10000) mod 100) mod 10 < 10)%N by (apply N.mod_lt; lia).
  rewrite !number_of_digit by assumption. cbn [number_of]. f_equal.
  pose proof (N.div_mod n 10000 ltac:(lia)).
  pose proof (N.div_mod (n / 10000) 10 ltac:(lia)).
  pose proof (N.div_mod (n mod 10000) 100 ltac:(lia)).
  pose proof (N.div_mod ((n mod 10000) / 100) 10 ltac:(lia)).
  pose proof (N.div_mod ((n mod 10000) mod 100) 10 ltac:(lia)).
  lia.
Qed.

Lemma py_str_date_chars d : list_ascii_of_string (py_str_date d) = date_chars d.
Proof. reflexivity. Qed.

Lemma py_isoformat_chars t :
  list_ascii_of_string (py_isoformat t)
  = date_chars (ts_date t) ++ "T"%char :: time_chars t
    ++ (if (microsecond t =? 0)%N then []
        else "."%char :: micro_chars (microsecond t)).
Proof.
  unfold py_isoformat, py_time.
  destruct (microsecond t =? 0)%N; reflexivity.
Qed.

Lemma days_in_month_le y m : (days_in_month y m <= 31)%N.
Proof.
  unfold days_in_month.
  destruct m as [|[[[|[]|]|[[]|[]|]|]|[[[]|[]|]|[[]|[]|]|]|]];
    try destruct (is_leap y); lia.
Qed.

Lemma valid_date_bounds d :
  valid_date d = true ->
  (year d < 10000 /\ month d < 100 /\ day d < 100)%N.
Proof.
  unfold valid_date. rewrite !andb_true_iff, !N.leb_le.
  intros (((((_ & Hy) & _) & Hm) & _) & Hd).
  pose proof (days_in_month_le (year d) (month d)). lia.
Qed.

Lemma parse_date_chars d :
  valid_date d = true -> parse_date (date_chars d) = Some d.
Proof.
  intro Hv. destruct (valid_date_bounds d Hv) as (Hy & Hm & Hd).
  unfold parse_date, date_chars.
  cbn [Ascii.eqb Bool.eqb andb].
  rewrite number_of_pad4, !number_of_pad2 by assumption.
  destruct d as [y m dd]. cbn [year month day] in *. now rewrite Hv.
Qed.

(** [date(str(d))] is [d]. *)
Lemma cypher_date_roundtrip d :
  valid_date d = true -> cypher_date (py_str_date d) = Some d.
Proof.
  intro Hv. unfold cypher_date. rewrite py_str_date_chars.
  now apply parse_date_chars.
Qed.

Lemma parse_fraction_micro n :
  (n < 1000000)%N -> parse_fraction (micro_chars n) = Some (n * 1000)%N.
Proof.
  intro Hn. unfold parse_fraction, micro_chars.
  cbn [List.length Nat.leb andb Nat.sub].
  now rewrite number_of_pad6.
Qed.

Lemma parse_time_chars t :
  valid_timestamp t = true ->
  parse_time (time_chars t
              ++ (if (microsecond t =? 0)%N then []
                  else "."%char :: micro_chars (microsecond t)))
  = Some (hour t, minute t, second t, (microsecond t * 1000)%N).
Proof.
  unfold valid_timestamp. rewrite !andb_true_iff, !N.ltb_lt.
  intros ((((_ & Hh) & Hm) & Hs) & Hu).
  unfold parse_time, time_chars. cbn [app Ascii.eqb Bool.eqb andb].
  rewrite !number_of_pad2 by lia.
  replace (hour t <? 24)%N with true by (symmetry; now apply N.ltb_lt).
  replace (minute t <? 60)%N with true by (symmetry; now apply N.ltb_lt).
  replace (second t <? 60)%N with true by (symmetry; now apply N.ltb_lt).
  cbn [andb].
  destruct (microsecond t =? 0)%N eqn:E.
  - apply N.eqb_eq in E. now rewrite E.
  - cbn [Ascii.eqb Bool.eqb andb]. now rewrite parse_fraction_micro.
Qed.

(** [datetime(t.isoformat())] is the instant of [t]. *)
Lemma cypher_datetime_roundtrip t :
  valid_timestamp t = true ->
  cypher_datetime (py_isoformat t) = Some (instant_of t).
Proof.
  intro Hv. unfold cypher_datetime. rewrite py_isoformat_chars.
  assert (Hd : valid_date (ts_date t) = true).
  { unfold valid_timestamp in Hv. rewrite !andb_true_iff in Hv. tauto. }
  change (firstn 10 (date_chars (ts_date t) ++ ?r))
    with (date_chars (ts_date t)).
  change (skipn 10 (date_chars (ts_date t) ++ ?r)) with r.
  rewrite (parse_date_chars _ Hd).
  cbn [Ascii.eqb Bool.eqb andb].
  now rewrite (parse_time_chars t Hv).
Qed.

(** The store's answer to the statement of each stage. *)
Lemma exec_product_statement row g :
  exec (product_statement row) g = inr (store_product g row, []).
Proof. reflexivity. Qed.

Lemma exec_customer_statement row g :
  valid_date (cust_join_date row) = true ->
  exec (customer_statement row) g = inr (store_customer g row, []).
Proof.
  intro Hv. unfold customer_statement, exec.
  now rewrite (cypher_date_roundtrip _ Hv).
Qed.

Lemma exec_order_statement row g :
  valid_timestamp (ord_ts row) = true ->
  exec (order_statement row) g = inr (store_order g row, []).
Proof.
  intro Hv. unfold order_statement, store_order, exec.
  rewrite (cypher_datetime_roundtrip _ Hv).
  now destruct (match_nodes "Customer" (ord_customer_id row) g).
Qed.

Lemma exec_event_statement row g :
  valid_timestamp (ev_ts row) = true ->
  exec (event_statement row) g = inr (store_event g row, []).
Proof.
  intro Hv. unfold event_statement, store_event, exec.
  rewrite (cypher_datetime_roundtrip _ Hv).
  destruct (match_nodes "Customer" (ev_customer_id row) g) as [|c cs];
    [now rewrite create_rels_no_source|].
  destruct (match_nodes "Product" (ev_product_id row) g) as [|q qs];
    [now rewrite create_rels_no_target|reflexivity].
Qed.

Lemma run_cypher_eq drv q d g p qc fs h g' rows :
  hd None fs = None ->
  exec q g = inr (g', rows) ->
  run_cypher drv q (mkWorld d g p qc fs h)
  = (Ok rows, mkWorld d g' p qc (tl fs) (S h),
     [ESession drv h; ERun h q true; ESessionClose h]).
Proof.
  intros Hf E. unfold run_cypher, with_session, try_finally, session_run,
    fresh_handle, next_fault, emit.
  destruct fs as [|[e|] fs]; try discriminate;
    cbn [faults neo pg queries_path queries_cypher next_handle tl];
    now rewrite E.
Qed.

(** A stage's loop, while the store answers: every row is stored, in the
    order of the table. *)
Lemma stage_loop_stores {A} drv (stmt : A -> statement)
    (store : graph -> A -> graph) : forall rows d g p qc fs h,
  (forall row g, In row rows -> exec (stmt row) g = inr (store g row, [])) ->
  no_fault (List.length rows) fs ->
  exists t,
    for_each rows (fun row => run_cypher drv (stmt row) ;; ret tt)
      (mkWorld d g p qc fs h)
    = (Ok tt,
       mkWorld d (fold_left store rows g) p qc (skipn (List.length rows) fs)
         (List.length rows + h), t).
Proof.
  induction rows as [|row rows IH]; intros d g p qc fs h Hex Hnf.
  - now exists [].
  - cbn [List.length] in Hnf. rewrite for_each_cons.
    pose proof (run_cypher_eq drv (stmt row) d g p qc fs h _ _
                  (no_fault_hd _ _ Hnf) (Hex row g (or_introl eq_refl))) as E.
    destruct (IH d (store g row) p qc (tl fs) (S h)
                (fun r g Hr => Hex r g (or_intror Hr)) (no_fault_tl _ _ Hnf))
      as (t & Hloop).
    exists ([ESession drv h; ERun h (stmt row) true; ESessionClose h] ++ t).
    erewrite bind_ok
      by (erewrite bind_ok by exact E; cbv beta iota; reflexivity).
    cbv beta iota. rewrite Hloop.
    replace (skipn (List.length rows) (tl fs))
      with (skipn (List.length (row :: rows)) fs)
      by (destruct fs; cbn [tl List.length skipn];
          [now rewrite skipn_nil|reflexivity]).
    replace (List.length rows + S h) with (List.length (row :: rows) + h)
      by (cbn [List.length]; lia).
    now rewrite app_nil_r.
Qed.

(** C8. What a stage of etl() stores is a function of the rows it reads.
    While the store answers, the products stage leaves every product row
    as a node whose price is the floating-point number [float(price)]; the
    customers stage leaves every customer row as a node whose join_date is
    the date value equal to the source date; the orders and the events
    stage leave every row with a date-time value equal to the source
    instant (on the nodes of the orders whose customer exists, on the
    relationships of the events whose customer and product exist). *)
Theorem field_conversion :
  forall (conn drv : nat) (w : world),
    (no_fault (S (List.length (products (pg w)))) (faults w) ->
     let '(r, w', _) := migrate_products conn drv w in
     r = Ok (products (pg w))
     /\ neo w' = fold_left store_product (products (pg w)) (neo w))
    /\ (no_fault (S (List.length (customers (pg w)))) (faults w) ->
        Forall (fun row => valid_date (cust_join_date row) = true)
          (customers (pg w)) ->
        let '(r, w', _) := migrate_customers conn drv w in
        r = Ok (customers (pg w))
        /\ neo w' = fold_left store_customer (customers (pg w)) (neo w))
    /\ (no_fault (S (List.length (orders (pg w)))) (faults w) ->
        Forall (fun row => valid_timestamp (ord_ts row) = true)
          (orders (pg w)) ->
        let '(r, w', _) := migrate_orders conn drv w in
        r = Ok (orders (pg w))
        /\ neo w' = fold_left store_order (orders (pg w)) (neo w))
    /\ (no_fault (S (List.length (events (pg w)))) (faults w) ->
        Forall (fun row => valid_timestamp (ev_ts row) = true)
          (events (pg w)) ->
        let '(r, w', _) := migrate_events conn drv w in
        r = Ok (events (pg w))
        /\ neo w' = fold_left store_event (events (pg w)) (neo w)).
Proof.
  intros conn drv [d g p qc fs h]. cbn [pg faults neo].
  split; [|split; [|split]].
  - intro Hnf. unfold migrate_products.
    erewrite bind_ok by reflexivity. cbv beta iota.
    erewrite bind_ok by (apply select_eq; exact (no_fault_hd _ _ Hnf)).
    cbv beta iota.
    erewrite bind_ok by reflexivity. cbv beta iota.
    destruct (stage_loop_stores drv product_statement store_product
                (products d) d g p qc (tl fs) h
                (fun row g _ => exec_product_statement row g)
                (no_fault_tl _ _ Hnf)) as (t & Hloop).
    erewrite bind_ok by exact Hloop. cbv beta iota.
    erewrite bind_ok by reflexivity. cbv beta iota.
    cbn [ret neo]. now split.
  - intros Hnf Hv. unfold migrate_customers.
    erewrite bind_ok by reflexivity. cbv beta iota.
    erewrite bind_ok by (apply select_eq; exact (no_fault_hd _ _ Hnf)).
    cbv beta iota.
    erewrite bind_ok by reflexivity. cbv beta iota.
    destruct (stage_loop_stores drv customer_statement store_customer
                (customers d) d g p qc (tl fs) h
                (fun row g Hr =>
                   exec_customer_statement row g
                     (proj1 (Forall_forall _ _) Hv row Hr))
                (no_fault_tl _ _ Hnf)) as (t & Hloop).
    erewrite bind_ok by exact Hloop. cbv beta iota.
    erewrite bind_ok by reflexivity. cbv beta iota.
    cbn [ret neo]. now split.
  - intros Hnf Hv. unfold migrate_orders.
    erewrite bind_ok by reflexivity. cbv beta iota.
    erewrite bind_ok by (apply select_eq; exact (no_fault_hd _ _ Hnf)).
    cbv beta iota.
    erewrite bind_ok by reflexivity. cbv beta iota.
    destruct (stage_loop_stores drv order_statement store_order
                (orders d) d g p qc (tl fs) h
                (fun row g Hr =>
                   exec_order_statement row g
                     (proj1 (Forall_forall _ _) Hv row Hr))
                (no_fault_tl _ _ Hnf)) as (t & Hloop).
    erewrite bind_ok by exact Hloop. cbv beta iota.
    erewrite bind_ok by reflexivity. cbv beta iota.
    cbn [ret neo]. now split.
  - intros Hnf Hv. unfold migrate_events.
    erewrite bind_ok by reflexivity. cbv beta iota.
    erewrite bind_ok by (apply select_eq; exact (no_fault_hd _ _ Hnf)).
    cbv beta iota.
    erewrite bind_ok by reflexivity. cbv beta iota.
    destruct (stage_loop_stores drv event_statement store_event
                (events d) d g p qc (tl fs) h
                (fun row g Hr =>
                   exec_event_statement row g
                     (proj1 (Forall_forall _ _) Hv row Hr))
                (no_fault_tl _ _ Hnf)) as (t & Hloop).
    erewrite bind_ok by exact Hloop. cbv beta iota.
    erewrite bind_ok by reflexivity. cbv beta iota.
    cbn [ret neo]. now split.
Qed.

Lemma field_conversion_witness :
  nodes (neo (snd (fst (migrate_products 0 1 conversion_world))))
  = nodes conversion_graph
    ++ [mkNode "Product"
          [("id", VInt 10); ("name", VStr "Atlas");
           ("price", VFloat (S754_finite false 5626684784446013 (-48)))]]
  /\ nodes (neo (snd (fst (migrate_customers 0 1 conversion_world))))
     = nodes conversion_graph
       ++ [mkNode "Customer"
             [("id", VInt 7); ("name", VStr "Ada");
              ("join_date", VDate (mkDate 2024 1 15))]]
  /\ nodes (neo (snd (fst (migrate_orders 0 1 conversion_world))))
     = nodes conversion_graph
       ++ [mkNode "Order"
             [("id", VInt 100);
              ("timestamp",
               VDateTime (mkGdt (mkDate 2024 1 15) 10 30 0 0 0))]]
  /\ rels (neo (snd (fst (migrate_events 0 1 conversion_world))))
     = [mkRel "INTERACTED" 1 2
          [("event_type", VStr "view");
           ("timestamp",
            VDateTime (mkGdt (mkDate 2024 1 15) 10 31 5 250000000 0))]].
Proof.
  assert (Hnf : no_fault 2 (faults conversion_world)) by constructor.
  assert (Hd : Forall (fun row => valid_date (cust_join_date row) = true)
                 (customers (pg conversion_world)))
    by (repeat constructor).
  assert (Ho : Forall (fun row => valid_timestamp (ord_ts row) = true)
                 (orders (pg conversion_world)))
    by (repeat constructor).
  assert (He : Forall (fun row => valid_timestamp (ev_ts row) = true)
                 (events (pg conversion_world)))
    by (repeat constructor).
  destruct (field_conversion 0 1 conversion_world) as (Hp & Hc & Hor & Hev).
  specialize (Hp Hnf). specialize (Hc Hnf Hd).
  specialize (Hor Hnf Ho). specialize (Hev Hnf He).
  destruct (migrate_products 0 1 conversion_world) as [[r1 w1] t1].
  destruct (migrate_customers 0 1 conversion_world) as [[r2 w2] t2].
  destruct (migrate_orders 0 1 conversion_world) as [[r3 w3] t3].
  destruct (migrate_events 0 1 conversion_world) as [[r4 w4] t4].
  cbn [fst snd].
  rewrite (proj2 Hp), (proj2 Hc), (proj2 Hor), (proj2 Hev).
  repeat split; vm_compute; reflexivity.
Defined.

(** * Further properties of the code *)

(** ** utils.chunk *)

Lemma chunk_positive {A} (rows : list A) (size : Z) :
  (1 <= size)%Z ->
  chunk rows size
  = inr (map (fun i => firstn (Z.to_nat size)
                         (skipn (i * Z.to_nat size) rows))
           (seq 0 (range_len 0 (Z.of_nat (List.length rows)) size))).
Proof.
  intro Hs. unfold chunk, range3.
  replace (size =? 0)%Z with false by (symmetry; apply Z.eqb_neq; lia).
  rewrite map_map. f_equal. apply map_ext. intro i. unfold iloc.
  replace (Z.to_nat (0 + Z.of_nat i * size + size - (0 + Z.of_nat i * size)))
    with (Z.to_nat size) by lia.
  replace (Z.to_nat (0 + Z.of_nat i * size)) with (i * Z.to_nat size) by nia.
  reflexivity.
Qed.

(** The number of frames: the row count over the frame size, rounded up. *)
Lemma range_len_positive (n : nat) (size : Z) :
  (1 <= size)%Z ->
  range_len 0 (Z.of_nat n) size = (n + Z.to_nat size - 1) / Z.to_nat size.
Proof.
  intro Hs. unfold range_len.
  replace (0 <? size)%Z with true by (symmetry; apply Z.ltb_lt; lia).
  destruct n as [|n].
  - cbn [Z.of_nat Z.ltb Z.compare]. symmetry. apply Nat.div_small. lia.
  - replace (0 <? Z.of_nat (S n))%Z with true by (symmetry; apply Z.ltb_lt; lia).
    apply Nat2Z.inj. rewrite Z2Nat.id.
    + rewrite Nat2Z.inj_div, Nat2Z.inj_sub, Nat2Z.inj_add by lia.
      rewrite Z2Nat.id by lia.
      replace (Z.of_nat (S n) + size - Z.of_nat 1)%Z
        with ((Z.of_nat (S n) - 0 - 1) + 1 * size)%Z by lia.
      rewrite Z.div_add by lia. reflexivity.
    + assert (0 <= (Z.of_nat (S n) - 0 - 1) / size)%Z
        by (apply Z.div_pos; lia). lia.
Qed.

Lemma concat_frames {A} (s : nat) : forall (c : nat) (rows : list A),
  1 <= s ->
  List.length rows <= c * s ->
  List.concat (map (fun i => firstn s (skipn (i * s) rows)) (seq 0 c)) = rows.
Proof.
  induction c as [|c IH]; intros rows Hs Hc.
  - destruct rows; [reflexivity|simpl in Hc; lia].
  - cbn [seq map List.concat]. rewrite <- seq_shift, map_map.
    change (skipn (0 * s) rows) with rows.
    transitivity (firstn s rows ++ skipn s rows); [|apply firstn_skipn].
    f_equal.
    assert (E : map (fun x => firstn s (skipn (S x * s) rows)) (seq 0 c)
                = map (fun i => firstn s (skipn (i * s) (skipn s rows)))
                    (seq 0 c)).
    { apply map_ext. intro i. rewrite skipn_skipn.
      now replace (S i * s) with (i * s + s) by lia. }
    rewrite E. apply IH; [exact Hs|]. rewrite length_skipn. lia.
Qed.

Lemma frames_cover (n s : nat) : 1 <= s -> n <= (n + s - 1) / s * s.
Proof.
  intro Hs. pose proof (Nat.div_mod_eq (n + s - 1) s) as E.
  pose proof (Nat.mod_upper_bound (n + s - 1) s ltac:(lia)). nia.
Qed.

Lemma frames_tight (n s : nat) : 1 <= s -> (n + s - 1) / s * s < n + s.
Proof.
  intro Hs. pose proof (Nat.div_mod_eq (n + s - 1) s) as E. nia.
Qed.

(** X1. With a frame size of at least 1, the frames [chunk] yields, put
    end to end, are the rows of the data frame, each once and in order. *)
Theorem chunk_concat :
  forall (A : Type) (rows : list A) (chunk_size : Z),
    (1 <= chunk_size)%Z ->
    exists frames,
      chunk rows chunk_size = inr frames /\ List.concat frames = rows.
Proof.
  intros A rows size Hs. eexists. split; [now apply chunk_positive|].
  rewrite range_len_positive by exact Hs.
  apply concat_frames; [lia|]. apply frames_cover. lia.
Qed.

Lemma chunk_concat_witness :
  (1 <= 2)%Z
  /\ exists frames,
       chunk [1; 2; 3; 4; 5] 2 = inr frames
       /\ List.concat frames = [1; 2; 3; 4; 5].
Proof. split; [lia|]. apply (chunk_concat nat [1; 2; 3; 4; 5] 2). lia. Defined.

(** X2. With a frame size of at least 1, [chunk] yields as many frames as
    the row count divided by the frame size, rounded up; no frame is empty
    or longer than the frame size, and every frame but the last has exactly
    that size. *)
Theorem chunk_sizes :
  forall (A : Type) (rows : list A) (chunk_size : Z),
    (1 <= chunk_size)%Z ->
    exists frames,
      chunk rows chunk_size = inr frames
      /\ List.length frames
         = (List.length rows + Z.to_nat chunk_size - 1) / Z.to_nat chunk_size
      /\ forall i frame,
           nth_error frames i = Some frame ->
           1 <= List.length frame <= Z.to_nat chunk_size
           /\ (S i < List.length frames ->
               List.length frame = Z.to_nat chunk_size).
Proof.
  intros A rows size Hs. eexists. split; [now apply chunk_positive|].
  rewrite range_len_positive by exact Hs.
  set (s := Z.to_nat size). set (n := List.length rows).
  assert (Hs1 : 1 <= s) by (unfold s; lia).
  rewrite length_map, length_seq. split; [reflexivity|].
  intros i frame Hi.
  assert (Hlt : i < List.length
                        (map (fun i => firstn s (skipn (i * s) rows))
                           (seq 0 ((n + s - 1) / s))))
    by (apply nth_error_Some; rewrite Hi; discriminate).
  rewrite length_map, length_seq in Hlt.
  rewrite nth_error_map, nth_error_seq in Hi.
  replace (i <? (n + s - 1) / s)%nat with true in Hi
    by (symmetry; now apply Nat.ltb_lt).
  cbn in Hi. injection Hi as <-.
  rewrite length_firstn, length_skipn. fold n.
  pose proof (frames_tight n s Hs1). split; [nia|]. intro Hnext. nia.
Qed.

Lemma chunk_sizes_witness :
  (1 <= 2)%Z
  /\ exists frames,
       chunk [1; 2; 3; 4; 5] 2 = inr frames /\ List.length frames = 3.
Proof.
  split; [lia|].
  destruct (chunk_sizes nat [1; 2; 3; 4; 5] 2 ltac:(lia)) as (fr & E & L & _).
  exists fr. split; [exact E|exact L].
Defined.

(** X3. A frame size of 0 makes [chunk] raise [ValueError]; with a
    negative frame size it yields no frame at all, whatever the rows. *)
Theorem chunk_without_positive_size :
  forall (A : Type) (rows : list A) (chunk_size : Z),
    (chunk_size = 0%Z ->
     chunk rows chunk_size
     = inl (ValueError "range() arg 3 must not be zero"))
    /\ ((chunk_size < 0)%Z -> chunk rows chunk_size = inr []).
Proof.
  intros A rows size. split.
  - intros ->. reflexivity.
  - intro Hs. unfold chunk, range3, range_len.
    replace (size =? 0)%Z with false by (symmetry; apply Z.eqb_neq; lia).
    replace (0 <? size)%Z with false by (symmetry; apply Z.ltb_ge; lia).
    replace (Z.of_nat (List.length rows) <? 0)%Z with false
      by (symmetry; apply Z.ltb_ge; lia).
    reflexivity.
Qed.

Lemma chunk_without_positive_size_witness :
  (-3 < 0)%Z /\ chunk [1; 2; 3; 4; 5] (-3) = @inr py_error _ [].
Proof.
  split; [lia|].
  exact (proj2 (chunk_without_positive_size nat [1; 2; 3; 4; 5] (-3))
           ltac:(lia)).
Defined.

(** ** Parsing of the schema script (utils.run_cypher_file) *)

Lemma split_cons_shape sep s : exists seg segs, Py.split sep s = seg :: segs.
Proof.
  induction s as [|c r (seg & segs & IH)]; cbn [Py.split]; [now eexists; eexists|].
  destruct (c =? sep)%N; [now eexists; eexists|].
  rewrite IH. now eexists; eexists.
Qed.

Lemma split_no_sep sep s seg : In seg (Py.split sep s) -> ~ In sep seg.
Proof.
  revert seg. induction s as [|c r IH]; cbn [Py.split]; intros seg Hin.
  - destruct Hin as [<-|[]]. intros [].
  - destruct (c =? sep)%N eqn:E.
    + destruct Hin as [<-|Hin]; [intros []|now apply IH].
    + destruct (split_cons_shape sep r) as (seg0 & segs & Hr).
      rewrite Hr in *. destruct Hin as [<-|Hin].
      * intros [->|Hc]; [now rewrite N.eqb_refl in E|].
        apply (IH seg0); [now left|exact Hc].
      * apply IH. now right.
Qed.

Lemma split_without_sep sep s : ~ In sep s -> Py.split sep s = [s].
Proof.
  induction s as [|c r IH]; intro Hn; [reflexivity|].
  cbn [Py.split].
  replace (c =? sep)%N with false
    by (symmetry; apply N.eqb_neq; intros ->; apply Hn; now left).
  rewrite IH; [reflexivity|]. intro H. apply Hn. now right.
Qed.

Lemma split_app sep s rest :
  ~ In sep s -> Py.split sep (s ++ sep :: rest) = s :: Py.split sep rest.
Proof.
  induction s as [|c r IH]; intro Hn.
  - cbn [app Py.split]. now rewrite N.eqb_refl.
  - cbn [app Py.split].
    replace (c =? sep)%N with false
      by (symmetry; apply N.eqb_neq; intros ->; apply Hn; now left).
    rewrite IH; [reflexivity|]. intro H. apply Hn. now right.
Qed.

Lemma split_join sep stmts :
  stmts <> [] ->
  Forall (fun s => ~ In sep s) stmts ->
  Py.split sep (join sep stmts) = stmts.
Proof.
  induction stmts as [|s r IH]; intros Hne Hall; [contradiction|].
  inversion Hall as [|? ? Hs Hr]; subst.
  destruct r as [|s' r'].
  - cbn [join]. now apply split_without_sep.
  - change (join sep (s :: s' :: r')) with (s ++ sep :: join sep (s' :: r')).
    rewrite split_app by exact Hs. f_equal. apply IH; [discriminate|exact Hr].
Qed.

(** What [lstrip] removes is white space, and what it leaves does not
    start with any. *)
Lemma lstrip_spec s :
  exists ws,
    s = ws ++ Py.lstrip s
    /\ Forall (fun c => Py.isspace c = true) ws
    /\ (forall c r, Py.lstrip s = c :: r -> Py.isspace c = false).
Proof.
  induction s as [|c r (ws & E & Hws & Hhd)].
  - exists []. repeat split; [constructor|discriminate].
  - cbn [Py.lstrip]. destruct (Py.isspace c) eqn:Ec.
    + exists (c :: ws). split; [cbn [app]; now f_equal|].
      split; [now constructor|exact Hhd].
    + exists []. split; [reflexivity|]. split; [constructor|].
      intros c' r' H. now injection H as <- _.
Qed.

Lemma lstrip_fixed c r : Py.isspace c = false -> Py.lstrip (c :: r) = c :: r.
Proof. intro H. cbn [Py.lstrip]. now rewrite H. Qed.

(** [strip] keeps a middle part of the text, cut where the white space
    ends on either side. *)
Lemma strip_spec s :
  exists ws1 ws2,
    s = ws1 ++ Py.strip s ++ ws2
    /\ (forall c r, Py.strip s = c :: r -> Py.isspace c = false)
    /\ (forall c r, rev (Py.strip s) = c :: r -> Py.isspace c = false).
Proof.
  unfold Py.strip, Py.rstrip.
  destruct (lstrip_spec s) as (ws1 & E1 & _ & Hhd1).
  destruct (lstrip_spec (rev (Py.lstrip s))) as (ws2 & E2 & _ & Hhd2).
  exists ws1, (rev ws2).
  assert (Et : Py.lstrip s = rev (Py.lstrip (rev (Py.lstrip s))) ++ rev ws2).
  { rewrite <- rev_app_distr, <- E2. now rewrite rev_involutive. }
  split; [now rewrite <- Et|]. split.
  - intros c r Hc. rewrite Hc in Et. apply (Hhd1 c (r ++ rev ws2)). exact Et.
  - intros c r Hc. rewrite rev_involutive in Hc. exact (Hhd2 c r Hc).
Qed.

Lemma strip_incl s c : In c (Py.strip s) -> In c s.
Proof.
  destruct (strip_spec s) as (ws1 & ws2 & E & _). intro H.
  rewrite E. apply in_or_app; right. apply in_or_app; now left.
Qed.

(** Stripping a stripped text changes nothing. *)
Lemma strip_idempotent s : Py.strip (Py.strip s) = Py.strip s.
Proof.
  destruct (strip_spec s) as (_ & _ & _ & Hhd & Hlast).
  remember (Py.strip s) as t eqn:Et. clear Et.
  unfold Py.strip, Py.rstrip.
  destruct t as [|c r]; [reflexivity|].
  rewrite (lstrip_fixed c r (Hhd c r eq_refl)).
  destruct (rev (c :: r)) as [|c' r'] eqn:Er.
  - apply (f_equal (@List.length N)) in Er. rewrite length_rev in Er.
    discriminate.
  - rewrite (lstrip_fixed c' r' (Hlast c' r' eq_refl)), <- Er.
    apply rev_involutive.
Qed.

Lemma statements_of_clean content stmt :
  In stmt (statements_of content) -> clean stmt.
Proof.
  unfold statements_of. intro H.
  apply in_map_iff in H. destruct H as (seg & <- & Hseg).
  apply filter_In in Hseg. destruct Hseg as [Hin Hne].
  split; [|split].
  - intro E. now rewrite E in Hne.
  - intro Hs. apply strip_incl in Hs. exact (split_no_sep _ _ _ Hin Hs).
  - apply strip_idempotent.
Qed.

(** X4. Whatever the script holds, no statement handed to the store is
    empty, none contains a semicolon, and none begins or ends with a white
    space character: a semicolon cuts the text wherever it stands. *)
Theorem schema_statements_are_clean :
  forall (content : Py.text) (stmt : Py.text),
    In stmt (statements_of content) ->
    stmt <> []
    /\ ~ In Py.semicolon stmt
    /\ (forall c r, stmt = c :: r -> Py.isspace c = false)
    /\ (forall c r, stmt = r ++ [c] -> Py.isspace c = false).
Proof.
  intros content stmt H.
  destruct (statements_of_clean content stmt H) as (Hne & Hsep & Hstrip).
  destruct (strip_spec stmt) as (_ & _ & _ & Hhd & Hlast).
  rewrite Hstrip in Hhd, Hlast.
  split; [exact Hne|]. split; [exact Hsep|]. split.
  - intros c r ->. now apply (Hhd c r).
  - intros c r ->. apply (Hlast c (rev r)). now rewrite rev_app_distr.
Qed.

Lemma schema_statements_are_clean_witness :
  In (Py.text_of_string "CREATE INDEX b")
     (statements_of (Py.text_of_string "CREATE INDEX a;  ; CREATE INDEX b ;"))
  /\ ~ In Py.semicolon (Py.text_of_string "CREATE INDEX b").
Proof.
  assert (H : In (Py.text_of_string "CREATE INDEX b")
                (statements_of
                   (Py.text_of_string "CREATE INDEX a;  ; CREATE INDEX b ;")))
    by (vm_compute; tauto).
  split; [exact H|].
  exact (proj1 (proj2 (schema_statements_are_clean _ _ H))).
Defined.

Lemma statements_of_join stmts :
  Forall clean stmts -> statements_of (join Py.semicolon stmts) = stmts.
Proof.
  intro Hc. unfold statements_of.
  destruct stmts as [|s r]; [reflexivity|].
  rewrite split_join.
  - assert (Hf : filter (fun stmt => Py.truthy (Py.strip stmt)) (s :: r)
                 = s :: r).
    { apply forallb_filter_id. apply forallb_forall. intros x Hx.
      rewrite Forall_forall in Hc. destruct (Hc x Hx) as (Hne & _ & ->).
      now destruct x. }
    rewrite Hf. rewrite <- (map_id (s :: r)) at 2. apply map_ext_in.
    intros x Hx. rewrite Forall_forall in Hc. now destruct (Hc x Hx) as (_ & _ & ->).
  - discriminate.
  - apply Forall_forall. intros x Hx. rewrite Forall_forall in Hc.
    now destruct (Hc x Hx) as (_ & Hsep & _).
Qed.

(** X5. A script written as clean statements separated by semicolons is
    read back as exactly those statements; in particular reading a script,
    writing its statements out with semicolons between them and reading
    again gives the same statements. *)
Theorem schema_script_round_trip :
  (forall stmts : list Py.text,
      Forall clean stmts -> statements_of (join Py.semicolon stmts) = stmts)
  /\ (forall content : Py.text,
        statements_of (join Py.semicolon (statements_of content))
        = statements_of content).
Proof.
  split; [exact statements_of_join|].
  intro content. apply statements_of_join.
  apply Forall_forall. intros x Hx. exact (statements_of_clean content x Hx).
Qed.

Lemma schema_script_round_trip_witness :
  Forall clean [Py.text_of_string "A"; Py.text_of_string "B C"]
  /\ statements_of
       (join Py.semicolon [Py.text_of_string "A"; Py.text_of_string "B C"])
     = [Py.text_of_string "A"; Py.text_of_string "B C"].
Proof.
  assert (H : Forall clean [Py.text_of_string "A"; Py.text_of_string "B C"]).
  { repeat constructor; try discriminate; vm_compute; intuition discriminate. }
  split; [exact H|]. exact (proj1 schema_script_round_trip _ H).
Defined.

(** ** The readiness gate under any fault plan *)

Lemma pg_loop_trace max_retries delay : forall n i w,
  Z.of_nat (i + n) = max_retries ->
  let '(r, _, t) :=
    for_until (map Z.of_nat (seq i n)) (pg_attempt max_retries delay) w in
  gate_trace (pg_retry_events max_retries delay) pg_ready_events
    pg_failed_events n r t.
Proof.
  induction n as [|n IH]; intros i [db g path qc fs h] Hmax.
  - constructor.
  - cbn [seq map]. rewrite for_until_cons.
    destruct fs as [|[e|] fs].
    + erewrite bind_ok by (now apply pg_attempt_ready).
      cbv beta iota. cbn [ret]. rewrite app_nil_r.
      apply gate_ready. now exists h.
    + destruct e as [m|m|m c|st d].
      * destruct (Z_lt_dec (Z.of_nat i) (max_retries - 1)) as [Hlt|Hge].
        -- erewrite bind_ok by (now apply pg_attempt_retry).
           cbv beta iota.
           specialize (IH (S i) (mkWorld db g path qc fs h) ltac:(lia)).
           destruct (for_until (map Z.of_nat (seq (S i) n))
                       (pg_attempt max_retries delay)
                       (mkWorld db g path qc fs h)) as [[r w'] t].
           destruct n as [|n]; [lia|].
           apply gate_again; [now eexists|exact IH].
        -- erewrite bind_raise by (now apply pg_attempt_last).
           now apply gate_gave_up.
      * erewrite bind_raise by (apply pg_attempt_other; discriminate).
        now apply gate_gave_up.
      * erewrite bind_raise by (apply pg_attempt_other; discriminate).
        now apply gate_gave_up.
      * erewrite bind_raise by (apply pg_attempt_other; discriminate).
        now apply gate_gave_up.
    + erewrite bind_ok by (now apply pg_attempt_ready).
      cbv beta iota. cbn [ret]. rewrite app_nil_r.
      apply gate_ready. now exists h.
Qed.

Lemma neo4j_loop_trace max_retries delay : forall n i w,
  Z.of_nat (i + n) = max_retries ->
  let '(r, _, t) :=
    for_until (map Z.of_nat (seq i n)) (neo4j_attempt max_retries delay) w in
  gate_trace (neo4j_retry_events max_retries delay) neo4j_ready_events
    neo4j_failed_events n r t.
Proof.
  induction n as [|n IH]; intros i [db g path qc fs h] Hmax.
  - constructor.
  - cbn [seq map]. rewrite for_until_cons.
    destruct fs as [|[e|] fs].
    + erewrite bind_ok by (now apply neo4j_attempt_ready).
      cbv beta iota. cbn [ret]. rewrite app_nil_r.
      apply gate_ready. now exists h.
    + destruct (Z_lt_dec (Z.of_nat i) (max_retries - 1)) as [Hlt|Hge].
      * erewrite bind_ok by (now apply neo4j_attempt_retry).
        cbv beta iota.
        specialize (IH (S i) (mkWorld db g path qc fs (S (S h))) ltac:(lia)).
        destruct (for_until (map Z.of_nat (seq (S i) n))
                    (neo4j_attempt max_retries delay)
                    (mkWorld db g path qc fs (S (S h)))) as [[r w'] t].
        destruct n as [|n]; [lia|].
        apply gate_again; [now eexists; eexists|exact IH].
      * erewrite bind_raise by (now apply neo4j_attempt_last).
        apply gate_gave_up. now exists h.
    + erewrite bind_ok by (now apply neo4j_attempt_ready).
      cbv beta iota. cbn [ret]. rewrite app_nil_r.
      apply gate_ready. now exists h.
Qed.

(** A gate is its announcement followed by its loop. *)
Lemma gate_trace_of (attempt : Z -> M bool) (line : string) retry ok fail
    max_retries w :
  (forall n i w, Z.of_nat (i + n) = max_retries ->
                 let '(r, _, t) :=
                   for_until (map Z.of_nat (seq i n)) attempt w in
                 gate_trace retry ok fail n r t) ->
  let '(r, _, t) := (print line ;; for_until (range max_retries) attempt) w in
  exists t', t = EPrint line :: t'
             /\ gate_trace retry ok fail (Z.to_nat max_retries) r t'.
Proof.
  intro Hloop. erewrite bind_ok by reflexivity.
  destruct (Z_le_dec 1 max_retries) as [Hmax|Hmax].
  - destruct (range_seq _ Hmax) as [-> Hn].
    specialize (Hloop (Z.to_nat max_retries) 0 w Hn).
    destruct (for_until (map Z.of_nat (seq 0 (Z.to_nat max_retries))) attempt w)
      as [[r w'] t].
    now exists t.
  - rewrite range_nonpositive by lia.
    replace (Z.to_nat max_retries) with 0 by lia.
    exists []. split; [reflexivity|constructor].
Qed.

Lemma beats_app t1 t2 : beats (t1 ++ t2) = beats t1 ++ beats t2.
Proof. apply flat_map_app. Qed.

Lemma drivers_opened_app t1 t2 :
  drivers_opened (t1 ++ t2) = drivers_opened t1 ++ drivers_opened t2.
Proof. apply flat_map_app. Qed.

Lemma drivers_closed_app t1 t2 :
  drivers_closed (t1 ++ t2) = drivers_closed t1 ++ drivers_closed t2.
Proof. apply flat_map_app. Qed.

(** The probes and pauses of a gate loop: failed probes, each followed at
    once by its pause, then the probe that ends the loop. *)
Lemma gate_trace_beats (retry ok fail : list event -> Prop) delay :
  (forall t, retry t -> beats t = [Probe false; Pause delay]) ->
  (forall t, ok t -> beats t = [Probe true]) ->
  (forall t, fail t -> beats t = [Probe false]) ->
  forall n r t,
    gate_trace retry ok fail n r t ->
    (n = 0 /\ r = Ok tt /\ beats t = [])
    \/ exists k,
         k < n
         /\ match r with
            | Ok _ => beats t = retried delay k ++ [Probe true]
            | Raise _ => beats t = retried delay k ++ [Probe false]
            end.
Proof.
  intros Hretry Hok Hfail n r t H.
  induction H as [|n t H|n t e H|n t0 r t H0 H IH].
  - left. now repeat split.
  - right. exists 0. split; [lia|]. now apply Hok.
  - right. exists 0. split; [lia|]. now apply Hfail.
  - right. destruct IH as [(Hn & _)|(k & Hk & IH)]; [discriminate|].
    exists (S k). split; [lia|].
    rewrite beats_app, (Hretry t0 H0).
    destruct r; rewrite IH; reflexivity.
Qed.

(** X6. Whatever the stores answer, a readiness gate probes its store at
    most max_retries times; a pause of [delay] seconds follows at once
    every failed probe that is not the last probe, and nothing else: the
    pauses lie between consecutive probes, one each, and none follows the
    last probe.  The gate returns after a successful probe, which is its
    last (or, with max_retries <= 0, without any probe), and raises after a
    failed last probe. *)
Theorem gate_probes_and_pauses (max_retries : Z) (delay : N) (w : world) :
  let rhythm (r : result unit) (t : list event) :=
    ((max_retries <= 0)%Z /\ r = Ok tt /\ beats t = [])
    \/ exists k,
         k < Z.to_nat max_retries
         /\ match r with
            | Ok _ => beats t = retried delay k ++ [Probe true]
            | Raise _ => beats t = retried delay k ++ [Probe false]
            end in
  (let '(r, _, t) := wait_for_postgres max_retries delay w in rhythm r t)
  /\ (let '(r, _, t) := wait_for_neo4j max_retries delay w in rhythm r t).
Proof.
  cbv zeta. split.
  - pose proof (gate_trace_of (pg_attempt max_retries delay)
                  "Waiting for PostgreSQL to be ready..." _ _ _ max_retries w
                  (pg_loop_trace max_retries delay)) as H.
    fold (wait_for_postgres max_retries delay) in H.
    destruct (wait_for_postgres max_retries delay w) as [[r w'] t].
    destruct H as (t' & -> & H).
    change (beats (EPrint "Waiting for PostgreSQL to be ready..." :: t'))
      with (beats t').
    apply (gate_trace_beats _ _ _ delay) in H.
    + destruct H as [(Hn & Hr & Hb)|H]; [left|now right].
      repeat split; [lia|exact Hr|exact Hb].
    + intros t (a & ->). reflexivity.
    + intros t (h & ->). reflexivity.
    + intros t ->. reflexivity.
  - pose proof (gate_trace_of (neo4j_attempt max_retries delay)
                  "Waiting for Neo4j to be ready..." _ _ _ max_retries w
                  (neo4j_loop_trace max_retries delay)) as H.
    fold (wait_for_neo4j max_retries delay) in H.
    destruct (wait_for_neo4j max_retries delay w) as [[r w'] t].
    destruct H as (t' & -> & H).
    change (beats (EPrint "Waiting for Neo4j to be ready..." :: t'))
      with (beats t').
    apply (gate_trace_beats _ _ _ delay) in H.
    + destruct H as [(Hn & Hr & Hb)|H]; [left|now right].
      repeat split; [lia|exact Hr|exact Hb].
    + intros t (h & a & ->). reflexivity.
    + intros t (h & ->). reflexivity.
    + intros t (h & ->). reflexivity.
Qed.

Lemma pg_loop_other max_retries delay e :
  (forall m, e <> OperationalError m) ->
  forall msgs i n db g path qc rest h,
  Z.of_nat (i + n) = max_retries ->
  List.length msgs < n ->
  for_until (map Z.of_nat (seq i n)) (pg_attempt max_retries delay)
    (mkWorld db g path qc (operational msgs ++ Some e :: rest) h)
  = (Raise e, mkWorld db g path qc rest h,
     pg_retries max_retries delay i (List.length msgs) ++ [EPgConnectFailed]).
Proof.
  intro He.
  induction msgs as [|m msgs IH]; intros i n db g path qc rest h Hmax Hlen;
    (destruct n as [|n]; [simpl in Hlen; lia|]);
    cbn [List.length] in Hlen; cbn [seq map]; rewrite for_until_cons.
  - cbn [operational map app List.length pg_retries].
    erewrite bind_raise by (apply pg_attempt_other; exact He).
    reflexivity.
  - cbn [operational map app List.length pg_retries].
    erewrite bind_ok by (apply pg_attempt_retry; lia).
    cbv beta iota. fold (operational msgs).
    rewrite IH by lia.
    reflexivity.
Qed.

(** X7. An error of psycopg2.connect that is not an OperationalError ends
    wait_for_postgres at once: the error itself is raised, not wrapped in
    the "not ready after N attempts" exception, whatever the number of
    attempts left, and no retry line or pause follows it. *)
Theorem wait_for_postgres_other_error max_retries delay w msgs e rest :
  faults w = operational msgs ++ Some e :: rest ->
  (forall m, e <> OperationalError m) ->
  List.length msgs < Z.to_nat max_retries ->
  wait_for_postgres max_retries delay w
  = (Raise e,
     mkWorld (pg w) (neo w) (queries_path w) (queries_cypher w) rest
       (next_handle w),
     EPrint "Waiting for PostgreSQL to be ready..."
     :: pg_retries max_retries delay 0 (List.length msgs)
     ++ [EPgConnectFailed]).
Proof.
  intros Hfs He Hlen. destruct w as [db g path qc fs h].
  simpl in Hfs; subst fs. cbn [pg neo queries_path queries_cypher next_handle].
  unfold wait_for_postgres. erewrite bind_ok by reflexivity.
  destruct (range_seq max_retries ltac:(lia)) as [-> Hn].
  rewrite (pg_loop_other max_retries delay e He msgs 0 _ db g path qc rest h
             Hn Hlen).
  reflexivity.
Qed.

Lemma wait_for_postgres_other_error_witness :
  wait_for_postgres 5 2
    (mkWorld (mkDatabase [] [] [] [] [] []) empty_graph "queries.cypher" None
       [Some (OperationalError "connection refused");
        Some (StoreError "invalid dsn"); None] 7)
  = (Raise (StoreError "invalid dsn"),
     mkWorld (mkDatabase [] [] [] [] [] []) empty_graph "queries.cypher" None
       [None] 7,
     [EPrint "Waiting for PostgreSQL to be ready...";
      EPgConnectFailed;
      EPrint (pg_retry_line 5 2 0);
      ESleep 2;
      EPgConnectFailed]).
Proof.
  refine (wait_for_postgres_other_error 5 2
            (mkWorld (mkDatabase [] [] [] [] [] []) empty_graph
               "queries.cypher" None
               [Some (OperationalError "connection refused");
                Some (StoreError "invalid dsn"); None] 7)
            ["connection refused"] (StoreError "invalid dsn") [None]
            eq_refl _ _).
  - discriminate.
  - vm_compute. lia.
Defined.

Lemma gate_trace_drivers max_retries delay : forall n r t,
  gate_trace (neo4j_retry_events max_retries delay) neo4j_ready_events
    neo4j_failed_events n r t ->
  List.length (drivers_opened t) = List.length (probe_results t)
  /\ List.length (drivers_opened t)
     = List.length (drivers_closed t) + failed_probes t
  /\ incl (drivers_closed t) (drivers_opened t).
Proof.
  intros n r t H.
  induction H as [|n t (h & ->)|n t e (h & ->)|n t0 r t (h & a & ->) H IH].
  - repeat split. intros x [].
  - repeat split. intros x Hx. exact Hx.
  - repeat split. intros x [].
  - destruct IH as (IH1 & IH2 & IH3). unfold failed_probes in *.
    rewrite probe_results_app, drivers_opened_app, drivers_closed_app.
    cbn [drivers_opened drivers_closed probe_results flat_map app
         List.length filter negb] in *.
    repeat split; try lia.
    intros x Hx. right. now apply IH3.
Qed.

(** X8. wait_for_neo4j opens one driver per probe and closes it only when
    the probe succeeds: after the gate, the drivers still open are as many
    as the probes that failed. *)
Theorem wait_for_neo4j_leaves_drivers_open (max_retries : Z) (delay : N)
    (w : world) :
  let t := snd (wait_for_neo4j max_retries delay w) in
  List.length (drivers_opened t) = List.length (probe_results t)
  /\ List.length (drivers_opened t)
     = List.length (drivers_closed t) + failed_probes t
  /\ incl (drivers_closed t) (drivers_opened t).
Proof.
  cbv zeta.
  pose proof (gate_trace_of (neo4j_attempt max_retries delay)
                "Waiting for Neo4j to be ready..." _ _ _ max_retries w
                (neo4j_loop_trace max_retries delay)) as H.
  fold (wait_for_neo4j max_retries delay) in H.
  destruct (wait_for_neo4j max_retries delay w) as [[r w'] t].
  destruct H as (t' & -> & H). cbn [snd].
  unfold failed_probes.
  change (probe_results (EPrint _ :: t')) with (probe_results t').
  change (drivers_opened (EPrint _ :: t')) with (drivers_opened t').
  change (drivers_closed (EPrint _ :: t')) with (drivers_closed t').
  exact (gate_trace_drivers max_retries delay _ _ _ H).
Qed.

(** ** Relationships and their end nodes *)

Lemma positions_from_spec (p : node -> bool) : forall ns k i,
  In i (positions_from k p ns) ->
  k <= i /\ exists n, nth_error ns (i - k) = Some n /\ p n = true.
Proof.
  induction ns as [|n ns IH]; intros k i H; [destruct H|].
  cbn [positions_from] in H.
  assert (Hrest : In i (positions_from (S k) p ns) ->
                  k <= i /\ exists m, nth_error (n :: ns) (i - k) = Some m
                                      /\ p m = true).
  { intro H'. apply IH in H' as (Hle & m & Hm & Hpm). split; [lia|].
    exists m. replace (i - k) with (S (i - S k)) by lia. now split. }
  destruct (p n) eqn:Hp; [|now apply Hrest].
  destruct H as [<-|H]; [|now apply Hrest].
  split; [lia|]. exists n. now rewrite Nat.sub_diag.
Qed.

Lemma match_nodes_label l k g i :
  In i (match_nodes l k g) -> label_at g i = Some l.
Proof.
  intro H. apply positions_from_spec in H as (_ & n & Hn & Hp).
  rewrite Nat.sub_0_r in Hn. unfold label_at. rewrite Hn. cbn [option_map].
  unfold node_matches in Hp. apply andb_prop in Hp as [Hp _].
  apply String.eqb_eq in Hp. now rewrite Hp.
Qed.

Lemma label_at_grows g g' extra i a :
  nodes g' = nodes g ++ extra -> label_at g i = Some a -> label_at g' i = Some a.
Proof.
  unfold label_at. intros -> H.
  destruct (nth_error (nodes g) i) as [n|] eqn:E; [|discriminate].
  rewrite nth_error_app1; [now rewrite E|].
  apply nth_error_Some. congruence.
Qed.

Lemma linked_grows g g' extra r :
  nodes g' = nodes g ++ extra -> linked g r -> linked g' r.
Proof.
  intros Hn (a & b & Ht & Ha & Hb). exists a, b.
  repeat split; [exact Ht| |]; eapply label_at_grows; eassumption.
Qed.

Lemma well_linked_add_node n g : well_linked g -> well_linked (add_node n g).
Proof.
  intros H r Hr. apply (linked_grows g _ [n]); [reflexivity|]. now apply H.
Qed.

Lemma well_linked_add_rel r g :
  linked g r -> well_linked g -> well_linked (add_rel r g).
Proof.
  intros Hr H r' Hin. cbn [add_rel rels] in Hin.
  apply in_app_or in Hin as [Hin|[<-|[]]].
  - apply (linked_grows g _ []); [cbn; now rewrite app_nil_r|]. now apply H.
  - apply (linked_grows g _ []); [cbn; now rewrite app_nil_r|]. exact Hr.
Qed.

Lemma label_at_new n g : label_at (add_node n g) (List.length (nodes g)) = Some (nlabel n).
Proof.
  unfold label_at, add_node. cbn [nodes].
  rewrite nth_error_app2 by lia. now rewrite Nat.sub_diag.
Qed.

Lemma well_linked_create_linked n rt (out : bool) l a b :
  endpoint_labels rt = Some (a, b) ->
  (if out then nlabel n = a /\ l = b else l = a /\ nlabel n = b) ->
  forall ms g,
    (forall m, In m ms -> label_at g m = Some l) ->
    well_linked g ->
    well_linked (create_linked n rt out ms g).
Proof.
  intros Ht Hl. unfold create_linked.
  induction ms as [|m ms IH]; intros g Hms Hg; [exact Hg|].
  cbn [fold_left]. apply IH.
  - intros m' Hm'. apply (label_at_grows g _ [n]); [reflexivity|].
    apply Hms. now right.
  - apply well_linked_add_rel; [|now apply well_linked_add_node].
    assert (Hm : label_at (add_node n g) m = Some l).
    { apply (label_at_grows g _ [n]); [reflexivity|]. apply Hms. now left. }
    pose proof (label_at_new n g) as Hx.
    exists a, b. destruct out; destruct Hl as [<- <-]; cbn [rtype rsrc rdst];
      repeat split; assumption.
Qed.

Lemma well_linked_create_rels rt ps a b dsts :
  endpoint_labels rt = Some (a, b) ->
  forall srcs g,
    (forall s, In s srcs -> label_at g s = Some a) ->
    (forall d, In d dsts -> label_at g d = Some b) ->
    well_linked g ->
    well_linked (create_rels rt ps srcs dsts g)
    /\ nodes (create_rels rt ps srcs dsts g) = nodes g.
Proof.
  intro Ht. unfold create_rels.
  assert (Hinner : forall s ds g,
             label_at g s = Some a ->
             (forall d, In d ds -> label_at g d = Some b) ->
             well_linked g ->
             well_linked (fold_left (fun g b => add_rel (mkRel rt s b ps) g) ds g)
             /\ nodes (fold_left (fun g b => add_rel (mkRel rt s b ps) g) ds g)
                = nodes g).
  { intros s. induction ds as [|d ds IH]; intros g Hs Hds Hg; [now split|].
    cbn [fold_left].
    destruct (IH (add_rel (mkRel rt s d ps) g)) as [H1 H2].
    - exact Hs.
    - intros d' Hd'. apply Hds. now right.
    - apply well_linked_add_rel; [|exact Hg].
      exists a, b. repeat split; [exact Ht|exact Hs|apply Hds; now left].
    - split; [exact H1|exact H2]. }
  induction srcs as [|s srcs IH]; intros g Hs Hd Hg; [now split|].
  cbn [fold_left].
  destruct (Hinner s dsts g) as [H1 H2]; [apply Hs; now left|exact Hd|exact Hg|].
  set (g1 := fold_left (fun g b => add_rel (mkRel rt s b ps) g) dsts g) in *.
  destruct (IH g1) as [H3 H4].
  - intros s' Hs'. apply (label_at_grows g _ []);
      [now rewrite H2, app_nil_r|apply Hs; now right].
  - intros d Hd'. apply (label_at_grows g _ []);
      [now rewrite H2, app_nil_r|now apply Hd].
  - exact H1.
  - split; [exact H3|]. now rewrite H4.
Qed.

(** No statement of the program creates a relationship without its two
    end nodes. *)
Lemma well_linked_exec q g g' rows :
  exec q g = inr (g', rows) -> well_linked g -> well_linked g'.
Proof.
  intros E Hg. destruct q; cbn [exec] in E.
  - injection E as <- _. intros r [].
  - injection E as <- _. exact Hg.
  - injection E as <- _. now apply well_linked_add_node.
  - injection E as <- _.
    refine (well_linked_create_linked (mkNode "Product" _) "IN_CATEGORY" true "Category"
              "Product" "Category" eq_refl (conj eq_refl eq_refl) _ g _ Hg).
    intros m Hm. now apply match_nodes_label in Hm.
  - destruct (cypher_date join_date); [|discriminate].
    injection E as <- _. now apply well_linked_add_node.
  - destruct (match_nodes "Customer" customer_id g) as [|c cs] eqn:Hc.
    + injection E as <- _. exact Hg.
    + destruct (cypher_datetime ts); [|discriminate].
      injection E as <- _.
      refine (well_linked_create_linked (mkNode "Order" _) "PLACED" false "Customer"
                "Customer" "Order" eq_refl (conj eq_refl eq_refl) (c :: cs) g
                _ Hg).
      intros m Hm. rewrite <- Hc in Hm. now apply match_nodes_label in Hm.
  - injection E as <- _.
    refine (proj1 (well_linked_create_rels "CONTAINS" _ "Order" "Product"
                     _ eq_refl _ g _ _ Hg)); intros m Hm;
      now apply match_nodes_label in Hm.
  - destruct (match_nodes "Customer" customer_id g) as [|c cs] eqn:Hc.
    + injection E as <- _. exact Hg.
    + destruct (match_nodes "Product" product_id g) as [|p ps] eqn:Hp.
      * injection E as <- _. exact Hg.
      * destruct (cypher_datetime ts); [|discriminate].
        injection E as <- _.
        refine (proj1 (well_linked_create_rels "INTERACTED" _ "Customer"
                         "Product" (p :: ps) eq_refl (c :: cs) g _ _ Hg));
          intros m Hm.
        -- rewrite <- Hc in Hm. now apply match_nodes_label in Hm.
        -- rewrite <- Hp in Hm. now apply match_nodes_label in Hm.
  - injection E as <- _. exact Hg.
Qed.

Lemma well_linked_apply_steps plan : forall g,
  well_linked g -> well_linked (apply_steps plan g).
Proof.
  unfold apply_steps.
  induction plan as [|s plan IH]; intros g Hg; [exact Hg|].
  cbn [fold_left]. apply IH. destruct s as [t|q]; [exact Hg|].
  cbn [apply_step]. destruct (exec q g) as [e|[g' rows]] eqn:E; [exact Hg|].
  exact (well_linked_exec q g g' rows E Hg).
Qed.

Lemma well_linked_empty : well_linked empty_graph.
Proof. intros r []. Qed.

(** X9. The graph structure the summary of etl() announces holds after
    every run, completed or not: unless the run failed before it touched
    the graph, every relationship of the graph is an IN_CATEGORY from a
    Product to a Category, a PLACED from a Customer to an Order, a CONTAINS
    from an Order to a Product or an INTERACTED from a Customer to a
    Product, and both its end nodes are in the graph.  The same holds for
    POST /neo4j/migrate. *)
Theorem relationships_join_their_nodes (w : world) :
  (let '(r, w', _) := etl w in
   (raised r /\ neo w' = neo w) \/ well_linked (neo w'))
  /\ (forall conn drv,
        let '(r, w', _) := migrate_to_neo4j conn drv w in
        (raised r /\ neo w' = neo w) \/ well_linked (neo w')).
Proof.
  split.
  - pose proof (etl_spec w) as H.
    destruct (etl w) as [[r w'] t].
    apply etl_ended_graph in H as (_ & _ & [H|(k & ->)]); [now left|right].
    apply well_linked_apply_steps, well_linked_empty.
  - intros conn drv.
    pose proof (follows_migrate_to_neo4j (pg w) (queries_cypher w)
                  (queries_path w) conn drv w (at_source_self w)) as H.
    destruct (migrate_to_neo4j conn drv w) as [[r w'] t].
    destruct H as (_ & _ & Hout).
    apply outcome_migrate_graph in Hout as (_ & [H|(k & ->)]); [now left|right].
    apply well_linked_apply_steps, well_linked_empty.
Qed.

(** ** What a trace did to the graph *)

Lemma replay_app t1 : forall t2 g,
  replay (t1 ++ t2) g
  = match replay t1 g with Some g1 => replay t2 g1 | None => None end.
Proof.
  induction t1 as [|e t1 IH]; intros t2 g; [reflexivity|].
  cbn [app]. destruct e; cbn [replay]; try apply IH.
  destruct ok; [|apply IH].
  destruct (exec q g) as [x|[g' rows]]; [reflexivity|apply IH].
Qed.

Lemma honest_ret {A} (a : A) : honest (ret a).
Proof. intro w. reflexivity. Qed.

Lemma honest_raise {A} e : honest (@raise A e).
Proof. intro w. reflexivity. Qed.

Lemma honest_emit e :
  match e with ERun _ _ _ => False | _ => True end -> honest (emit e).
Proof. intros H w. destruct e; try reflexivity. destruct H. Qed.

Lemma honest_bind {A B} (m : M A) (f : A -> M B) :
  honest m -> (forall a, honest (f a)) -> honest (bind m f).
Proof.
  intros Hm Hf w. unfold bind. specialize (Hm w).
  destruct (m w) as [[[a|e] w1] t1]; [|exact Hm].
  specialize (Hf a w1). destruct (f a w1) as [[r w2] t2].
  now rewrite replay_app, Hm.
Qed.

Lemma honest_try_except {A} (m : M A) h :
  honest m -> (forall e, honest (h e)) -> honest (try_except m h).
Proof.
  intros Hm Hh w. unfold try_except. specialize (Hm w).
  destruct (m w) as [[[a|e] w1] t1]; [exact Hm|].
  specialize (Hh e w1). destruct (h e w1) as [[r w2] t2].
  now rewrite replay_app, Hm.
Qed.

Lemma honest_try_finally {A} (m : M A) fin :
  honest m -> honest fin -> honest (try_finally m fin).
Proof.
  intros Hm Hf w. unfold try_finally. specialize (Hm w).
  destruct (m w) as [[r w1] t1].
  specialize (Hf w1). destruct (fin w1) as [[rf w2] t2].
  now rewrite replay_app, Hm.
Qed.

Lemma honest_for_each {A} (xs : list A) body :
  (forall x, honest (body x)) -> honest (for_each xs body).
Proof.
  intro Hb. induction xs as [|x xs IH]; [apply honest_ret|].
  cbn [for_each]. apply honest_bind; [apply Hb|intros _; exact IH].
Qed.

Lemma honest_select {A} t (rows : database -> list A) conn :
  honest (select_all t rows conn).
Proof.
  intros [db g path qc fs h]. unfold select_all, next_fault. cbn [faults].
  destruct fs as [|[e|] fs]; reflexivity.
Qed.

Lemma honest_session_run ses q : honest (session_run ses q).
Proof.
  intros [db g path qc fs h]. unfold session_run, next_fault. cbn [faults].
  destruct fs as [|[e|] fs]; cbn [neo pg queries_path queries_cypher next_handle];
    try reflexivity;
    destruct (exec q g) as [e'|[g' rows]] eqn:E; cbn [replay set_neo neo];
    try reflexivity; now rewrite E.
Qed.

Lemma honest_with_session {A} drv (body : nat -> M A) :
  (forall ses, honest (body ses)) -> honest (with_session drv body).
Proof.
  intros Hb w. unfold with_session, fresh_handle.
  pose proof (honest_try_finally (body (next_handle w))
                (emit (ESessionClose (next_handle w)))
                (Hb _) (honest_emit (ESessionClose (next_handle w)) I)
                (mkWorld (pg w) (neo w) (queries_path w) (queries_cypher w)
                   (faults w) (S (next_handle w)))) as H.
  destruct (try_finally _ _ _) as [[r w2] t]. exact H.
Qed.

Ltac honesty :=
  repeat first
    [ apply honest_ret | apply honest_raise | apply honest_select
    | apply honest_session_run | apply honest_try_except
    | apply honest_with_session | apply honest_for_each
    | apply honest_bind | intro ].

Lemma honest_migrate_to_neo4j conn drv : honest (migrate_to_neo4j conn drv).
Proof. unfold migrate_to_neo4j. honesty. Qed.

(** A trace that made every step of a plan went through a plan the store
    accepts. *)
Lemma replay_passes : forall t plan g g',
  steps t = done plan -> replay t g = Some g' -> passes plan g.
Proof.
  induction t as [|e t IH]; intros plan g g' Hs Hr.
  - destruct plan; [exact I|discriminate].
  - destruct e; cbn [steps flat_map step_of app] in Hs; cbn [replay] in Hr;
      try (apply (IH plan g g'); assumption).
    + destruct plan as [|s plan]; [discriminate|].
      cbn [done map] in Hs. injection Hs as <- _ Hs.
      cbn [passes]. now apply (IH plan g g').
    + destruct plan as [|s plan]; [discriminate|].
      cbn [done map] in Hs. injection Hs as <- -> Hs.
      cbn [passes replay] in *.
      destruct (exec q g) as [x|[g1 rows]]; [discriminate|].
      exists g1, rows. split; [reflexivity|]. now apply (IH plan g1 g').
Qed.

Lemma passes_app p1 : forall p2 g,
  passes (p1 ++ p2) g -> passes p1 g /\ passes p2 (apply_steps p1 g).
Proof.
  induction p1 as [|s p1 IH]; intros p2 g H; [now split|].
  destruct s as [t|q]; cbn [app passes] in *.
  - now apply IH.
  - destruct H as (g' & rows & E & H). apply IH in H as [H1 H2]. split.
    + now exists g', rows.
    + unfold apply_steps in *. cbn [fold_left apply_step]. now rewrite E.
Qed.

(** ** Nodes are kept *)

Lemma create_linked_content n rt out : forall ms g,
  nodes (create_linked n rt out ms g) = nodes g ++ repeat n (List.length ms)
  /\ forall r, In r (rels (create_linked n rt out ms g)) ->
               In r (rels g) \/ rtype r = rt.
Proof.
  unfold create_linked.
  induction ms as [|m ms IH]; intros g.
  - cbn. rewrite app_nil_r. split; [reflexivity|now left].
  - cbn [fold_left List.length repeat].
    destruct (IH (add_rel (if out
                           then mkRel rt (List.length (nodes g)) m []
                           else mkRel rt m (List.length (nodes g)) [])
                    (add_node n g))) as [H1 H2].
    split.
    + rewrite H1. cbn [add_rel add_node nodes]. now rewrite <- app_assoc.
    + intros r Hr. apply H2 in Hr as [Hr|Hr]; [|now right].
      cbn [add_rel add_node rels] in Hr.
      apply in_app_or in Hr as [Hr|[<-|[]]]; [now left|right].
      now destruct out.
Qed.

Lemma create_rels_content rt ps dsts : forall srcs g,
  nodes (create_rels rt ps srcs dsts g) = nodes g
  /\ forall r, In r (rels (create_rels rt ps srcs dsts g)) ->
               In r (rels g) \/ rtype r = rt.
Proof.
  unfold create_rels.
  assert (Hinner : forall s ds g,
             nodes (fold_left (fun g b => add_rel (mkRel rt s b ps) g) ds g)
             = nodes g
             /\ forall r,
                  In r (rels (fold_left
                                (fun g b => add_rel (mkRel rt s b ps) g) ds g)) ->
                  In r (rels g) \/ rtype r = rt).
  { intro s. induction ds as [|d ds IH]; intro g; [split; [reflexivity|now left]|].
    cbn [fold_left]. destruct (IH (add_rel (mkRel rt s d ps) g)) as [H1 H2].
    split; [exact H1|]. intros r Hr. apply H2 in Hr as [Hr|Hr]; [|now right].
    cbn [add_rel rels] in Hr.
    apply in_app_or in Hr as [Hr|[<-|[]]]; [now left|now right]. }
  induction srcs as [|s srcs IH]; intro g; [split; [reflexivity|now left]|].
  cbn [fold_left].
  destruct (Hinner s dsts g) as [H1 H2].
  destruct (IH (fold_left (fun g b => add_rel (mkRel rt s b ps) g) dsts g))
    as [H3 H4].
  split; [now rewrite H3|].
  intros r Hr. apply H4 in Hr as [Hr|Hr]; [now apply H2|now right].
Qed.

Lemma exec_grows q g g' rows :
  q <> DetachDeleteAll ->
  exec q g = inr (g', rows) ->
  exists extra, nodes g' = nodes g ++ extra.
Proof.
  intros Hq E. destruct q; cbn [exec] in E.
  - now destruct Hq.
  - injection E as <- _. exists []. now rewrite app_nil_r.
  - injection E as <- _. now eexists.
  - injection E as <- _. eexists.
    exact (proj1 (create_linked_content _ _ _ _ g)).
  - destruct (cypher_date join_date); [|discriminate].
    injection E as <- _. now eexists.
  - destruct (match_nodes "Customer" customer_id g) as [|c cs].
    + injection E as <- _. exists []. now rewrite app_nil_r.
    + destruct (cypher_datetime ts); [|discriminate].
      injection E as <- _. eexists.
      exact (proj1 (create_linked_content
                      (mkNode "Order"
                         [("id", VInt id); ("timestamp", VDateTime g0)])
                      "PLACED" false (c :: cs) g)).
  - injection E as <- _. exists []. rewrite app_nil_r.
    exact (proj1 (create_rels_content _ _ _ _ g)).
  - destruct (match_nodes "Customer" customer_id g) as [|c cs].
    + injection E as <- _. exists []. now rewrite app_nil_r.
    + destruct (match_nodes "Product" product_id g) as [|p ps].
      * injection E as <- _. exists []. now rewrite app_nil_r.
      * destruct (cypher_datetime ts); [|discriminate].
        injection E as <- _. exists []. rewrite app_nil_r.
        exact (proj1 (create_rels_content "INTERACTED"
                        [("event_type", VStr event_type);
                         ("timestamp", VDateTime g0)]
                        (p :: ps) (c :: cs) g)).
  - injection E as <- _. exists []. now rewrite app_nil_r.
Qed.

Lemma apply_steps_grows plan : forall g,
  Forall (fun s => s <> SWrite DetachDeleteAll) plan ->
  exists extra, nodes (apply_steps plan g) = nodes g ++ extra.
Proof.
  unfold apply_steps.
  induction plan as [|s plan IH]; intros g H.
  - exists []. now rewrite app_nil_r.
  - apply Forall_cons_iff in H as [Hs H]. cbn [fold_left].
    destruct (IH (apply_step g s) H) as (x2 & ->).
    assert (H1 : exists x1, nodes (apply_step g s) = nodes g ++ x1).
    { destruct s as [t|q]; cbn [apply_step].
      - exists []. now rewrite app_nil_r.
      - destruct (exec q g) as [e|[g' rows]] eqn:E.
        + exists []. now rewrite app_nil_r.
        + apply (exec_grows q g g' rows); [|exact E]. congruence. }
    destruct H1 as (x1 & ->). exists (x1 ++ x2). now rewrite app_assoc.
Qed.

Lemma positions_from_app p : forall a b i,
  positions_from i p (a ++ b)
  = positions_from i p a ++ positions_from (i + List.length a) p b.
Proof.
  induction a as [|n a IH]; intros b i.
  - cbn. now rewrite Nat.add_0_r.
  - cbn [app positions_from List.length].
    rewrite IH. replace (S i + List.length a) with (i + S (List.length a)) by lia.
    now destruct (p n).
Qed.

Lemma match_nodes_grows l k g g' extra :
  nodes g' = nodes g ++ extra ->
  match_nodes l k g <> [] -> match_nodes l k g' <> [].
Proof.
  unfold match_nodes. intros -> H. rewrite positions_from_app.
  intro E. apply app_eq_nil in E as [E _]. now apply H.
Qed.

Lemma match_nodes_new l k n g :
  node_matches l k n = true -> match_nodes l k (add_node n g) <> [].
Proof.
  unfold match_nodes, add_node. cbn [nodes]. intro H.
  rewrite positions_from_app. cbn [positions_from]. rewrite H.
  intro E. apply app_eq_nil in E as [_ E]. discriminate.
Qed.

Lemma match_nodes_none l k g :
  (forall n, In n (nodes g) -> nlabel n <> l) -> match_nodes l k g = [].
Proof.
  intro H. destruct (match_nodes l k g) as [|i r] eqn:E; [reflexivity|].
  assert (Hi : In i (match_nodes l k g)) by (rewrite E; now left).
  apply positions_from_spec in Hi as (_ & n & Hn & Hp).
  apply nth_error_In in Hn. apply H in Hn.
  unfold node_matches in Hp. apply andb_prop in Hp as [Hp _].
  now apply String.eqb_eq in Hp.
Qed.

(** ** POST /neo4j/migrate and the timestamps *)

(** [datetime()] takes the date and the time separated by [T]; [str()] of
    a timestamp separates them by a space. *)
Lemma cypher_datetime_str t : cypher_datetime (py_str_datetime t) = None.
Proof.
  destruct t as [[y m d] h mi s us].
  unfold cypher_datetime, py_str_datetime, py_str_date, pad4, pad2.
  cbn [ts_date year month day append list_ascii_of_string firstn skipn].
  destruct (parse_date _); reflexivity.
Qed.

Lemma stage_keeps_nodes {A} (stmt : A -> statement) rows :
  (forall row, stmt row <> DetachDeleteAll) ->
  Forall (fun s => s <> SWrite DetachDeleteAll)
    (map (fun row => SWrite (stmt row)) rows).
Proof.
  intro H. apply Forall_forall. intros s Hs.
  apply in_map_iff in Hs as (row & <- & _). specialize (H row). congruence.
Qed.

Lemma apply_steps_cons s plan g :
  apply_steps (s :: plan) g = apply_steps plan (apply_step g s).
Proof. reflexivity. Qed.

Lemma passes_orders_str : forall rows g,
  passes (map (fun row => SWrite (order_statement_str row)) rows) g ->
  apply_steps (map (fun row => SWrite (order_statement_str row)) rows) g = g
  /\ forall o, In o rows -> match_nodes "Customer" (ord_customer_id o) g = [].
Proof.
  induction rows as [|o rows IH]; intros g H; [split; [reflexivity|intros ? []]|].
  cbn [map passes] in H. destruct H as (g' & rs & E & H).
  assert (Hg : g' = g /\ match_nodes "Customer" (ord_customer_id o) g = []).
  { unfold order_statement_str in E. cbn [exec] in E.
    destruct (match_nodes "Customer" (ord_customer_id o) g).
    - injection E as <- _. now split.
    - rewrite cypher_datetime_str in E. discriminate. }
  destruct Hg as [-> Hc]. apply IH in H as [H1 H2]. split.
  - cbn [map]. rewrite apply_steps_cons. cbn [apply_step]. now rewrite E.
  - intros o' [<-|Ho]; [exact Hc|now apply H2].
Qed.

Lemma passes_events_str : forall rows g,
  passes (map (fun row => SWrite (event_statement_str row)) rows) g ->
  apply_steps (map (fun row => SWrite (event_statement_str row)) rows) g = g
  /\ forall ev, In ev rows ->
       match_nodes "Customer" (ev_customer_id ev) g = []
       \/ match_nodes "Product" (ev_product_id ev) g = [].
Proof.
  induction rows as [|ev rows IH]; intros g H; [split; [reflexivity|intros ? []]|].
  cbn [map passes] in H. destruct H as (g' & rs & E & H).
  assert (Hg : g' = g
               /\ (match_nodes "Customer" (ev_customer_id ev) g = []
                   \/ match_nodes "Product" (ev_product_id ev) g = [])).
  { unfold event_statement_str in E. cbn [exec] in E.
    destruct (match_nodes "Customer" (ev_customer_id ev) g).
    - injection E as <- _. split; [reflexivity|now left].
    - destruct (match_nodes "Product" (ev_product_id ev) g).
      + injection E as <- _. split; [reflexivity|now right].
      + rewrite cypher_datetime_str in E. discriminate. }
  destruct Hg as [-> Hc]. apply IH in H as [H1 H2]. split.
  - cbn [map]. rewrite apply_steps_cons. cbn [apply_step]. now rewrite E.
  - intros ev' [<-|Hev]; [exact Hc|now apply H2].
Qed.

Lemma order_items_without_orders : forall rows g,
  (forall k, match_nodes "Order" k g = []) ->
  apply_steps (map (fun row => SWrite (order_item_statement row)) rows) g = g.
Proof.
  induction rows as [|row rows IH]; intros g H; [reflexivity|].
  cbn [map]. rewrite apply_steps_cons.
  assert (E : apply_step g (SWrite (order_item_statement row)) = g).
  { unfold order_item_statement, apply_step, exec.
    now rewrite H, create_rels_no_source. }
  rewrite E. now apply IH.
Qed.

Lemma node_matches_id l k ps :
  node_matches l k (mkNode l (("id", VInt k) :: ps)) = true.
Proof.
  unfold node_matches. cbn [nlabel nprops assoc].
  rewrite String.eqb_refl. cbn [String.eqb Ascii.eqb Bool.eqb andb].
  apply Z.eqb_refl.
Qed.

Lemma passes_customers : forall rows g,
  passes (map (fun row => SWrite (customer_statement row)) rows) g ->
  forall c, In c rows ->
    match_nodes "Customer" (cust_id c)
      (apply_steps (map (fun row => SWrite (customer_statement row)) rows) g)
    <> [].
Proof.
  induction rows as [|c0 rows IH]; intros g H c Hc; [destruct Hc|].
  cbn [map passes] in H. destruct H as (g' & rs & E & H).
  cbn [map]. rewrite apply_steps_cons. cbn [apply_step]. rewrite E.
  destruct Hc as [<-|Hc]; [|now apply IH].
  destruct (apply_steps_grows
              (map (fun row => SWrite (customer_statement row)) rows) g')
    as (extra & Hx).
  { apply stage_keeps_nodes. intro row. discriminate. }
  apply (match_nodes_grows _ _ g' _ extra Hx).
  unfold customer_statement in E. cbn [exec] in E.
  destruct (cypher_date (py_str_date (cust_join_date c0))); [|discriminate].
  injection E as <- _. apply match_nodes_new. apply node_matches_id.
Qed.

Lemma categories_loaded : forall rows g c,
  In c rows ->
  match_nodes "Category" (cat_id c)
    (apply_steps (map (fun row => SWrite (category_statement row)) rows) g)
  <> [].
Proof.
  induction rows as [|c0 rows IH]; intros g c Hc; [destruct Hc|].
  cbn [map]. rewrite apply_steps_cons.
  destruct Hc as [<-|Hc]; [|now apply IH].
  destruct (apply_steps_grows
              (map (fun row => SWrite (category_statement row)) rows)
              (apply_step g (SWrite (category_statement c0))))
    as (extra & Hx).
  { apply stage_keeps_nodes. intro row. discriminate. }
  apply (match_nodes_grows _ _ _ _ extra Hx).
  apply match_nodes_new. apply node_matches_id.
Qed.

Lemma products_loaded : forall rows g p,
  In p rows ->
  match_nodes "Category" (prod_category_id p) g <> [] ->
  match_nodes "Product" (prod_id p)
    (apply_steps (map (fun row => SWrite (product_statement row)) rows) g)
  <> [].
Proof.
  induction rows as [|p0 rows IH]; intros g p Hp Hcat; [destruct Hp|].
  cbn [map]. rewrite apply_steps_cons.
  set (g' := apply_step g (SWrite (product_statement p0))).
  assert (Hg' : nodes g'
                = nodes g
                  ++ repeat (mkNode "Product"
                               [("id", VInt (prod_id p0));
                                ("name", VStr (prod_name p0));
                                ("price", VFloat (Py.float (prod_price p0)))])
                       (List.length
                          (match_nodes "Category" (prod_category_id p0) g))).
  { exact (proj1 (create_linked_content _ "IN_CATEGORY" true _ g)). }
  destruct Hp as [<-|Hp].
  - destruct (apply_steps_grows
                (map (fun row => SWrite (product_statement row)) rows) g')
      as (extra & Hx).
    { apply stage_keeps_nodes. intro row. discriminate. }
    apply (match_nodes_grows _ _ g' _ extra Hx).
    unfold match_nodes. rewrite Hg', positions_from_app.
    destruct (match_nodes "Category" (prod_category_id p0) g) as [|m ms];
      [now destruct Hcat|].
    cbn [List.length repeat positions_from].
    rewrite node_matches_id.
    intro E. apply app_eq_nil in E as [_ E]. discriminate.
  - apply IH; [exact Hp|].
    now apply (match_nodes_grows _ _ g _ _ Hg').
Qed.

Lemma master_data_exec q g g' rows :
  master_step (SWrite q) ->
  exec q g = inr (g', rows) -> master_data g -> master_data g'.
Proof.
  intros Hq E [Hn Hr]. destruct q; cbn [master_step] in Hq; try destruct Hq;
    cbn [exec] in E.
  - injection E as <- _. split; [|exact Hr].
    intros n Hin. cbn [add_node nodes] in Hin.
    apply in_app_or in Hin as [Hin|[<-|[]]]; [now apply Hn|]. cbn. tauto.
  - injection E as <- _.
    destruct (create_linked_content
                (mkNode "Product"
                   [("id", VInt id); ("name", VStr name); ("price", VFloat price)])
                "IN_CATEGORY" true (match_nodes "Category" category_id g) g)
      as [H1 H2].
    split.
    + intros n Hin. rewrite H1 in Hin.
      apply in_app_or in Hin as [Hin|Hin]; [now apply Hn|].
      apply repeat_spec in Hin as ->. cbn. tauto.
    + intros r Hin. apply H2 in Hin as [Hin|Hin]; [now apply Hr|exact Hin].
  - destruct (cypher_date join_date); [|discriminate].
    injection E as <- _. split; [|exact Hr].
    intros n Hin. cbn [add_node nodes] in Hin.
    apply in_app_or in Hin as [Hin|[<-|[]]]; [now apply Hn|]. cbn. tauto.
Qed.

Lemma master_data_apply_steps plan : forall g,
  Forall master_step plan -> master_data g -> master_data (apply_steps plan g).
Proof.
  induction plan as [|s plan IH]; intros g H Hg; [exact Hg|].
  apply Forall_cons_iff in H as [Hs H]. rewrite apply_steps_cons.
  apply IH; [exact H|].
  destruct s as [t|q]; [exact Hg|]. cbn [apply_step].
  destruct (exec q g) as [e|[g' rows]] eqn:E; [exact Hg|].
  exact (master_data_exec q g g' rows Hs E Hg).
Qed.

Lemma master_stage {A} t (stmt : A -> statement) rows :
  (forall row, master_step (SWrite (stmt row))) ->
  Forall master_step (stage_plan t stmt rows).
Proof.
  intro H. unfold stage_plan. apply Forall_cons; [exact I|].
  apply Forall_forall. intros s Hs.
  apply in_map_iff in Hs as (row & <- & _). apply H.
Qed.

(** What it takes for the store to accept every statement of the plan of
    POST /neo4j/migrate. *)
Lemma migrate_plan_passes db g :
  passes (migrate_plan db) g ->
  (forall o, In o (orders db) -> ~ known_customer db (ord_customer_id o))
  /\ (forall ev, In ev (events db) ->
        ~ (known_customer db (ev_customer_id ev)
           /\ known_product db (ev_product_id ev)))
  /\ master_data (apply_steps (migrate_plan db) g).
Proof.
  unfold migrate_plan. intro H.
  cbn [passes exec] in H. destruct H as (g0 & rs0 & E0 & H).
  injection E0 as <- _.
  rewrite apply_steps_cons. cbn [apply_step exec].
  set (Scust := stage_plan Customers customer_statement (customers db)) in *.
  set (Scat := stage_plan Categories category_statement (categories db)) in *.
  set (Sprod := stage_plan Products product_statement (products db)) in *.
  set (Sord := stage_plan Orders order_statement_str (orders db)) in *.
  set (Sitem := stage_plan OrderItems order_item_statement (order_items db)) in *.
  set (Sev := stage_plan Events event_statement_str (events db)) in *.
  apply passes_app in H as [Hcust H].
  apply passes_app in H as [_ H].
  apply passes_app in H as [_ H].
  apply passes_app in H as [Hord H].
  apply passes_app in H as [_ Hev].
  rewrite !apply_steps_app.
  rewrite <- !apply_steps_app in Hord.
  rewrite <- !apply_steps_app in Hev.
  set (g1 := apply_steps Scust empty_graph) in *.
  set (g2 := apply_steps Scat g1) in *.
  set (g3 := apply_steps Sprod g2) in *.
  rewrite !apply_steps_app in Hord. fold g1 g2 g3 in Hord.
  apply passes_orders_str in Hord as [Eord Hord].
  change (apply_steps Sord g3 = g3) in Eord.
  rewrite !apply_steps_app in Hev. fold g1 g2 g3 in Hev.
  rewrite Eord in Hev |- *.
  assert (Hmaster : master_data g3).
  { unfold g3, g2, g1. rewrite <- !apply_steps_app.
    apply master_data_apply_steps.
    - repeat (apply Forall_app; split); apply master_stage; intro row; exact I.
    - split; intros x []. }
  assert (Eitem : apply_steps Sitem g3 = g3).
  { apply (order_items_without_orders (order_items db)).
    intro k. apply match_nodes_none. intros n Hn.
    apply (proj1 Hmaster) in Hn. cbn in Hn.
    intro E. rewrite E in Hn. intuition discriminate. }
  rewrite Eitem in Hev |- *.
  apply passes_events_str in Hev as [Eev Hev].
  change (apply_steps Sev g3 = g3) in Eev. rewrite Eev.
  assert (Hknown : forall k, known_customer db k ->
                             match_nodes "Customer" k g3 <> []).
  { intros k (c & Hc & <-).
    destruct (apply_steps_grows (Scat ++ Sprod) g1) as (extra & Hx).
    { apply Forall_app; split; (apply Forall_cons; [discriminate|]).
      - apply stage_keeps_nodes. intro row. discriminate.
      - apply stage_keeps_nodes. intro row. discriminate. }
    rewrite apply_steps_app in Hx. fold g2 g3 in Hx.
    apply (match_nodes_grows _ _ g1 _ extra Hx).
    now apply (passes_customers (customers db) empty_graph Hcust). }
  split; [|split; [|exact Hmaster]].
  - intros o Ho Hk. apply Hknown in Hk. now rewrite (Hord o Ho) in Hk.
  - intros ev Hin [Hc (p & cat & Hp & Hcat & Hid & Hpc)].
    apply Hknown in Hc.
    assert (Hprod : match_nodes "Product" (prod_id p) g3 <> []).
    { apply (products_loaded (products db) g2 p Hp).
      rewrite <- Hpc. now apply (categories_loaded (categories db) g1). }
    rewrite Hid in Hprod.
    destruct (Hev ev Hin) as [E|E]; [now rewrite E in Hc|now rewrite E in Hprod].
Qed.

(** X10. POST /neo4j/migrate hands the order and event timestamps to
    datetime() as str() prints them, with a space between date and time,
    which datetime() refuses.  So the endpoint answers with success only
    when no such statement ever reaches a node: no order row belongs to a
    customer of the customers table, no event row joins a customer of the
    customers table to a product that was loaded; and the graph it then
    leaves holds customers, categories and products only, with no
    relationship but IN_CATEGORY. *)
Theorem migrate_completes_only_without_orders conn drv (w : world) :
  let '(r, w', _) := migrate_to_neo4j conn drv w in
  forall resp, r = Ok resp ->
    (forall o, In o (orders (pg w)) ->
               ~ known_customer (pg w) (ord_customer_id o))
    /\ (forall ev, In ev (events (pg w)) ->
          ~ (known_customer (pg w) (ev_customer_id ev)
             /\ known_product (pg w) (ev_product_id ev)))
    /\ master_data (neo w').
Proof.
  pose proof (follows_migrate_to_neo4j (pg w) (queries_cypher w)
                (queries_path w) conn drv w (at_source_self w)) as H.
  pose proof (honest_migrate_to_neo4j conn drv w) as Hh.
  destruct (migrate_to_neo4j conn drv w) as [[r w'] t].
  intros resp ->. destruct H as (_ & _ & Hout).
  cbn [outcome] in Hout. destruct Hout as (_ & Hs & _ & Hg).
  pose proof (replay_passes t _ _ _ Hs Hh) as Hp.
  rewrite Hg. now apply migrate_plan_passes.
Qed.

Lemma migrate_completes_only_without_orders_witness :
  fst (fst (migrate_to_neo4j 0 1 orphan_order_world)) = Ok success_response
  /\ (forall o, In o (orders (pg orphan_order_world)) ->
                ~ known_customer (pg orphan_order_world) (ord_customer_id o))
  /\ master_data (neo (snd (fst (migrate_to_neo4j 0 1 orphan_order_world)))).
Proof.
  pose proof (migrate_completes_only_without_orders 0 1 orphan_order_world)
    as H.
  destruct (migrate_to_neo4j 0 1 orphan_order_world) as [[r w'] t] eqn:E.
  assert (Hr : r = Ok success_response).
  { apply (f_equal (fun x => fst (fst x))) in E. vm_compute in E. now subst r. }
  destruct (H _ Hr) as (H1 & _ & H3).
  split; [exact Hr|]. split; [exact H1|exact H3].
Defined.

(** ** Runs over stores that answer *)

Lemma calm_ret {A} db (a : A) : calm db (ret a).
Proof. intros w Hf Hd. cbn. split; [now exists a|now split]. Qed.

Lemma calm_emit db e : calm db (emit e).
Proof. intros w Hf Hd. cbn. split; [now exists tt|now split]. Qed.

Lemma calm_print db line : calm db (print line).
Proof. apply calm_emit. Qed.

Lemma calm_bind {A B} db (m : M A) (f : A -> M B) :
  calm db m -> (forall a, calm db (f a)) -> calm db (bind m f).
Proof.
  intros Hm Hk w Hf Hd. unfold bind. specialize (Hm w Hf Hd).
  destruct (m w) as [[r w1] t1]. destruct Hm as ((a & ->) & Hf1 & Hd1).
  specialize (Hk a w1 Hf1 Hd1). now destruct (f a w1) as [[r2 w2] t2].
Qed.

Lemma calm_then {A B} db (m : M A) (k : M B) :
  calm db m -> calm db k -> calm db (bind m (fun _ => k)).
Proof. intros Hm Hk. apply calm_bind; [exact Hm|intros _; exact Hk]. Qed.

Lemma calm_select_bind {A B} db t (rows : database -> list A) conn
    (f : list A -> M B) :
  calm db (f (rows db)) -> calm db (bind (select_all t rows conn) f).
Proof.
  intros Hk [d g p qc fs h] Hf Hd. cbn [faults pg] in Hf, Hd. subst fs d.
  unfold bind, select_all, next_fault. cbn [faults pg].
  specialize (Hk (mkWorld db g p qc [] h) eq_refl eq_refl).
  now destruct (f (rows db) (mkWorld db g p qc [] h)) as [[r2 w2] t2].
Qed.

Lemma calm_for_each {A} db (xs : list A) body :
  (forall x, In x xs -> calm db (body x)) -> calm db (for_each xs body).
Proof.
  induction xs as [|x xs IH]; intro Hb; [apply calm_ret|].
  cbn [for_each]. apply calm_then; [apply Hb; now left|].
  apply IH. intros y Hy. apply Hb. now right.
Qed.

Lemma calm_try_except {A} db (m : M A) h : calm db m -> calm db (try_except m h).
Proof.
  intros Hm w Hf Hd. unfold try_except. specialize (Hm w Hf Hd).
  destruct (m w) as [[r w1] t1]. destruct Hm as ((a & ->) & Hf1 & Hd1).
  split; [now exists a|now split].
Qed.

Lemma calm_try_finally {A} db (m : M A) fin :
  calm db m -> calm db fin -> calm db (try_finally m fin).
Proof.
  intros Hm Hfin w Hf Hd. unfold try_finally. specialize (Hm w Hf Hd).
  destruct (m w) as [[r w1] t1]. destruct Hm as ((a & ->) & Hf1 & Hd1).
  specialize (Hfin w1 Hf1 Hd1).
  destruct (fin w1) as [[rf w2] t2]. destruct Hfin as ((u & ->) & Hf2 & Hd2).
  split; [now exists a|now split].
Qed.

Lemma calm_with_session {A} db drv (body : nat -> M A) :
  (forall ses, calm db (body ses)) -> calm db (with_session drv body).
Proof.
  intros Hb w Hf Hd. unfold with_session, fresh_handle.
  pose proof (calm_try_finally db (body (next_handle w))
                (emit (ESessionClose (next_handle w)))
                (Hb _) (calm_emit db _)
                (mkWorld (pg w) (neo w) (queries_path w) (queries_cypher w)
                   (faults w) (S (next_handle w))) Hf Hd) as H.
  now destruct (try_finally _ _ _) as [[r w2] t].
Qed.

Lemma calm_session_run db ses q :
  total_statement q -> calm db (session_run ses q).
Proof.
  intros Hq [d g p qc fs h] Hf Hd. cbn [faults pg] in Hf, Hd. subst fs d.
  unfold session_run, next_fault. cbn [faults neo].
  destruct (Hq g) as (g' & rows & ->).
  split; [now exists rows|now split].
Qed.

Lemma calm_run_cypher db drv q :
  total_statement q -> calm db (run_cypher drv q).
Proof.
  intro Hq. unfold run_cypher. apply calm_with_session.
  intro ses. now apply calm_session_run.
Qed.

Lemma calm_connect db : calm db psycopg2_connect.
Proof.
  intros [d g p qc fs h] Hf Hd. cbn [faults pg] in Hf, Hd. subst fs d.
  cbn. split; [now eexists|now split].
Qed.

Lemma calm_driver db : calm db GraphDatabase_driver.
Proof.
  intros [d g p qc fs h] Hf Hd. cbn [faults pg] in Hf, Hd. subst fs d.
  cbn. split; [now eexists|now split].
Qed.

Lemma calm_wait_for_postgres db : calm db (wait_for_postgres 30 2).
Proof.
  intros w Hf Hd.
  rewrite (wait_for_postgres_ready 30 2 w [] []);
    [|lia|exact Hf|vm_compute; lia|reflexivity].
  split; [now exists tt|now split].
Qed.

Lemma calm_wait_for_neo4j db : calm db (wait_for_neo4j 30 2).
Proof.
  intros w Hf Hd.
  rewrite (wait_for_neo4j_ready 30 2 w [] []);
    [|lia|exact Hf|vm_compute; lia|reflexivity].
  split; [now exists tt|now split].
Qed.

(** *** The statements of etl() *)

Lemma total_customer_statement row :
  valid_date (cust_join_date row) = true ->
  total_statement (CreateCustomer (cust_id row) (cust_name row)
                     (py_str_date (cust_join_date row))).
Proof.
  intros Hv g. cbn [exec]. rewrite (cypher_date_roundtrip _ Hv).
  now eexists; eexists.
Qed.

Lemma total_order_statement row :
  valid_timestamp (ord_ts row) = true ->
  total_statement (CreateOrder (ord_id row) (ord_customer_id row)
                     (py_isoformat (ord_ts row))).
Proof.
  intros Hv g. cbn [exec]. rewrite (cypher_datetime_roundtrip _ Hv).
  destruct (match_nodes "Customer" (ord_customer_id row) g);
    now eexists; eexists.
Qed.

Lemma total_event_statement row :
  valid_timestamp (ev_ts row) = true ->
  total_statement (CreateInteracted (ev_customer_id row) (ev_product_id row)
                     (ev_event_type row) (py_isoformat (ev_ts row))).
Proof.
  intros Hv g. cbn [exec]. rewrite (cypher_datetime_roundtrip _ Hv).
  destruct (match_nodes "Customer" (ev_customer_id row) g);
    [now eexists; eexists|].
  destruct (match_nodes "Product" (ev_product_id row) g);
    now eexists; eexists.
Qed.

Lemma total_plain_statement q :
  match q with
  | CreateCustomer _ _ _ | CreateOrder _ _ _ | CreateInteracted _ _ _ _ => False
  | _ => True
  end ->
  total_statement q.
Proof. intros H g. destruct q; try destruct H; cbn [exec]; now eexists; eexists. Qed.

Ltac calmly :=
  repeat first
    [ apply calm_print | apply calm_ret | apply calm_emit
    | apply calm_select_bind | apply calm_then ].

Lemma calm_run_cypher_file db drv : calm db (run_cypher_file drv).
Proof.
  intros w Hf Hd. unfold run_cypher_file.
  destruct (queries_cypher w) as [content|].
  - assert (H : calm db
                  (print ("Executing Cypher file: " ^^ queries_path w) ;;
                   with_session drv (fun session =>
                     for_each (enumerate (statements_of content) 1)
                       (run_statement session
                          (List.length (statements_of content)))))).
    { apply calm_then; [apply calm_print|].
      apply calm_with_session. intro ses. apply calm_for_each.
      intros [i s] _. unfold run_statement. apply calm_try_except.
      apply calm_then; [|apply calm_print].
      apply calm_session_run. now apply total_plain_statement. }
    exact (H w Hf Hd).
  - exact (calm_print db
             ("Warning: Cypher file not found at " ^^ queries_path w) w Hf Hd).
Qed.

Lemma calm_reset_graph db drv : calm db (reset_graph drv).
Proof.
  unfold reset_graph.
  apply calm_then; [apply calm_print|].
  apply calm_then; [apply calm_run_cypher; now apply total_plain_statement|].
  apply calm_then; [apply calm_print|].
  intros w Hf Hd. destruct (queries_cypher w) as [content|] eqn:Hq.
  - assert (H : calm db
                  (print (nl ^^ "[2/6] Setting up Neo4j schema...") ;;
                   run_cypher_file drv)).
    { apply calm_then; [apply calm_print|apply calm_run_cypher_file]. }
    exact (H w Hf Hd).
  - exact (calm_print db
             (nl ^^ "[2/6] No queries.cypher file found, skipping schema setup")
             w Hf Hd).
Qed.

Lemma calm_etl_body db conn drv :
  valid_source db -> calm db (etl_body conn drv).
Proof.
  intros (Hc & Ho & He). unfold etl_body.
  apply calm_then; [apply calm_reset_graph|].
  apply calm_bind.
  { unfold migrate_categories. calmly.
    apply calm_for_each. intros row _. calmly.
    apply calm_run_cypher. now apply total_plain_statement. }
  intros df_categories. apply calm_bind.
  { unfold migrate_products. calmly.
    apply calm_for_each. intros row _. calmly.
    apply calm_run_cypher. now apply total_plain_statement. }
  intros df_products. apply calm_bind.
  { unfold migrate_customers. calmly.
    apply calm_for_each. intros row Hrow. calmly.
    apply calm_run_cypher. apply total_customer_statement.
    exact (proj1 (Forall_forall _ _) Hc row Hrow). }
  intros df_customers. apply calm_bind.
  { unfold migrate_orders. calmly.
    apply calm_for_each. intros row Hrow. calmly.
    apply calm_run_cypher. apply total_order_statement.
    exact (proj1 (Forall_forall _ _) Ho row Hrow). }
  intros df_orders. apply calm_bind.
  { unfold migrate_order_items. calmly.
    apply calm_for_each. intros row _. calmly.
    apply calm_run_cypher. now apply total_plain_statement. }
  intros df_order_items. apply calm_bind.
  { unfold migrate_events. calmly.
    apply calm_for_each. intros row Hrow. calmly.
    apply calm_run_cypher. apply total_event_statement.
    exact (proj1 (Forall_forall _ _) He row Hrow). }
  intros df_events. unfold print_summary. calmly.
Qed.

Lemma calm_etl db : valid_source db -> calm db etl.
Proof.
  intro Hv. unfold etl.
  apply calm_then; [apply calm_wait_for_postgres|].
  apply calm_then; [apply calm_wait_for_neo4j|].
  unfold etl_run. calmly.
  apply calm_bind; [apply calm_connect|intro conn].
  apply calm_bind; [apply calm_driver|intro drv].
  apply calm_try_finally.
  - apply calm_try_except. now apply calm_etl_body.
  - unfold pg_close, driver_close. calmly.
Qed.

(** X11. When both stores answer every call, etl() completes over every
    source whose dates and timestamps are ones Python can hold, whatever
    its rows refer to: a product of an unknown category, an order of an
    unknown customer, an item of an unknown order or product, an event of
    an unknown customer or product do not make it fail.  The graph is then
    the projection of the source. *)
Theorem etl_completes_when_stores_answer (w : world) :
  faults w = [] ->
  valid_source (pg w) ->
  let '(r, w', _) := etl w in
  r = Ok tt /\ neo w' = projection (pg w).
Proof.
  intros Hf Hv.
  pose proof (calm_etl (pg w) Hv w Hf eq_refl) as H.
  pose proof (etl_spec w) as Hs.
  destruct (etl w) as [[r w'] t].
  destruct H as (([] & ->) & _ & _).
  split; [reflexivity|].
  apply etl_ended_graph in Hs as (_ & Hg & _). now apply Hg.
Qed.

Lemma etl_completes_when_stores_answer_witness :
  faults dangling_world = []
  /\ valid_source (pg dangling_world)
  /\ fst (fst (etl dangling_world)) = Ok tt
  /\ neo (snd (fst (etl dangling_world))) = projection dangling_shop.
Proof.
  assert (Hv : valid_source (pg dangling_world)).
  { repeat split; repeat constructor. }
  pose proof (etl_completes_when_stores_answer dangling_world eq_refl Hv) as H.
  destruct (etl dangling_world) as [[r w'] t].
  split; [reflexivity|]. split; [exact Hv|]. exact H.
Defined.

(** ** Running etl() again *)

(** X12. etl() can be run again: when a run completes after an earlier
    run from the same state of the stores, whatever became of the earlier
    one, the graph is the projection of the relational source.  So a
    completed run after a failed one repairs the graph, and a completed
    run after a completed one leaves the graph as it was: nothing is
    loaded twice. *)
Theorem etl_can_be_run_again (w : world) :
  let '(r1, w1, _) := etl w in
  let '(r2, w2, _) := etl w1 in
  r2 = Ok tt ->
  neo w2 = projection (pg w) /\ (raised r1 \/ neo w2 = neo w1).
Proof.
  pose proof (etl_spec w) as H1.
  destruct (etl w) as [[r1 w1] t1].
  pose proof (etl_spec w1) as H2.
  destruct (etl w1) as [[r2 w2] t2].
  intro Hr2.
  assert (Hpg : pg w1 = pg w) by (destruct H1 as [[Hp _] _]; exact Hp).
  apply etl_ended_graph in H1 as (_ & Hg1 & _).
  apply etl_ended_graph in H2 as (_ & Hg2 & _).
  specialize (Hg2 Hr2). rewrite Hpg in Hg2. split; [exact Hg2|].
  destruct r1 as [[]|e]; [right|left; now exists e].
  now rewrite Hg2, Hg1.
Qed.

Lemma etl_can_be_run_again_witness :
  fst (fst (etl failing_wipe_world)) = Raise (StoreError "out of memory")
  /\ neo (snd (fst (etl failing_wipe_world))) = sentinel_graph
  /\ fst (fst (etl (snd (fst (etl failing_wipe_world))))) = Ok tt
  /\ neo (snd (fst (etl (snd (fst (etl failing_wipe_world))))))
     = projection small_shop.
Proof.
  pose proof (etl_can_be_run_again failing_wipe_world) as H.
  destruct (etl failing_wipe_world) as [[r1 w1] t1] eqn:E1.
  assert (Hw1 : w1 = snd (fst (etl failing_wipe_world))) by now rewrite E1.
  assert (Hr1 : r1 = fst (fst (etl failing_wipe_world))) by now rewrite E1.
  cbn [fst snd].
  destruct (etl w1) as [[r2 w2] t2] eqn:E2. cbn [fst snd].
  assert (Hr2 : r2 = Ok tt).
  { apply (f_equal (fun x => fst (fst x))) in E2. cbn [fst] in E2.
    rewrite <- E2, Hw1. vm_compute. reflexivity. }
  split; [rewrite Hr1; vm_compute; reflexivity|].
  split; [rewrite Hw1; vm_compute; reflexivity|].
  split; [exact Hr2|exact (proj1 (H Hr2))].
Defined.

(** ** The verdicts of the log *)

Lemma silent_ret {A} (a : A) : silent (ret a).
Proof. intro w. constructor. Qed.

Lemma silent_raise {A} e : silent (@raise A e).
Proof. intro w. constructor. Qed.

Lemma silent_emit e :
  match e with EPrint l => headline l = false | _ => True end ->
  silent (emit e).
Proof. intros H w. destruct e; cbn; try constructor; [exact H|constructor]. Qed.

Lemma silent_print l : headline l = false -> silent (print l).
Proof. intro H. now apply silent_emit. Qed.

Lemma silent_bind {A B} (m : M A) (f : A -> M B) :
  silent m -> (forall a, silent (f a)) -> silent (bind m f).
Proof.
  intros Hm Hf w. unfold bind. specialize (Hm w).
  destruct (m w) as [[[a|e] w1] t1]; [|exact Hm].
  specialize (Hf a w1). destruct (f a w1) as [[r w2] t2].
  rewrite printed_app. apply Forall_app. now split.
Qed.

Lemma silent_try_except {A} (m : M A) h :
  silent m -> (forall e, silent (h e)) -> silent (try_except m h).
Proof.
  intros Hm Hh w. unfold try_except. specialize (Hm w).
  destruct (m w) as [[[a|e] w1] t1]; [exact Hm|].
  specialize (Hh e w1). destruct (h e w1) as [[r w2] t2].
  rewrite printed_app. apply Forall_app. now split.
Qed.

Lemma silent_try_finally {A} (m : M A) fin :
  silent m -> silent fin -> silent (try_finally m fin).
Proof.
  intros Hm Hf w. unfold try_finally. specialize (Hm w).
  destruct (m w) as [[r w1] t1].
  specialize (Hf w1). destruct (fin w1) as [[rf w2] t2].
  rewrite printed_app. apply Forall_app. now split.
Qed.

Lemma silent_for_each {A} (xs : list A) body :
  (forall x, silent (body x)) -> silent (for_each xs body).
Proof.
  intro Hb. induction xs as [|x xs IH]; [apply silent_ret|].
  cbn [for_each]. apply silent_bind; [apply Hb|intros _; exact IH].
Qed.

Lemma silent_for_until {A} (xs : list A) body :
  (forall x, silent (body x)) -> silent (for_until xs body).
Proof.
  intro Hb. induction xs as [|x xs IH]; cbn [for_until].
  - apply silent_ret.
  - apply silent_bind; [apply Hb|]. intros [|]; [apply silent_ret|exact IH].
Qed.

Lemma silent_select {A} t (rows : database -> list A) conn :
  silent (select_all t rows conn).
Proof.
  intros [db g path qc fs h]. unfold select_all, next_fault. cbn [faults].
  destruct fs as [|[e|] fs]; constructor.
Qed.

Lemma silent_session_run ses q : silent (session_run ses q).
Proof.
  intros [db g path qc fs h]. unfold session_run, next_fault. cbn [faults].
  destruct fs as [|[e|] fs]; cbn [neo]; try constructor;
    destruct (exec q g) as [e'|[g' rows]]; constructor.
Qed.

Lemma silent_with_session {A} drv (body : nat -> M A) :
  (forall ses, silent (body ses)) -> silent (with_session drv body).
Proof.
  intros Hb w. unfold with_session, fresh_handle.
  pose proof (silent_try_finally (body (next_handle w))
                (emit (ESessionClose (next_handle w)))
                (Hb _) (silent_emit (ESessionClose (next_handle w)) I)
                (mkWorld (pg w) (neo w) (queries_path w) (queries_cypher w)
                   (faults w) (S (next_handle w)))) as H.
  destruct (try_finally _ _ _) as [[r w2] t]. exact H.
Qed.

Lemma silent_connect : silent psycopg2_connect.
Proof.
  intros [db g path qc fs h]. unfold psycopg2_connect, next_fault. cbn [faults].
  destruct fs as [|[e|] fs]; constructor.
Qed.

Lemma silent_driver : silent GraphDatabase_driver.
Proof. intro w. constructor. Qed.

Ltac quiet :=
  repeat first
    [ apply silent_ret | apply silent_raise | apply silent_select
    | apply silent_session_run | apply silent_connect | apply silent_driver
    | apply silent_print; reflexivity
    | apply silent_emit; exact I
    | apply silent_with_session | apply silent_for_each
    | apply silent_for_until | apply silent_try_except
    | apply silent_bind | intro ].

Lemma silent_wait_for_postgres max_retries delay :
  silent (wait_for_postgres max_retries delay).
Proof.
  unfold wait_for_postgres, pg_attempt, pg_close. quiet.
  destruct e; quiet. destruct (_ <? _)%Z; unfold sleep; quiet.
Qed.

Lemma silent_wait_for_neo4j max_retries delay :
  silent (wait_for_neo4j max_retries delay).
Proof.
  unfold wait_for_neo4j, neo4j_attempt, driver_close. quiet.
  destruct (_ <? _)%Z; unfold sleep; quiet.
Qed.

Lemma silent_run_cypher_file drv : silent (run_cypher_file drv).
Proof.
  intro w. unfold run_cypher_file.
  destruct (queries_cypher w) as [content|].
  - assert (H : silent
                  (print ("Executing Cypher file: " ^^ queries_path w) ;;
                   with_session drv (fun session =>
                     for_each (enumerate (statements_of content) 1)
                       (run_statement session
                          (List.length (statements_of content)))))).
    { quiet. destruct x as [i s]. unfold run_statement. quiet. }
    exact (H w).
  - assert (H : silent
                  (print ("Warning: Cypher file not found at "
                          ^^ queries_path w))) by quiet.
    exact (H w).
Qed.

Lemma silent_reset_graph drv : silent (reset_graph drv).
Proof.
  unfold reset_graph, run_cypher.
  apply silent_bind; [quiet|intros _].
  apply silent_bind; [quiet|intros _].
  apply silent_bind; [quiet|intros _].
  intro w. destruct (queries_cypher w) as [content|].
  - assert (H : silent
                  (print (nl ^^ "[2/6] Setting up Neo4j schema...") ;;
                   run_cypher_file drv)).
    { apply silent_bind; [quiet|intros _; apply silent_run_cypher_file]. }
    exact (H w).
  - assert (H : silent
                  (print (nl ^^ "[2/6] No queries.cypher file found, skipping schema setup")))
      by quiet.
    exact (H w).
Qed.

Lemma silent_lines ls :
  Forall (fun l => headline l = false) ls ->
  ~ In success_line ls
  /\ forall l, In l ls -> is_failure_line l = true -> False.
Proof.
  intro H. rewrite Forall_forall in H. split.
  - intro Hin. apply H in Hin. discriminate Hin.
  - intros l Hin Hl. apply H in Hin. unfold headline in Hin.
    rewrite Hl, Bool.orb_true_r in Hin. discriminate.
Qed.

Lemma truthful_silent {A} (m : M A) : silent m -> truthful m.
Proof.
  intros H w. specialize (H w). destruct (m w) as [[r w'] t].
  apply silent_lines in H as [H1 H2]. split.
  - intro Hin. now destruct H1.
  - intros l Hin Hl. destruct (H2 l Hin Hl).
Qed.

Lemma truthful_bind {A B} (m : M A) (f : A -> M B) :
  silent m -> (forall a, truthful (f a)) -> truthful (bind m f).
Proof.
  intros Hm Hf w. unfold bind. specialize (Hm w).
  destruct (m w) as [[[a|e] w1] t1].
  - specialize (Hf a w1). destruct (f a w1) as [[r w2] t2].
    apply silent_lines in Hm as [H1 H2]. destruct Hf as [F1 F2].
    rewrite printed_app. split.
    + intro Hin. apply in_app_or in Hin as [Hin|Hin]; [now destruct H1|auto].
    + intros l Hin Hl.
      apply in_app_or in Hin as [Hin|Hin]; [destruct (H2 l Hin Hl)|eauto].
  - apply silent_lines in Hm as [H1 H2]. split.
    + intro Hin. now destruct H1.
    + intros l Hin Hl. destruct (H2 l Hin Hl).
Qed.

(** [try: m  except Exception as e: print(failure line); raise] *)
Lemma truthful_try_except {A} (m : M A) :
  truthful m ->
  truthful (try_except m (fun e => print (failed_line e) ;; raise e)).
Proof.
  intros Hm w. unfold try_except. specialize (Hm w).
  destruct (m w) as [[[a|e] w1] t1]; [exact Hm|].
  destruct Hm as [H1 H2]. cbn. rewrite printed_app. cbn [printed flat_map app].
  split.
  - intro Hin. apply in_app_or in Hin as [Hin|[Hin|[]]]; [auto|].
    discriminate Hin.
  - intros l Hin Hl. apply in_app_or in Hin as [Hin|[<-|[]]]; [eauto|].
    now exists e.
Qed.

(** [try: m  finally: fin], with a [finally] clause that goes through. *)
Lemma truthful_try_finally {A} (m : M A) fin :
  truthful m -> silent fin ->
  (forall w, exists w' t, fin w = (Ok tt, w', t)) ->
  truthful (try_finally m fin).
Proof.
  intros Hm Hs Hok w. unfold try_finally. specialize (Hm w).
  destruct (m w) as [[r w1] t1].
  specialize (Hs w1). destruct (Hok w1) as (w2 & t2 & E). rewrite E in Hs |- *.
  apply silent_lines in Hs as [S1 S2]. destruct Hm as [H1 H2].
  rewrite printed_app. split.
  - intro Hin. apply in_app_or in Hin as [Hin|Hin]; [auto|now destruct S1].
  - intros l Hin Hl.
    apply in_app_or in Hin as [Hin|Hin]; [eauto|destruct (S2 l Hin Hl)].
Qed.

Lemma truthful_print_summary nc np ncu no noi ne :
  truthful (print_summary nc np ncu no noi ne).
Proof.
  intro w. cbn. split; [intros _; now exists tt|].
  intros l Hin Hl. exfalso.
  repeat (destruct Hin as [<-|Hin]; [discriminate Hl|]). destruct Hin.
Qed.

Lemma truthful_etl_body conn drv : truthful (etl_body conn drv).
Proof.
  unfold etl_body.
  apply truthful_bind; [apply silent_reset_graph|intros _].
  apply truthful_bind;
    [unfold migrate_categories, run_cypher; quiet|intros df_categories].
  apply truthful_bind;
    [unfold migrate_products, run_cypher; quiet|intros df_products].
  apply truthful_bind;
    [unfold migrate_customers, run_cypher; quiet|intros df_customers].
  apply truthful_bind;
    [unfold migrate_orders, run_cypher; quiet|intros df_orders].
  apply truthful_bind;
    [unfold migrate_order_items, run_cypher; quiet|intros df_order_items].
  apply truthful_bind;
    [unfold migrate_events, run_cypher; quiet|intros df_events].
  apply truthful_print_summary.
Qed.

Lemma truthful_etl : truthful etl.
Proof.
  unfold etl.
  apply truthful_bind; [apply silent_wait_for_postgres|intros _].
  apply truthful_bind; [apply silent_wait_for_neo4j|intros _].
  unfold etl_run.
  apply truthful_bind; [quiet|intros _].
  apply truthful_bind; [quiet|intros _].
  apply truthful_bind; [quiet|intros _].
  apply truthful_bind; [quiet|intros _].
  apply truthful_bind; [quiet|intros conn].
  apply truthful_bind; [quiet|intros drv].
  apply truthful_try_finally.
  - apply (truthful_try_except (etl_body conn drv)), truthful_etl_body.
  - unfold pg_close, driver_close. quiet.
  - intro w. now eexists; eexists.
Qed.

Lemma etl_ended_success w r w' t :
  etl_ended w r w' t -> r = Ok tt -> In success_line (printed t).
Proof.
  intros (_ & tg & tr & -> & _ & Hcase) ->.
  destruct Hcase as [([e He] & _)|[([e He] & _)|[c Hrun]]]; try discriminate.
  destruct Hrun as (tb & -> & _ & (_ & _ & Hp & _)).
  assert (Hin : In success_line (summary_output (pg w)))
    by (right; left; reflexivity).
  rewrite !printed_app, Hp. unfold etl_output.
  rewrite !in_app_iff. tauto.
Qed.

(** X13. The log of etl() tells how the run ended.  The line
    "ETL Process Completed Successfully!" is printed exactly when etl()
    returns; a line that opens with the failure notice is printed only when
    etl() raises, and it carries the message of the very exception that
    etl() raises. *)
Theorem log_tells_how_the_run_ended (w : world) :
  let '(r, _, t) := etl w in
  (In success_line (printed t) <-> r = Ok tt)
  /\ (forall l, In l (printed t) -> is_failure_line l = true ->
                exists e, r = Raise e /\ l = failed_line e).
Proof.
  pose proof (truthful_etl w) as H. pose proof (etl_spec w) as Hs.
  destruct (etl w) as [[r w'] t]. destruct H as [H1 H2].
  split; [split|exact H2].
  - intro Hin. destruct (H1 Hin) as ([] & ->). reflexivity.
  - intro Hr. exact (etl_ended_success _ _ _ _ Hs Hr).
Qed.

Lemma log_tells_how_the_run_ended_witness :
  In (failed_line (StoreError "out of memory"))
     (printed (snd (etl failing_wipe_world)))
  /\ exists e,
       fst (fst (etl failing_wipe_world)) = Raise e
       /\ failed_line (StoreError "out of memory") = failed_line e.
Proof.
  assert (Hin : In (failed_line (StoreError "out of memory"))
                  (printed (snd (etl failing_wipe_world)))).
  { vm_compute. repeat first [left; reflexivity | right]. }
  split; [exact Hin|].
  pose proof (log_tells_how_the_run_ended failing_wipe_world) as H.
  destruct (etl failing_wipe_world) as [[r w'] t].
  exact (proj2 H _ Hin eq_refl).
Defined.
